(** * mentionbot: the follower-timeline fetcher and its polling loop

    A shallow embedding of [bot.go] (the [Run] loop, [followersTimeline] and
    the [timeline] sort interface) and of [utils.go] (the identifier store),
    together with the properties the specification states about them.

    Conventions.
    - Go's [time.Time] is an instant; it is modelled as the integer number of
      nanoseconds since the epoch, so [After] and [Before] are the strict
      order on [Z] and [Add] is addition of a [time.Duration] (nanoseconds).
    - [int64] arithmetic is written with its wrap-around; [int] is the 64-bit
      [int] of the usual targets, [uint32] values are integers in [0, 2^32).
    - A Go pair [(value, err)] of a fallible call is a pair whose second
      component is [option error]; the result of a worker, where exactly one
      of the two fields is meaningful, is a two-constructor type.
    - A nil slice and an empty slice are both the empty list (the code only
      tests [timeline != nil] to skip sorting nothing); a nil pointer is
      [None]. *)

From Stdlib Require Import String ZArith List Lia Bool Arith.
From Stdlib Require Import Permutation Sorted.
From Equations Require Import Equations.
Import ListNotations.

Local Open Scope Z_scope.

(** ** Time and errors *)

Definition Time := Z.
Definition Duration := Z.
Definition error := string.

Definition After (t u : Time) : bool := u <? t.
Definition Before (t u : Time) : bool := t <? u.
Definition Add (t : Time) (d : Duration) : Time := t + d.

Definition Second : Duration := 1000000000.
Definition Minute : Duration := 60 * Second.

(** ** Machine integers *)

Definition int64_wrap (z : Z) : Z := (z + 2 ^ 63) mod 2 ^ 64 - 2 ^ 63.
Definition int64_sub (a b : Z) : Z := int64_wrap (a - b).
Definition is_int64 (z : Z) : Prop := - 2 ^ 63 <= z < 2 ^ 63.
Definition is_uint32 (z : Z) : Prop := 0 <= z < 2 ^ 32.

(** ** Rate-limit observations *)

Module RateLimit.

(** [rateLimitStatus]: [Limit] and [Remaining] are [uint32] counts (the loop
    converts them with [int(...)] before subtracting), [Reset] is an [int64]
    Unix time in seconds. *)
Record rateLimitStatus : Type := mkRateLimit {
  Limit : Z;
  Remaining : Z;
  Reset : Z
}.

(** [&rateLimitStatus{}] *)
Definition zero : rateLimitStatus := mkRateLimit 0 0 0.

(** The guard of [followersTimeline]:
    [(new.Reset > acc.Reset) || (new.Remaining < acc.Remaining)]. *)
Definition replaces (new acc : rateLimitStatus) : bool :=
  (Reset acc <? Reset new) || (Remaining new <? Remaining acc).

(** One update of the accumulator: [if replaces { rateLimit = new }]. *)
Definition merge (acc new : rateLimitStatus) : rateLimitStatus :=
  if replaces new acc then new else acc.

(** [if apiResult.rateLimit != nil { ... }] *)
Definition observe (acc : rateLimitStatus) (o : option rateLimitStatus)
  : rateLimitStatus :=
  match o with
  | Some new => merge acc new
  | None => acc
  end.

End RateLimit.
Import RateLimit.

(** ** The wait computed at the end of one round of [Run] *)

Module Wait.

(** [maxWait] after the block
    [if diff := int(latest.Remaining) - int(cur.Remaining); diff > 0 {...}].
    Go's [/] on integers truncates toward zero ([Z.quot]). *)
Definition Run_wait (latest cur : rateLimitStatus) (now : Z) : Z :=
  let maxWait := 10 in
  let diff := Remaining latest - Remaining cur in
  if 0 <? diff then
    let num := Z.quot (Remaining cur) diff in
    let num := if num =? 0 then num + 1 else num in
    let wait := Z.quot (int64_sub (Reset cur) now) num in
    if maxWait <? wait then wait else maxWait
  else maxWait.

End Wait.
Import Wait.

(** ** Slices *)

Module Slice.

(** [a[i] = v], for [i] in range (out of range, where Go panics, the list
    is left as it is; the callers check the range first). *)
Fixpoint upd {A : Type} (a : list A) (i : nat) (v : A) : list A :=
  match a, i with
  | [], _ => []
  | _ :: r, O => v :: r
  | x :: r, S i' => x :: upd r i' v
  end.

(** [a[i], a[j] = a[j], a[i]]: both reads happen before the writes. *)
Definition swap {A : Type} (a : list A) (i j : nat) : list A :=
  match nth_error a i, nth_error a j with
  | Some x, Some y => upd (upd a i y) j x
  | _, _ => a
  end.

(** [a[m:n]] *)
Definition slice {A : Type} (a : list A) (m n : nat) : list A :=
  firstn (n - m) (skipn m a).

End Slice.
Import Slice.

(** ** utils.go: the identifier store *)

Module IdsStore.

Record idsStore : Type := mkStore {
  expires : Time;
  ids : list Z
}.

(** [setIds]: [now] is the value of [time.Now()]. *)
Definition setIds (now : Time) (store : idsStore) (new_ids : list Z)
  (d : Duration) : idsStore :=
  let d := if d =? 0 then 15 * Minute else d in
  let store := mkStore (expires store) new_ids in
  mkStore (Add now d) (ids store).

Section Shuffle.

(** The state of [math/rand]'s source and [rand.Intn]. *)
Variable rng : Type.
Variable Intn : rng -> nat -> nat * rng.

(** [rand.Intn(n)] returns a number in [[0, n)]. *)
Definition Intn_in_range : Prop :=
  forall g n, (0 < n)%nat -> (fst (Intn g n) < n)%nat.

(** [for i := n - 1; i >= 0; i-- { j := rand.Intn(i + 1); swap i j }],
    by the number [k = i + 1] of iterations still to run. An index out of
    range panics: [None]. *)
Fixpoint shuffle (k : nat) (g : rng) (a : list Z) : option (list Z * rng) :=
  match k with
  | O => Some (a, g)
  | S i =>
      let (j, g') := Intn g (i + 1) in
      if ((i <? length a) && (j <? length a))%nat
      then shuffle i g' (swap a i j)
      else None
  end.

(** [pickIds] returns the slice, the source after the draws, and the
    store, whose [ids] array was shuffled in place. *)
Definition pickIds (now : Time) (g : rng) (store : idsStore)
  : option (list Z * rng * idsStore) :=
  if After now (expires store) then Some ([], g, store)
  else
    let n := length (ids store) in
    match shuffle n g (ids store) with
    | None => None
    | Some (a, g') =>
        let maxNum := 1000%nat in
        let maxNum :=
          if (length a <? maxNum)%nat then length a else maxNum in
        Some (slice a 0 maxNum, g', mkStore (expires store) a)
    end.

End Shuffle.

End IdsStore.

(** ** The data of a lookup *)

(** [Tweet] holds its [User] by value and [User] its latest [Status] by
    pointer. *)
Inductive Tweet : Type :=
| mkTweet (IDStr CreatedAt Text : string) (TweetUser : User)
with User : Type :=
| mkUser (ID : Z) (ScreenName : string) (Status : option Tweet).

Definition IDStr (t : Tweet) : string := let 'mkTweet i _ _ _ := t in i.
Definition CreatedAt (t : Tweet) : string := let 'mkTweet _ c _ _ := t in c.
Definition Text (t : Tweet) : string := let 'mkTweet _ _ x _ := t in x.
Definition TweetUser (t : Tweet) : User := let 'mkTweet _ _ _ u := t in u.
Definition ID (u : User) : Z := let 'mkUser i _ _ := u in i.
Definition ScreenName (u : User) : string := let 'mkUser _ n _ := u in n.
Definition Status (u : User) : option Tweet := let 'mkUser _ _ s := u in s.

(** [tweet.User = user] *)
Definition setUser (t : Tweet) (u : User) : Tweet :=
  mkTweet (IDStr t) (CreatedAt t) (Text t) u.

Record apiResult : Type := mkApiResult {
  rateLimit : option rateLimitStatus;
  results : list User
}.

(** The [result] struct sent on [out]: [err != nil], or else the
    [apiResult] of the call. *)
Inductive result : Type :=
| Failed (err : error)
| Looked (r : apiResult).

Definition timeline := list Tweet.

(** What [followersTimeline] returns: [(timeline, rateLimit, err)]. *)
Definition outcome : Type :=
  (timeline * option rateLimitStatus * option error)%type.

(** ** The batch producer of [followersTimeline] *)

(** [n] of one iteration: [n := m + 100; if n > len(ids) { n = len(ids) }] *)
Definition batch_end (ids : list Z) (m : nat) : nat :=
  let n := (m + 100)%nat in
  if (length ids <? n)%nat then length ids else n.

(** The batches sent on [in], in the order they are sent, from the loop
    [for m := 0; ; m += 100 { ...; if n-m < 1 { break }; in <- ids[m:n] }]. *)
Equations? producer (ids : list Z) (m : nat) : list (list Z)
  by wf (length ids - m)%nat lt :=
  producer ids m with lt_dec (batch_end ids m - m) 1 => {
    | left _ := [];
    | right _ := slice ids m (batch_end ids m) :: producer ids (m + 100) }.
Proof.
  unfold batch_end in *.
  destruct (Nat.ltb_spec (length ids) (m + 100)); lia.
Qed.

(** ** [followersTimeline] *)

Module Fetcher.

Section Defs.

(** [time.Parse(time.RubyDate, s)]: the parsed instant and the error. *)
Variable time_Parse : string -> Time * option error.

(** [sort.Sort], through the element-level comparison its [Less(i, j)]
    makes. *)
Variable sort_Sort : (Tweet -> Tweet -> bool) -> list Tweet -> list Tweet.

(** Modelled from the spec: the method [CreatedAtTime] of [Tweet] is not
    among the sources; it parses the raw creation timestamp string, which
    has a fixed textual format, and is fallible. *)
Definition CreatedAtTime (t : Tweet) : Time * option error :=
  time_Parse (CreatedAt t).

(** [timeline.Less], on the two elements it reads: parse errors are
    ignored and the returned instants compared. *)
Definition Less (a b : Tweet) : bool :=
  let (t1, _) := CreatedAtTime a in
  let (t2, _) := CreatedAtTime b in
  Before t1 t2.

(** [for _, user := range apiResult.results.([]User) { ... }]: the
    timeline after the loop, or the parse error it returns with. *)
Fixpoint scan (since : Time) (users : list User) (tl : timeline)
  : error + timeline :=
  match users with
  | [] => inr tl
  | user :: rest =>
      match Status user with
      | Some tweet =>
          let (createdAtTime, err) := CreatedAtTime tweet in
          match err with
          | Some e => inl e
          | None =>
              if After createdAtTime since
              then scan since rest (tl ++ [setUser tweet user])
              else scan since rest tl
          end
      | None => scan since rest tl
      end
  end.

(** The body of [case result, ok := <-out] for a received [result]. *)
Definition receive (since : Time) (tl : timeline) (rl : rateLimitStatus)
  (r : result) : error + (timeline * rateLimitStatus) :=
  match r with
  | Failed e => inl e
  | Looked apiResult =>
      let rl := observe rl (rateLimit apiResult) in
      match scan since (results apiResult) tl with
      | inl e => inl e
      | inr tl => inr (tl, rl)
      end
  end.

(** The [Loop:] over the values received on [out], in the order they
    arrive, until the channel is closed ([[]]). The second component is
    what was sent, or would be, and never received. *)
Fixpoint collect (since : Time) (out : list result) (tl : timeline)
  (rl : rateLimitStatus) : outcome * list result :=
  match out with
  | [] => ((tl, Some rl, None), [])
  | r :: rest =>
      match receive since tl rl r with
      | inl e => (([], None, Some e), rest)
      | inr (tl, rl) => collect since rest tl rl
      end
  end.

(** The deferred function: [if timeline != nil { sort.Sort(timeline) }]. *)
Definition sort_deferred (o : outcome) : outcome :=
  let '(tl, rl, err) := o in
  match tl with
  | [] => (tl, rl, err)
  | _ => (sort_Sort Less tl, rl, err)
  end.

(** The results in the order the caller receives them, when batch
    [nth k batches] is the [k]-th to have its result received. *)
Definition arrivals (usersLookup : list Z -> result)
  (batches : list (list Z)) (order : list nat) : list result :=
  map (fun k => usersLookup (nth k batches [])) order.

(** [followersTimeline(userID, since)]. The environment of the call is
    the answer [idsResults] of [followersIDs], the answers [usersLookup]
    of the bulk lookup to each batch, and the [order] in which the
    workers' results reach the caller. *)
Definition followersTimeline_full (idsResults : error + list Z)
  (usersLookup : list Z -> result) (order : list nat) (since : Time)
  : outcome * list result :=
  match idsResults with
  | inl e => (([], None, Some e), [])
  | inr ids =>
      let out := arrivals usersLookup (producer ids 0) order in
      let (o, unread) := collect since out [] zero in
      (sort_deferred o, unread)
  end.

Definition followersTimeline (idsResults : error + list Z)
  (usersLookup : list Z -> result) (order : list nat) (since : Time)
  : outcome :=
  fst (followersTimeline_full idsResults usersLookup order since).

(** ** One round of [Run] *)

Record botState : Type := mkBot {
  latestRateLimit : rateLimitStatus;
  latestCreatedAt : Time
}.

(** What the world answers during one round. [now] is [time.Now().Unix()]
    when the wait is computed. *)
Record round : Type := mkRound {
  idsResults : error + list Z;
  usersLookup : list Z -> result;
  order : list nat;
  now : Z
}.

Inductive roundResult : Type :=
| Stopped (err : error)          (* [return err] *)
| Panicked                       (* nil dereference of [rateLimit] *)
| Sleeps (st : botState) (maxWait : Z) (logged : list string).

(** [for _, tweet := range timeline { ... }]: the mentions printed. *)
Fixpoint mentions (mentioner : option (Tweet -> option string))
  (tl : timeline) : error + list string :=
  match tl with
  | [] => inr []
  | tweet :: rest =>
      let (_, err) := CreatedAtTime tweet in
      match err with
      | Some e => inl e
      | None =>
          match mentions mentioner rest with
          | inl e => inl e
          | inr logged =>
              match mentioner with
              | Some Mention =>
                  match Mention tweet with
                  | Some mention => inr (mention :: logged)
                  | None => inr logged
                  end
              | None => inr logged
              end
          end
      end
  end.

(** [if len(timeline) > 0 { latestCreatedAt, err = last.CreatedAtTime() }] *)
Definition advance (latest : Time) (tl : timeline) : error + Time :=
  match tl with
  | [] => inr latest
  | first :: _ =>
      let (t, err) := CreatedAtTime (last tl first) in
      match err with
      | Some e => inl e
      | None => inr t
      end
  end.

(** The body of the [for] loop of [Run]. *)
Definition Run_round (mentioner : option (Tweet -> option string))
  (st : botState) (w : round) : roundResult :=
  match followersTimeline (idsResults w) (usersLookup w) (order w)
                          (latestCreatedAt st) with
  | (_, _, Some err) => Stopped err
  | (tl, rateLimit, None) =>
      match mentions mentioner tl with
      | inl err => Stopped err
      | inr logged =>
          match advance (latestCreatedAt st) tl with
          | inl err => Stopped err
          | inr created =>
              match rateLimit with
              | None => Panicked
              | Some rateLimit =>
                  Sleeps (mkBot rateLimit created)
                         (Run_wait (latestRateLimit st) rateLimit (now w))
                         logged
              end
          end
      end
  end.

(** The loop, over the rounds the world offers: the state before each
    round that ran to its sleep, and how the loop left the last one. *)
Fixpoint Run_loop (mentioner : option (Tweet -> option string))
  (st : botState) (ws : list round) : list botState * option roundResult :=
  match ws with
  | [] => ([st], None)
  | w :: rest =>
      match Run_round mentioner st w with
      | Sleeps st' _ _ =>
          let (trace, final) := Run_loop mentioner st' rest in
          (st :: trace, final)
      | stop => ([st], Some stop)
      end
  end.

End Defs.

End Fetcher.
Import Fetcher.

(** ** The goroutines of [followersTimeline]

    The producer, the [numWorkers] workers, the goroutine that closes [out]
    and the caller, as a transition system. The channels [in] and [out] are
    unbuffered: a send and its receive are one step. *)

Module Pool.

Definition numWorkers : nat := 5.

(** Where a worker stands in
    [for ids := range in { results, err := usersLookup(ids); select {...} }]. *)
Inductive worker : Type :=
| Idle                      (* at [range in], ready to receive *)
| Calling (batch : list Z)  (* inside [usersLookup] *)
| Sending (r : result)      (* at the [select] *)
| Exited.                   (* returned; [wg.Done()] has run *)

(** The caller: in its [Loop:], or returned. *)
Inductive caller : Type :=
| Draining (tl : timeline) (rl : rateLimitStatus)
| Returned (o : outcome).

Record state : Type := mkState {
  pending : list (list Z);     (* batches the producer has yet to send *)
  in_closed : bool;
  workers : list worker;
  out_closed : bool;
  main : caller;
  cancel_closed : bool;
  dispatched : list (list Z);  (* batches received by workers, oldest first *)
  received : list result;      (* results received by the caller, oldest first *)
  calls : nat;                 (* [usersLookup] calls issued *)
  late_calls : nat             (* those issued after [close(cancel)] *)
}.

(** The steps the scheduler may choose from. *)
Inductive action : Type :=
| Dispatch (i : nat)     (* [in <- ids[m:n]] meets worker [i]'s receive *)
| CloseIn                (* [close(in)] *)
| LeaveLoop (i : nat)    (* worker [i] sees [in] closed *)
| CallReturns (i : nat)  (* worker [i]'s [usersLookup] returns *)
| Deliver (i : nat)      (* [out <- result] meets the caller's receive *)
| Cancelled (i : nat)    (* worker [i] takes [case <-cancel] *)
| CloseOut               (* [wg.Wait(); close(out)] *)
| Finish.                (* the caller sees [out] closed *)

Definition is_idle (w : worker) : bool :=
  match w with Idle => true | _ => false end.
Definition is_calling (w : worker) : bool :=
  match w with Calling _ => true | _ => false end.
Definition is_exited (w : worker) : bool :=
  match w with Exited => true | _ => false end.

Definition count (p : worker -> bool) (ws : list worker) : nat :=
  length (filter p ws).

Definition set_worker (s : state) (i : nat) (w : worker) : state :=
  mkState (pending s) (in_closed s) (upd (workers s) i w) (out_closed s)
          (main s) (cancel_closed s) (dispatched s) (received s) (calls s) (late_calls s).

(** What holds of every state the goroutines can reach from [ids]. *)
Definition invariant (ids : list Z) (s : state) : Prop :=
  length (workers s) = numWorkers /\
  dispatched s ++ pending s = producer ids 0 /\
  calls s = length (dispatched s) /\
  (cancel_closed s = true -> exists o, main s = Returned o) /\
  (cancel_closed s = false -> late_calls s = 0%nat) /\
  (late_calls s + count is_idle (workers s) <= numWorkers)%nat.

Section Steps.

Variable time_Parse : string -> Time * option error.
Variable sort_Sort : (Tweet -> Tweet -> bool) -> list Tweet -> list Tweet.
Variable usersLookup : list Z -> result.
Variable since : Time.

Definition init (ids : list Z) : state :=
  mkState (producer ids 0) false (repeat Idle numWorkers) false
          (Draining [] zero) false [] [] 0 0.

Definition step (a : action) (s : state) : option state :=
  match a with
  | Dispatch i =>
      match pending s, nth_error (workers s) i with
      | batch :: rest, Some Idle =>
          Some (mkState rest (in_closed s)
                  (upd (workers s) i (Calling batch)) (out_closed s)
                  (main s) (cancel_closed s)
                  (dispatched s ++ [batch]) (received s) (S (calls s))
                  (if cancel_closed s then S (late_calls s)
                   else late_calls s))
      | _, _ => None
      end
  | CloseIn =>
      match pending s, in_closed s with
      | [], false =>
          Some (mkState [] true (workers s) (out_closed s) (main s)
                  (cancel_closed s) (dispatched s) (received s) (calls s) (late_calls s))
      | _, _ => None
      end
  | LeaveLoop i =>
      match nth_error (workers s) i, in_closed s with
      | Some Idle, true => Some (set_worker s i Exited)
      | _, _ => None
      end
  | CallReturns i =>
      match nth_error (workers s) i with
      | Some (Calling batch) =>
          Some (set_worker s i (Sending (usersLookup batch)))
      | _ => None
      end
  | Deliver i =>
      match nth_error (workers s) i, main s with
      | Some (Sending r), Draining tl rl =>
          match receive time_Parse since tl rl r with
          | inr (tl', rl') =>
              Some (mkState (pending s) (in_closed s)
                      (upd (workers s) i Idle) (out_closed s)
                      (Draining tl' rl') (cancel_closed s)
                      (dispatched s) (received s ++ [r])
                      (calls s) (late_calls s))
          | inl e =>
              Some (mkState (pending s) (in_closed s)
                      (upd (workers s) i Idle) (out_closed s)
                      (Returned ([], None, Some e)) true
                      (dispatched s) (received s ++ [r])
                      (calls s) (late_calls s))
          end
      | _, _ => None
      end
  | Cancelled i =>
      match nth_error (workers s) i, cancel_closed s with
      | Some (Sending _), true => Some (set_worker s i Exited)
      | _, _ => None
      end
  | CloseOut =>
      if forallb is_exited (workers s) && negb (out_closed s)
      then Some (mkState (pending s) (in_closed s) (workers s) true
                   (main s) (cancel_closed s) (dispatched s) (received s) (calls s)
                   (late_calls s))
      else None
  | Finish =>
      match main s, out_closed s with
      | Draining tl rl, true =>
          Some (mkState (pending s) (in_closed s) (workers s) true
                  (Returned (sort_deferred time_Parse sort_Sort
                               (tl, Some rl, None)))
                  true (dispatched s) (received s) (calls s) (late_calls s))
      | _, _ => None
      end
  end.

(** The state after a schedule, if every step of it is enabled. *)
Fixpoint run (sched : list action) (s : state) : option state :=
  match sched with
  | [] => Some s
  | a :: rest =>
      match step a s with
      | Some s' => run rest s'
      | None => None
      end
  end.

Definition reachable (ids : list Z) (s : state) : Prop :=
  exists sched, run sched (init ids) = Some s.

(** The results of the lookups a worker has issued and not yet handed
    over. *)
Definition in_flight (w : worker) : list result :=
  match w with
  | Calling batch => [usersLookup batch]
  | Sending r => [r]
  | _ => []
  end.

(** How the state relates to what was dispatched and received: until the
    cancellation the results received and those in flight are the answers
    to the batches dispatched, and the caller is where its loop is after
    the results received. *)
Definition history (ids : list Z) (s : state) : Prop :=
  (in_closed s = true -> pending s = []) /\
  (cancel_closed s = false -> existsb is_exited (workers s) = true ->
   in_closed s = true) /\
  (out_closed s = true -> forallb is_exited (workers s) = true) /\
  (cancel_closed s = false ->
   Permutation (received s ++ flat_map in_flight (workers s))
               (map usersLookup (dispatched s))) /\
  match main s with
  | Draining tl rl =>
      collect time_Parse since (received s) [] zero
        = ((tl, Some rl, None), [])
  | Returned o =>
      o = sort_deferred time_Parse sort_Sort
            (fst (collect time_Parse since (received s) [] zero)) /\
      (snd o = None ->
       Permutation (received s) (map usersLookup (producer ids 0)))
  end.

End Steps.

End Pool.

(** ** What [sort.Sort] promises *)

(** [Less] must be a strict weak ordering. *)
Record StrictWeakOrder {A : Type} (less : A -> A -> bool) : Prop := {
  swo_irrefl : forall a, less a a = false;
  swo_trans : forall a b c,
    less a b = true -> less b c = true -> less a c = true;
  swo_incomp : forall a b c,
    less a b = false -> less b a = false ->
    less b c = false -> less c b = false ->
    less a c = false /\ less c a = false
}.

(** [sort.IsSorted]: no element is less than the one before it. *)
Definition IsSorted {A : Type} (less : A -> A -> bool) (l : list A) : Prop :=
  Sorted (fun a b => less b a = false) l.

(** The result is the same elements, in ascending order; nothing is promised
    about elements that compare equal. *)
Definition sort_contract
  (sort : (Tweet -> Tweet -> bool) -> list Tweet -> list Tweet) : Prop :=
  forall less l, StrictWeakOrder less ->
    Permutation (sort less l) l /\ IsSorted less (sort less l).

(** A sort keeps ties in place when, at every instant, the elements created
    at it come out in the order they went in. *)
Definition keeps_ties (key : Tweet -> Time) (input output : list Tweet)
  : Prop :=
  forall t, filter (fun x => key x =? t) output
          = filter (fun x => key x =? t) input.

(** ** What the caller is said to collect *)

Module Collected.

Section Defs.

Variable time_Parse : string -> Time * option error.

(** The parsed creation time of a tweet. *)
Definition created (t : Tweet) : Time := fst (CreatedAtTime time_Parse t).

Definition parses (t : Tweet) : Prop :=
  snd (CreatedAtTime time_Parse t) = None.

(** The latest tweet of [user], with its owner attached, if it was created
    strictly after [since]. *)
Definition fresh_of_user (since : Time) (user : User) : list Tweet :=
  match Status user with
  | Some tweet =>
      if since <? created tweet then [setUser tweet user] else []
  | None => []
  end.

Definition fresh_of_result (since : Time) (r : result) : list Tweet :=
  match r with
  | Failed _ => []
  | Looked apiResult => flat_map (fresh_of_user since) (results apiResult)
  end.

(** The first timestamp among [users] that does not parse. *)
Fixpoint parse_failure (users : list User) : option error :=
  match users with
  | [] => None
  | user :: rest =>
      match Status user with
      | Some tweet =>
          match snd (CreatedAtTime time_Parse tweet) with
          | Some e => Some e
          | None => parse_failure rest
          end
      | None => parse_failure rest
      end
  end.

(** The error a received result makes the caller return, if any: the
    worker's own, or that of a timestamp in its payload. *)
Definition failure (r : result) : option error :=
  match r with
  | Failed e => Some e
  | Looked apiResult => parse_failure (results apiResult)
  end.

(** The rate-limit observation a result carries. *)
Definition observation (r : result) : option rateLimitStatus :=
  match r with
  | Failed _ => None
  | Looked apiResult => rateLimit apiResult
  end.

End Defs.

End Collected.
Import Collected.

(** ** Instances used in the examples *)

Module Examples.

(** Go's [insertionSort(data, 0, n)]: each element in turn moves left past
    the elements it is less than. The prefix already sorted is kept
    reversed, so that its last element is at hand. *)
Fixpoint sink {A : Type} (less : A -> A -> bool) (x : A) (rprefix : list A)
  : list A :=
  match rprefix with
  | [] => [x]
  | y :: r => if less x y then y :: sink less x r else x :: rprefix
  end.

Definition insertionSort {A : Type} (less : A -> A -> bool) (l : list A)
  : list A :=
  rev (fold_left (fun rprefix x => sink less x rprefix) l []).

(** The pass [for i := a + 6; i < b; i++ { if Less(i, i-6) { Swap(i, i-6) } }]
    that Go 1.6 to 1.18 run before the insertion sort of a slice of at most
    12 elements. *)
Definition gap_step {A : Type} (less : A -> A -> bool) (l : list A) (i : nat)
  : list A :=
  match nth_error l i, nth_error l (i - 6) with
  | Some x, Some y => if less x y then swap l i (i - 6) else l
  | _, _ => l
  end.

Definition shellPass {A : Type} (less : A -> A -> bool) (l : list A)
  : list A :=
  fold_left (gap_step less) (seq 6 (length l - 6)) l.

(** [sort.Sort] of Go 1.6 to 1.18 on a slice of at most 12 elements; on a
    longer one it is still a sort. *)
Definition shellSort {A : Type} (less : A -> A -> bool) (l : list A)
  : list A :=
  insertionSort less (shellPass less l).

(** A stand-in for [time.Parse]: a string of decimal digits is a time in
    seconds; anything else is an error, with the zero [time.Time]. *)
Definition zeroTime : Time := -62135596800 * Second.

Definition digit (c : Ascii.ascii) : option Z :=
  let n := Z.of_nat (Ascii.nat_of_ascii c) in
  if (48 <=? n) && (n <=? 57) then Some (n - 48) else None.

Fixpoint digits (s : string) (acc : Z) : option Z :=
  match s with
  | EmptyString => Some acc
  | String c r =>
      match digit c with
      | Some d => digits r (10 * acc + d)
      | None => None
      end
  end.

Definition parse_seconds (s : string) : Time * option error :=
  match s with
  | EmptyString => (zeroTime, Some "cannot parse"%string)
  | _ =>
      match digits s 0 with
      | Some n => (n * Second, None)
      | None => (zeroTime, Some "cannot parse"%string)
      end
  end.

(** A stand-in for [math/rand]: a linear congruential source. *)
Definition lcg_Intn (g : N) (n : nat) : nat * N :=
  (N.to_nat ((g / 65536) mod N.of_nat n),
   (g * 1103515245 + 12345) mod 2147483648)%N.

Definition tweet (created text : string) : Tweet :=
  mkTweet ""%string created text (mkUser 0 ""%string None).

Definition user (id : Z) (created text : string) : User :=
  mkUser id ""%string (Some (tweet created text)).

(** The answer of the test server: three followers, whose latest tweets
    were created at 700, 520 and 880 seconds. *)
Definition three_users : apiResult :=
  mkApiResult (Some (mkRateLimit 10 15 1900))
    [user 100 "700" "foo"; user 200 "520" "bar"; user 300 "880" "baz"].

(** 150 followers, so two batches; the second batch holds a tweet created
    exactly at 640 seconds and a follower who never tweeted. *)
Definition two_batches : list Z := map Z.of_nat (seq 1 150).

Definition second_users : apiResult :=
  mkApiResult (Some (mkRateLimit 10 14 1900))
    [user 101 "640" "qux"; user 102 "810" "quux"; mkUser 103 ""%string None].

Definition lookup_two (batch : list Z) : result :=
  match batch with
  | 1 :: _ => Looked three_users
  | 101 :: _ => Looked second_users
  | _ => Failed "lookup failed"%string
  end.

(** The same, with the lookup of the first batch failing. *)
Definition lookup_failing (batch : list Z) : result :=
  match batch with
  | 1 :: _ => Failed "lookup failed"%string
  | _ => Looked second_users
  end.

(** Seven followers; the first two tweeted at the same second. *)
Definition seven_users : apiResult :=
  mkApiResult None
    [user 1 "2" "a"; user 2 "2" "b"; user 3 "3" "c"; user 4 "3" "d";
     user 5 "3" "e"; user 6 "3" "f"; user 7 "1" "g"].

End Examples.

(** ** The sort interface of [timeline], by index *)

Module Timeline.

Section Defs.

Variable time_Parse : string -> Time * option error.

(** [t.Len()] *)
Definition Len (t : timeline) : nat := length t.

(** [t.Less(i, j)]; [None] is the panic of an index out of range. *)
Definition Less (t : timeline) (i j : nat) : option bool :=
  match nth_error t i, nth_error t j with
  | Some a, Some b => Some (Fetcher.Less time_Parse a b)
  | _, _ => None
  end.

(** [t.Swap(i, j)], with the same panic. *)
Definition Swap (t : timeline) (i j : nat) : option timeline :=
  match nth_error t i, nth_error t j with
  | Some _, Some _ => Some (swap t i j)
  | _, _ => None
  end.

End Defs.

End Timeline.

(** ** The end of a round of [Run]: the division and the sleep *)

Module Sleep.

(** Integer division; dividing by zero panics ([None]). *)
Definition div_checked (a b : Z) : option Z :=
  if b =? 0 then None else Some (Z.quot a b).

(** [Run_wait] with the panics of its two divisions. *)
Definition Run_wait_checked (latest cur : rateLimitStatus) (now : Z)
  : option Z :=
  let maxWait := 10 in
  let diff := Remaining latest - Remaining cur in
  if 0 <? diff then
    match div_checked (Remaining cur) diff with
    | None => None
    | Some num =>
        let num := if num =? 0 then num + 1 else num in
        match div_checked (int64_sub (Reset cur) now) num with
        | None => None
        | Some wait => Some (if maxWait <? wait then wait else maxWait)
        end
    end
  else Some maxWait.

(** [time.Second * time.Duration(maxWait)], an [int64] product. *)
Definition tick_duration (maxWait : Z) : Duration :=
  int64_wrap (Second * maxWait).

(** [<-time.Tick(d)]: [time.Tick] returns a nil channel when [d <= 0], and
    a receive from it never returns. *)
Inductive tick : Type :=
| Ticks (after : Duration)
| Never.

Definition time_Tick (d : Duration) : tick :=
  if d <=? 0 then Never else Ticks d.

End Sleep.

(** ** [Run], from its start *)

Module Scheduler.

Section Defs.

Variable time_Parse : string -> Time * option error.
Variable sort_Sort : (Tweet -> Tweet -> bool) -> list Tweet -> list Tweet.

(** The statements of [Run] before its loop. [probe] is the answer of
    [rateLimitStatus], with the map [Users] as a partial function (a key
    that is missing reads as the zero value); [now] is [time.Now()]. *)
Definition Run_start (probe : error + (string -> option rateLimitStatus))
  (now : Time) : error + botState :=
  match probe with
  | inl err => inl err
  | inr Users =>
      let latestRateLimit :=
        match Users "/users/lookup"%string with
        | Some r => r
        | None => zero
        end in
      let latestCreatedAt := Add now (-15 * Minute) in
      inr (mkBot latestRateLimit latestCreatedAt)
  end.

(** [Run], over the rounds the world offers. *)
Definition Run (mentioner : option (Tweet -> option string))
  (probe : error + (string -> option rateLimitStatus)) (now : Time)
  (ws : list round) : list botState * option roundResult :=
  match Run_start probe now with
  | inl err => ([], Some (Stopped err))
  | inr st => Run_loop time_Parse sort_Sort mentioner st ws
  end.

(** The mentions a timeline gives rise to, oldest tweet first: the
    answers of the mentioner that are not nil. *)
Definition mention_log (mentioner : option (Tweet -> option string))
  (tl : timeline) : list string :=
  match mentioner with
  | None => []
  | Some Mention =>
      flat_map (fun tweet => match Mention tweet with
                             | Some mention => [mention]
                             | None => []
                             end) tl
  end.

(** The first timestamp of a timeline that does not parse. *)
Definition first_unparsed (tl : timeline) : option error :=
  match find (fun t => match snd (CreatedAtTime time_Parse t) with
                       | Some _ => true
                       | None => false
                       end) tl with
  | Some t => snd (CreatedAtTime time_Parse t)
  | None => None
  end.

End Defs.

End Scheduler.

(** ** More instances for the examples *)

Module MoreExamples.

(** A later answer of the lookup: one tweet created at second 880 and one
    at second 945. *)
Definition later_users : apiResult :=
  mkApiResult (Some (mkRateLimit 10 13 1900))
    [Examples.user 300 "880" "baz"; Examples.user 400 "945" "new"].

Definition first_round : round :=
  mkRound (inr [100; 200; 300]) (fun _ => Looked Examples.three_users)
          [0%nat] 1000.

Definition second_round : round :=
  mkRound (inr [300; 400]) (fun _ => Looked later_users) [0%nat] 1900.

End MoreExamples.

(** ** The identifier store: the array it shares and the draws of the
    shuffle *)

Module Picks.

(** [pickIds] returns [store.ids[0:maxNum]], a slice of the array of the
    store itself: what a slice of length [len] that it returned holds when
    the store has become [store]. *)
Definition held (len : nat) (store : IdsStore.idsStore) : list Z :=
  slice (IdsStore.ids store) 0 len.

Section Draws.

Variable rng : Type.
Variable Intn : rng -> nat -> nat * rng.

(** The values of [j] in the loop of [pickIds], in the order they are
    drawn, by the number [k = i + 1] of iterations still to run. *)
Fixpoint draws (k : nat) (g : rng) : list nat :=
  match k with
  | O => []
  | S i => let (j, g') := Intn g (i + 1) in j :: draws i g'
  end.

End Draws.

(** A source that hands out the numbers of a list, each reduced into the
    range asked for. *)
Definition scripted_Intn (g : list nat) (n : nat) : nat * list nat :=
  match g with
  | [] => (0%nat, [])
  | j :: r => ((j mod n)%nat, r)
  end.

End Picks.

(** ** The goroutines: what is left for them to do *)

Module Progress.

Definition is_sending (w : Pool.worker) : bool :=
  match w with Pool.Sending _ => true | _ => false end.

(** The steps a worker takes at most before it is back at [range in] or
    gone: a lookup that returns, then a send or the cancellation. *)
Definition weight (w : Pool.worker) : nat :=
  match w with
  | Pool.Idle => 1
  | Pool.Calling _ => 3
  | Pool.Sending _ => 2
  | Pool.Exited => 0
  end.

(** A bound on the steps all the goroutines can still take: three for
    each batch not yet sent (its receive, its lookup, its result), those of
    the workers, and one each for [close(in)], [close(out)] and the return
    of the caller. *)
Definition fuel (s : Pool.state) : nat :=
  (3 * length (Pool.pending s)
   + (if Pool.in_closed s then 0 else 1)
   + list_sum (map weight (Pool.workers s))
   + (if Pool.out_closed s then 0 else 1)
   + match Pool.main s with Pool.Draining _ _ => 1 | Pool.Returned _ => 0 end
  )%nat.

Section Defs.

Variable time_Parse : string -> Time * option error.

(** What holds once the caller has returned: [cancel] is closed; without
    an error every goroutine has finished and both channels are closed;
    with an error, the error is that of the last result received, the only
    one that failed. *)
Definition returned_well (s : Pool.state) : Prop :=
  forall o, Pool.main s = Pool.Returned o ->
    Pool.cancel_closed s = true /\
    match snd o with
    | None =>
        forallb Pool.is_exited (Pool.workers s) = true /\
        Pool.in_closed s = true /\ Pool.out_closed s = true /\
        Pool.pending s = [] /\ Pool.late_calls s = 0%nat
    | Some e =>
        o = ([], None, Some e) /\
        exists pre r,
          Pool.received s = pre ++ [r] /\
          Forall (fun r => failure time_Parse r = None) pre /\
          failure time_Parse r = Some e
    end.

End Defs.

End Progress.

(** ** Schedules for the examples *)

Module Schedules.

(** 601 followers: seven batches. *)
Definition seven_batches : list Z := map Z.of_nat (seq 1 601).

(** One batch, looked up and delivered; then every goroutine finishes. *)
Definition one_batch_to_the_end : list Pool.action :=
  [Pool.Dispatch 0; Pool.CloseIn; Pool.CallReturns 0; Pool.Deliver 0;
   Pool.LeaveLoop 0; Pool.LeaveLoop 1; Pool.LeaveLoop 2; Pool.LeaveLoop 3;
   Pool.LeaveLoop 4; Pool.CloseOut; Pool.Finish].

(** The first lookup fails and the caller returns; each worker then takes
    one more batch, looks it up and leaves at the cancellation. *)
Definition fail_then_drain : list Pool.action :=
  [Pool.Dispatch 0; Pool.CallReturns 0; Pool.Deliver 0;
   Pool.Dispatch 0; Pool.CallReturns 0; Pool.Cancelled 0;
   Pool.Dispatch 1; Pool.CallReturns 1; Pool.Cancelled 1;
   Pool.Dispatch 2; Pool.CallReturns 2; Pool.Cancelled 2;
   Pool.Dispatch 3; Pool.CallReturns 3; Pool.Cancelled 3;
   Pool.Dispatch 4; Pool.CallReturns 4; Pool.Cancelled 4].

End Schedules.

(** * Properties *)

(** ** The rate-limit model and the wait *)

Lemma int64_wrap_id z : is_int64 z -> int64_wrap z = z.
Proof.
  unfold is_int64, int64_wrap. intros H.
  rewrite Z.mod_small; lia.
Qed.

Lemma merge_idem a : merge a a = a.
Proof. unfold merge. destruct (replaces a a); reflexivity. Qed.

Lemma replaces_irrefl a : replaces a a = false.
Proof.
  unfold replaces. rewrite !Z.ltb_irrefl. reflexivity.
Qed.

Lemma replaces_neither a b :
  replaces a b = false -> replaces b a = false ->
  Reset a = Reset b /\ Remaining a = Remaining b.
Proof.
  unfold replaces. rewrite !orb_false_iff, !Z.ltb_ge. lia.
Qed.

(** C2, as stated, fails: with [a] the observation of the later window and
    [b] the one with fewer calls left, each replaces the other, so the merge
    returns whichever came second. *)
Lemma merge_not_commutative :
  let a := mkRateLimit 180 170 1700000900 in
  let b := mkRateLimit 180 160 1700000000 in
  merge a a = a /\ merge a b = b /\ merge b a = a /\ merge a b <> merge b a.
Proof.
  cbv zeta. repeat split; try reflexivity. discriminate.
Qed.

(** C2 (amended): the merge is idempotent, and [merge a b = merge b a] holds
    exactly when the two observations are equal or exactly one of them
    replaces the other (later reset or fewer remaining calls). *)
Theorem merge_idempotent_commutes_iff :
  (forall a, merge a a = a) /\
  (forall a b,
     merge a b = merge b a <-> (a = b \/ replaces a b <> replaces b a)).
Proof.
  split; [exact merge_idem|].
  intros a b. unfold merge.
  destruct (replaces b a) eqn:Hba, (replaces a b) eqn:Hab; split; intros H.
  - left. symmetry. exact H.
  - destruct H as [H|H]; [now subst | congruence].
  - right. discriminate.
  - reflexivity.
  - right. discriminate.
  - reflexivity.
  - left. exact H.
  - destruct H as [H|H]; [now subst | congruence].
Qed.



(** ** The batch producer *)

Lemma producer_body (ids : list Z) (m : nat) :
  producer ids m =
    if lt_dec (batch_end ids m - m) 1 then []
    else slice ids m (batch_end ids m) :: producer ids (m + 100).
Proof.
  rewrite producer_equation_1. simpl.
  destruct (lt_dec (batch_end ids m - m) 1); reflexivity.
Qed.

Lemma batch_end_spec (ids : list Z) (m : nat) :
  batch_end ids m = Nat.min (m + 100) (length ids).
Proof.
  unfold batch_end. destruct (Nat.ltb_spec (length ids) (m + 100)); lia.
Qed.

(** Past the end of the slice the loop breaks at once. *)
Lemma producer_done (ids : list Z) (m : nat) :
  (length ids <= m)%nat -> producer ids m = [].
Proof.
  intros H. rewrite producer_body, batch_end_spec.
  destruct (lt_dec _ 1); [reflexivity | lia].
Qed.

(** Before the end it sends one batch and goes on 100 further. *)
Lemma producer_more (ids : list Z) (m : nat) :
  (m < length ids)%nat ->
  producer ids m =
    firstn (Nat.min 100 (length ids - m)) (skipn m ids)
      :: producer ids (m + 100).
Proof.
  intros H. rewrite producer_body, batch_end_spec.
  destruct (lt_dec _ 1); [lia|].
  unfold slice. do 2 f_equal. lia.
Qed.

(** Induction on the part of the slice that is still to be sent. *)
Lemma producer_ind (ids : list Z) (P : nat -> Prop) :
  (forall m, (length ids <= m)%nat -> P m) ->
  (forall m, (m < length ids)%nat -> P (m + 100)%nat -> P m) ->
  forall m, P m.
Proof.
  intros Hdone Hmore m.
  remember (length ids - m)%nat as k eqn:Hk.
  revert m Hk. induction k as [k IH] using lt_wf_ind. intros m Hk.
  destruct (le_lt_dec (length ids) m) as [Hle|Hlt].
  - apply Hdone, Hle.
  - apply Hmore; [exact Hlt|].
    apply (IH (length ids - (m + 100))%nat); [lia | reflexivity].
Qed.

Lemma producer_concat (ids : list Z) (m : nat) :
  concat (producer ids m) = skipn m ids.
Proof.
  induction m as [m Hle | m Hlt IH] using (producer_ind ids).
  - rewrite producer_done by exact Hle.
    rewrite skipn_all2 by exact Hle. reflexivity.
  - rewrite producer_more by exact Hlt. cbn [concat]. rewrite IH.
    destruct (le_lt_dec 100 (length ids - m)) as [Hfull|Hpart].
    + rewrite Nat.min_l by exact Hfull.
      replace (m + 100)%nat with (100 + m)%nat by lia.
      rewrite <- skipn_skipn. apply firstn_skipn.
    + rewrite Nat.min_r by lia.
      rewrite (skipn_all2 (n := (m + 100)%nat) ids) by lia.
      rewrite app_nil_r.
      apply firstn_all2. rewrite length_skipn. lia.
Qed.

Lemma ceil_step (k : nat) : (0 < k)%nat ->
  ((k + 99) / 100 = S ((k - 100 + 99) / 100))%nat.
Proof.
  intros Hk. destruct (le_lt_dec 100 k) as [Hfull|Hpart].
  - replace (k + 99)%nat with (k - 100 + 99 + 1 * 100)%nat by lia.
    rewrite Nat.div_add by lia. lia.
  - replace (k - 100 + 99)%nat with 99%nat by lia.
    rewrite (Nat.div_small 99 100) by lia.
    symmetry. apply (Nat.div_unique (k + 99) 100 1 (k - 1)); lia.
Qed.

Lemma producer_length (ids : list Z) (m : nat) :
  length (producer ids m) = ((length ids - m + 99) / 100)%nat.
Proof.
  induction m as [m Hle | m Hlt IH] using (producer_ind ids).
  - rewrite producer_done by exact Hle.
    replace (length ids - m)%nat with 0%nat by lia. reflexivity.
  - rewrite producer_more by exact Hlt. cbn [length]. rewrite IH.
    rewrite (ceil_step (length ids - m)) by lia.
    do 3 f_equal. lia.
Qed.

Lemma producer_sizes (ids : list Z) (m : nat) :
  Forall (fun b => (1 <= length b <= 100)%nat) (producer ids m).
Proof.
  induction m as [m Hle | m Hlt IH] using (producer_ind ids).
  - rewrite producer_done by exact Hle. constructor.
  - rewrite producer_more by exact Hlt. constructor; [|exact IH].
    rewrite length_firstn, length_skipn. lia.
Qed.

Lemma last_size_step (k : nat) : (100 < k)%nat ->
  (if ((k - 100) mod 100 =? 0)%nat then 100%nat else ((k - 100) mod 100)%nat)
  = (if (k mod 100 =? 0)%nat then 100%nat else (k mod 100)%nat).
Proof.
  intros Hk.
  replace (k mod 100)%nat with ((k - 100) mod 100)%nat; [reflexivity|].
  replace k with (k - 100 + 1 * 100)%nat at 2 by lia.
  rewrite Nat.Div0.mod_add. reflexivity.
Qed.

Lemma producer_last (ids : list Z) (m : nat) :
  (m < length ids)%nat ->
  length (last (producer ids m) []) =
    let r := ((length ids - m) mod 100)%nat in
    if (r =? 0)%nat then 100%nat else r.
Proof.
  induction m as [m Hle | m Hlt IH] using (producer_ind ids); [lia|].
  intros _. rewrite producer_more by exact Hlt. cbv zeta.
  destruct (le_lt_dec (length ids) (m + 100)) as [Hend|Hgo].
  - rewrite (producer_done ids (m + 100)) by exact Hend. cbn [last].
    rewrite length_firstn, length_skipn.
    destruct (Nat.eq_dec (length ids - m) 100) as [E|E].
    + rewrite E. reflexivity.
    + rewrite Nat.mod_small by lia.
      destruct (Nat.eqb_spec (length ids - m) 0); lia.
  - specialize (IH Hgo). cbv zeta in IH.
    rewrite (producer_more ids (m + 100)) in * by exact Hgo.
    change (last (?a :: ?b :: ?l) []) with (last (b :: l) []).
    rewrite IH.
    replace (length ids - (m + 100))%nat with (length ids - m - 100)%nat
      by lia.
    apply last_size_step. lia.
Qed.

(** C5: the producer sends ceil(N/100) batches, none empty and none longer
    than 100, the last of size N mod 100 (100 when that is 0), and the
    batches one after the other are the identifiers in their order. *)
Theorem producer_batches (ids : list Z) :
  let N := length ids in
  let batches := producer ids 0 in
  length batches = ((N + 99) / 100)%nat /\
  length batches =
    (N / 100 + if (N mod 100 =? 0)%nat then 0 else 1)%nat /\
  Forall (fun b => (1 <= length b <= 100)%nat) batches /\
  length (last batches []) =
    (if (N =? 0)%nat then 0%nat
     else if (N mod 100 =? 0)%nat then 100%nat else (N mod 100)%nat) /\
  concat batches = ids.
Proof.
  cbv zeta.
  assert (Hlen : length (producer ids 0) = ((length ids + 99) / 100)%nat).
  { rewrite producer_length. f_equal. lia. }
  split; [exact Hlen|]. split; [|split; [|split]].
  - rewrite Hlen.
    pose proof (Nat.div_mod_eq (length ids) 100) as Hdm.
    pose proof (Nat.mod_upper_bound (length ids) 100 ltac:(lia)) as Hub.
    destruct (Nat.eqb_spec (length ids mod 100) 0) as [E|E].
    + symmetry. rewrite Nat.add_0_r.
      apply (Nat.div_unique (length ids + 99) 100 _ 99); lia.
    + symmetry.
      apply (Nat.div_unique (length ids + 99) 100 _
               (length ids mod 100 - 1)); lia.
  - apply producer_sizes.
  - destruct (Nat.eqb_spec (length ids) 0) as [E|E].
    + rewrite producer_done by lia. reflexivity.
    + rewrite producer_last by lia. cbv zeta.
      rewrite Nat.sub_0_r. reflexivity.
  - rewrite producer_concat. reflexivity.
Qed.

(** ** Slices and the identifier store *)

Lemma upd_length {A : Type} (a : list A) (i : nat) (v : A) :
  length (upd a i v) = length a.
Proof.
  revert i. induction a as [|x a IH]; intros [|i]; simpl; auto.
Qed.

Lemma upd_nth_error_same {A : Type} (a : list A) (i : nat) (v : A) :
  (i < length a)%nat -> nth_error (upd a i v) i = Some v.
Proof.
  revert i. induction a as [|x a IH]; intros [|i] H; simpl in *;
    try lia; [reflexivity | apply IH; lia].
Qed.

Lemma upd_nth_error_other {A : Type} (a : list A) (i j : nat) (v : A) :
  i <> j -> nth_error (upd a i v) j = nth_error a j.
Proof.
  revert i j. induction a as [|x a IH]; intros [|i] [|j] H; simpl;
    try reflexivity; try congruence.
  apply IH. congruence.
Qed.

(** Writing [v] over [x] trades one for the other. *)
Lemma upd_Permutation {A : Type} (a : list A) (i : nat) (x v : A) :
  nth_error a i = Some x -> Permutation (x :: upd a i v) (v :: a).
Proof.
  revert i. induction a as [|y a IH]; intros [|i] H; simpl in *;
    try discriminate.
  - injection H as ->. apply perm_swap.
  - rewrite perm_swap. rewrite (IH i H). apply perm_swap.
Qed.

Lemma swap_Permutation {A : Type} (a : list A) (i j : nat) :
  Permutation (swap a i j) a.
Proof.
  unfold swap.
  destruct (nth_error a i) as [x|] eqn:Hi; [|reflexivity].
  destruct (nth_error a j) as [y|] eqn:Hj; [|reflexivity].
  assert (Hlt : (i < length a)%nat)
    by (apply nth_error_Some; congruence).
  assert (Hj' : nth_error (upd a i y) j = Some y).
  { destruct (Nat.eq_dec i j) as [->|Hne].
    - apply upd_nth_error_same, Hlt.
    - rewrite upd_nth_error_other by exact Hne. exact Hj. }
  apply (Permutation_cons_inv (a := y)).
  rewrite (upd_Permutation _ _ _ x Hj').
  apply (upd_Permutation _ _ _ y Hi).
Qed.

Lemma swap_length {A : Type} (a : list A) (i j : nat) :
  length (swap a i j) = length a.
Proof. apply Permutation_length, swap_Permutation. Qed.

Section ShuffleProofs.

Variable rng : Type.
Variable Intn : rng -> nat -> nat * rng.
Hypothesis Intn_ok : IdsStore.Intn_in_range rng Intn.

Local Abbreviation shuffle := (IdsStore.shuffle rng Intn).
Local Abbreviation pickIds := (IdsStore.pickIds rng Intn).

(** With indices drawn in range no swap of the loop panics, and the loop
    permutes the array. *)
Lemma shuffle_ok (k : nat) :
  forall g a, (k <= length a)%nat ->
  exists a' g', shuffle k g a = Some (a', g') /\ Permutation a' a.
Proof.
  induction k as [|i IH]; intros g a Hk.
  - exists a, g. split; reflexivity.
  - simpl. pose proof (Intn_ok g (i + 1)%nat ltac:(lia)) as Hj.
    destruct (Intn g (i + 1)) as [j g']. simpl in Hj.
    destruct (Nat.ltb_spec i (length a)); [|lia].
    destruct (Nat.ltb_spec j (length a)); [|lia]. simpl.
    destruct (IH g' (swap a i j)) as (a' & g'' & He & Hp).
    { rewrite swap_length. lia. }
    exists a', g''. split; [exact He|].
    rewrite Hp. apply swap_Permutation.
Qed.

(** C8: [pickIds] returns nothing once the store has expired; before that
    it shuffles the stored identifiers in place and returns the first
    min(n, 1000) of them. [setIds] with a zero duration sets the expiry
    15 minutes ahead. *)
Theorem pickIds_setIds_spec (now : Time) (g : rng)
  (store : IdsStore.idsStore) :
  let n := length (IdsStore.ids store) in
  (exists picked g' store',
     pickIds now g store = Some (picked, g', store') /\
     if IdsStore.expires store <? now
     then picked = [] /\ store' = store
     else Permutation (IdsStore.ids store') (IdsStore.ids store) /\
          picked = firstn (Nat.min n 1000) (IdsStore.ids store') /\
          length picked = Nat.min n 1000 /\
          IdsStore.expires store' = IdsStore.expires store) /\
  (forall new_ids,
     IdsStore.setIds now store new_ids 0 =
       IdsStore.mkStore (now + 900 * Second) new_ids).
Proof.
  cbv zeta. split; [|reflexivity].
  unfold IdsStore.pickIds, After.
  destruct (IdsStore.expires store <? now) eqn:Hexp.
  - exists [], g, store. repeat split.
  - destruct (shuffle_ok (length (IdsStore.ids store)) g
                (IdsStore.ids store) (le_n _)) as (a & g' & He & Hp).
    rewrite He.
    pose proof (Permutation_length Hp) as Hlen.
    set (maxNum := if (length a <? 1000)%nat then length a else 1000%nat).
    assert (Hmax : maxNum = Nat.min (length (IdsStore.ids store)) 1000).
    { unfold maxNum. destruct (Nat.ltb_spec (length a) 1000); lia. }
    exists (slice a 0 maxNum), g', (IdsStore.mkStore (IdsStore.expires store) a).
    split; [reflexivity|]. simpl.
    unfold slice. rewrite Nat.sub_0_r. simpl skipn. rewrite Hmax.
    repeat split; [exact Hp|].
    rewrite length_firstn. lia.
Qed.

End ShuffleProofs.

Lemma lcg_Intn_in_range : IdsStore.Intn_in_range N Examples.lcg_Intn.
Proof.
  intros g n Hn. unfold Examples.lcg_Intn. simpl.
  assert (H : (((g / 65536) mod N.of_nat n) < N.of_nat n)%N)
    by (apply N.mod_upper_bound; lia).
  lia.
Qed.

Lemma pickIds_setIds_spec_witness :
  exists picked g' store',
    IdsStore.pickIds N Examples.lcg_Intn 5 4242%N
      (IdsStore.mkStore 10 [1; 2; 3; 4; 5; 6]) = Some (picked, g', store') /\
    Permutation (IdsStore.ids store') [1; 2; 3; 4; 5; 6] /\
    length picked = 6%nat.
Proof.
  destruct (proj1 (pickIds_setIds_spec N Examples.lcg_Intn lcg_Intn_in_range
                     5 4242%N (IdsStore.mkStore 10 [1; 2; 3; 4; 5; 6])))
    as (picked & g' & store' & He & Hp & _ & Hl & _).
  exists picked, g', store'. repeat split; assumption.
Defined.

(** ** The fetcher *)

Lemma Sorted_weaken {A : Type} (R R' : A -> A -> Prop) (l : list A) :
  (forall a b, R a b -> R' a b) -> Sorted R l -> Sorted R' l.
Proof.
  intros HR H. induction H as [|a l Hs IH Hh]; constructor; [exact IH|].
  destruct Hh; constructor. auto.
Qed.

Lemma map_nth_seq {A : Type} (l : list A) (d : A) :
  map (fun k => nth k l d) (seq 0 (length l)) = l.
Proof.
  induction l as [|x l IH]; [reflexivity|].
  cbn [length seq map nth]. f_equal.
  rewrite <- seq_shift, map_map. exact IH.
Qed.

Lemma last_In {A : Type} (l : list A) (d : A) : l <> [] -> In (last l d) l.
Proof.
  induction l as [|x [|y l] IH]; intros H.
  - contradiction.
  - left. reflexivity.
  - right. apply IH. discriminate.
Qed.

Section FetcherProofs.

Variable time_Parse : string -> Time * option error.
Variable sort_Sort : (Tweet -> Tweet -> bool) -> list Tweet -> list Tweet.
Hypothesis sort_ok : sort_contract sort_Sort.

Local Abbreviation CreatedAtTime := (CreatedAtTime time_Parse).
Local Abbreviation Less := (Less time_Parse).
Local Abbreviation scan := (scan time_Parse).
Local Abbreviation receive := (receive time_Parse).
Local Abbreviation collect := (collect time_Parse).
Local Abbreviation sort_deferred := (sort_deferred time_Parse sort_Sort).
Local Abbreviation followersTimeline :=
  (followersTimeline time_Parse sort_Sort).
Local Abbreviation followersTimeline_full :=
  (followersTimeline_full time_Parse sort_Sort).
Local Abbreviation created := (created time_Parse).
Local Abbreviation parses := (parses time_Parse).
Local Abbreviation fresh_of_user := (fresh_of_user time_Parse).
Local Abbreviation fresh_of_result := (fresh_of_result time_Parse).
Local Abbreviation parse_failure := (parse_failure time_Parse).
Local Abbreviation failure := (failure time_Parse).

(** *** The comparison of the sort *)

Lemma Less_created (a b : Tweet) : Less a b = (created a <? created b).
Proof.
  unfold Fetcher.Less, Collected.created, Before.
  destruct (CreatedAtTime a), (CreatedAtTime b). reflexivity.
Qed.

Lemma Less_swo : StrictWeakOrder Less.
Proof.
  split.
  - intros a. rewrite Less_created. apply Z.ltb_irrefl.
  - intros a b c. rewrite !Less_created, !Z.ltb_lt. lia.
  - intros a b c. rewrite !Less_created, !Z.ltb_ge. lia.
Qed.

Lemma created_setUser (t : Tweet) (u : User) :
  created (setUser t u) = created t.
Proof. reflexivity. Qed.

Lemma parses_setUser (t : Tweet) (u : User) :
  parses (setUser t u) <-> parses t.
Proof. reflexivity. Qed.

(** *** The loop over the users of one result *)

Lemma scan_spec (since : Time) (users : list User) :
  forall tl,
    scan since users tl =
      match parse_failure users with
      | Some e => inl e
      | None => inr (tl ++ flat_map (fresh_of_user since) users)
      end.
Proof.
  induction users as [|user rest IH]; intros tl; simpl.
  - rewrite app_nil_r. reflexivity.
  - unfold Collected.fresh_of_user at 1.
    destruct (Status user) as [tweet|]; [|apply IH].
    unfold Collected.created.
    destruct (CreatedAtTime tweet) as [t [e|]]; simpl; [reflexivity|].
    unfold After. destruct (since <? t).
    + rewrite IH. destruct (parse_failure rest); [reflexivity|].
      rewrite <- app_assoc. reflexivity.
    + apply IH.
Qed.

Lemma receive_spec (since : Time) (tl : timeline) (rl : rateLimitStatus)
  (r : result) :
  receive since tl rl r =
    match failure r with
    | Some e => inl e
    | None => inr (tl ++ fresh_of_result since r,
                   observe rl (observation r))
    end.
Proof.
  destruct r as [e|ar]; simpl; [reflexivity|].
  rewrite scan_spec. destruct (parse_failure (results ar)); reflexivity.
Qed.

(** *** The loop over the results *)

Lemma collect_all (since : Time) (out : list result) :
  Forall (fun r => failure r = None) out ->
  forall tl rl,
    collect since out tl rl =
      ((tl ++ flat_map (fresh_of_result since) out,
        Some (fold_left (fun acc r => observe acc (observation r)) out rl),
        None), []).
Proof.
  induction 1 as [|r out Hr _ IH]; intros tl rl; simpl.
  - rewrite app_nil_r. reflexivity.
  - rewrite receive_spec, Hr, IH, <- app_assoc. reflexivity.
Qed.

Lemma collect_first_failure (since : Time) (pre post : list result)
  (r : result) (e : error) :
  Forall (fun r => failure r = None) pre -> failure r = Some e ->
  forall tl rl,
    collect since (pre ++ r :: post) tl rl = (([], None, Some e), post).
Proof.
  intros Hpre Hr. induction Hpre as [|p pre Hp _ IH]; intros tl rl; simpl.
  - rewrite receive_spec, Hr. reflexivity.
  - rewrite receive_spec, Hp. apply IH.
Qed.

(** A list of results either has no failure or splits at its first. *)
Lemma first_failure_split (out : list result) :
  Forall (fun r => failure r = None) out \/
  exists pre r post e,
    out = pre ++ r :: post /\
    Forall (fun r => failure r = None) pre /\ failure r = Some e.
Proof.
  induction out as [|r out IH]; [left; constructor|].
  destruct (failure r) as [e|] eqn:Hr.
  - right. exists [], r, out, e. repeat split; [constructor | exact Hr].
  - destruct IH as [IH | (pre & r' & post & e & -> & Hpre & Hr')].
    + left. constructor; assumption.
    + right. exists (r :: pre), r', post, e.
      repeat split; [constructor; assumption | exact Hr'].
Qed.

Lemma collect_success (since : Time) (out : list result) tl rl tl' rl' u :
  collect since out tl rl = ((tl', rl', None), u) ->
  Forall (fun r => failure r = None) out.
Proof.
  intros H.
  destruct (first_failure_split out)
    as [Hall | (pre & r & post & e & -> & Hpre & Hr)]; [exact Hall|].
  rewrite (collect_first_failure since pre post r e Hpre Hr) in H.
  discriminate.
Qed.

(** *** What was collected *)

Lemma fresh_of_user_In (since : Time) (user : User) (t : Tweet) :
  In t (fresh_of_user since user) <->
  exists tweet, Status user = Some tweet /\ since < created tweet /\
                t = setUser tweet user.
Proof.
  unfold Collected.fresh_of_user.
  destruct (Status user) as [tweet|].
  - destruct (Z.ltb_spec since (created tweet)); simpl; split.
    + intros [<-|[]]. exists tweet. auto.
    + intros (tw & [= <-] & _ & ->). left. reflexivity.
    + intros [].
    + intros (tw & [= <-] & Hlt & _). lia.
  - simpl. split; [intros [] | intros (tw & [=] & _)].
Qed.

Lemma fresh_of_result_In (since : Time) (r : result) (t : Tweet) :
  In t (fresh_of_result since r) <->
  exists apiResult user tweet,
    r = Looked apiResult /\ In user (results apiResult) /\
    Status user = Some tweet /\ since < created tweet /\
    t = setUser tweet user.
Proof.
  destruct r as [e|ar]; simpl.
  - split; [intros [] | intros (? & ? & ? & [=] & _)].
  - rewrite in_flat_map. split.
    + intros (user & Hin & Hf). apply fresh_of_user_In in Hf.
      destruct Hf as (tweet & Hs & Hlt & ->).
      exists ar, user, tweet. auto.
    + intros (ar' & user & tweet & [= <-] & Hin & Hs & Hlt & ->).
      exists user. split; [exact Hin|].
      apply fresh_of_user_In. exists tweet. auto.
Qed.

Lemma parse_failure_None (users : list User) :
  parse_failure users = None ->
  forall user tweet, In user users -> Status user = Some tweet ->
                     parses tweet.
Proof.
  induction users as [|u rest IH]; intros H user tweet [] Hs; simpl in H.
  - subst u. rewrite Hs in H. unfold Collected.parses.
    destruct (snd (CreatedAtTime tweet)); [discriminate | reflexivity].
  - apply (IH ltac:(destruct (Status u) as [tw|];
                      [destruct (snd (CreatedAtTime tw));
                         [discriminate | exact H] | exact H])
              user tweet); assumption.
Qed.

Lemma fresh_of_result_parses (since : Time) (r : result) :
  failure r = None -> Forall parses (fresh_of_result since r).
Proof.
  intros Hr. apply Forall_forall. intros t Ht.
  apply fresh_of_result_In in Ht.
  destruct Ht as (ar & user & tweet & -> & Hin & Hs & _ & ->).
  apply parses_setUser. exact (parse_failure_None _ Hr user tweet Hin Hs).
Qed.


(** *** The deferred sort *)

Lemma sort_deferred_keeps (o : outcome) :
  snd (fst (sort_deferred o)) = snd (fst o) /\
  snd (sort_deferred o) = snd o.
Proof. destruct o as [[[|t tl] rl] err]; split; reflexivity. Qed.

Lemma sort_deferred_spec (tl : timeline) rl err :
  exists tl',
    sort_deferred (tl, rl, err) = (tl', rl, err) /\
    Permutation tl' tl /\
    StronglySorted (fun a b => created a <= created b) tl'.
Proof.
  destruct tl as [|t tl].
  - exists []. repeat split; constructor.
  - exists (sort_Sort Less (t :: tl)).
    destruct (sort_ok Less (t :: tl) Less_swo) as [Hp Hs].
    repeat split; [exact Hp|].
    apply Sorted_StronglySorted.
    + intros a b c. apply Z.le_trans.
    + revert Hs. apply Sorted_weaken. intros a b.
      rewrite Less_created, Z.ltb_ge. auto.
Qed.

(** *** A call that succeeds *)

Lemma followersTimeline_rateLimit idsResults lookup order since tl rl :
  followersTimeline idsResults lookup order since = (tl, rl, None) ->
  exists ids,
    idsResults = inr ids /\
    Forall (fun r => failure r = None)
           (arrivals lookup (producer ids 0) order) /\
    rl = Some (fold_left (fun acc r => observe acc (observation r))
                         (arrivals lookup (producer ids 0) order) zero).
Proof.
  unfold Fetcher.followersTimeline, Fetcher.followersTimeline_full.
  destruct idsResults as [e|ids]; [discriminate|].
  intros H. exists ids. split; [reflexivity|].
  destruct (collect since (arrivals lookup (producer ids 0) order) [] zero)
    as [o unread] eqn:Hc.
  change (sort_deferred o = (tl, rl, None)) in H.
  destruct (sort_deferred_keeps o) as [Hrl Herr].
  rewrite H in Hrl, Herr. destruct o as [[tl0 rl0] err0].
  simpl in Hrl, Herr. subst rl0 err0.
  pose proof (collect_success _ _ _ _ _ _ _ Hc) as Hall.
  rewrite (collect_all since _ Hall) in Hc. injection Hc as _ <-.
  split; [exact Hall | reflexivity].
Qed.

Lemma followersTimeline_success idsResults lookup order since tl rl :
  followersTimeline idsResults lookup order since = (tl, rl, None) ->
  exists ids,
    idsResults = inr ids /\
    let out := arrivals lookup (producer ids 0) order in
    Forall (fun r => failure r = None) out /\
    Permutation tl (flat_map (fresh_of_result since) out) /\
    StronglySorted (fun a b => created a <= created b) tl /\
    rl = Some (fold_left (fun acc r => observe acc (observation r))
                         out zero).
Proof.
  unfold Fetcher.followersTimeline, Fetcher.followersTimeline_full.
  destruct idsResults as [e|ids]; [discriminate|].
  intros H. exists ids. split; [reflexivity|]. cbv zeta.
  set (out := arrivals lookup (producer ids 0) order) in *.
  destruct (collect since out [] zero) as [[[tl0 rl0] err0] unread] eqn:Hc.
  destruct (sort_deferred_spec tl0 rl0 err0) as (tl' & Hs & Hp & Hsorted).
  change (sort_deferred (tl0, rl0, err0) = (tl, rl, None)) in H.
  rewrite Hs in H. injection H as -> -> ->.
  pose proof (collect_success _ _ _ _ _ _ _ Hc) as Hall.
  rewrite (collect_all since out Hall) in Hc. injection Hc as <- <- _.
  repeat split; assumption.
Qed.

Lemma followersTimeline_succeeds ids lookup order since :
  Forall (fun r => failure r = None)
         (arrivals lookup (producer ids 0) order) ->
  exists tl rl,
    followersTimeline (inr ids) lookup order since = (tl, Some rl, None).
Proof.
  intros Hall.
  unfold Fetcher.followersTimeline, Fetcher.followersTimeline_full.
  rewrite (collect_all since _ Hall). cbv beta iota zeta. cbn [fst].
  match goal with |- context [sort_deferred (?t, ?r, ?e)] =>
    destruct (sort_deferred_spec t r e) as (tl' & Hs & _) end.
  do 2 eexists. exact Hs.
Qed.

Lemma arrivals_Permutation lookup (batches : list (list Z)) order :
  Permutation order (seq 0 (length batches)) ->
  Permutation (arrivals lookup batches order) (map lookup batches).
Proof.
  intros Hp. unfold arrivals.
  rewrite (Permutation_map _ Hp).
  rewrite <- (map_map (fun k => nth k batches []) lookup).
  rewrite map_nth_seq. reflexivity.
Qed.

(** C1: a successful call returns exactly the latest tweets created
    strictly after [since], each once, in ascending order of creation
    time, in whatever order the results of the batches arrive. *)
Theorem followersTimeline_fresh_sorted ids lookup order since tl rl
  (Horder : Permutation order (seq 0 (length (producer ids 0))))
  (Hcall : followersTimeline (inr ids) lookup order since
             = (tl, rl, None)) :
  Permutation tl (flat_map (fresh_of_result since)
                           (map lookup (producer ids 0))) /\
  (forall t, In t tl <->
     exists batch apiResult user tweet,
       In batch (producer ids 0) /\ lookup batch = Looked apiResult /\
       In user (results apiResult) /\ Status user = Some tweet /\
       since < created tweet /\ t = setUser tweet user) /\
  Forall (fun t => created t <> since /\ parses t) tl /\
  StronglySorted (fun a b => created a <= created b) tl.
Proof.
  destruct (followersTimeline_success _ _ _ _ _ _ Hcall)
    as (ids' & [= <-] & Hall & Hp & Hs & _).
  pose proof (arrivals_Permutation lookup _ _ Horder) as Harr.
  assert (Hperm : Permutation tl (flat_map (fresh_of_result since)
                                    (map lookup (producer ids 0)))).
  { rewrite Hp. apply Permutation_flat_map, Harr. }
  assert (Hin : forall t, In t tl <->
     exists batch apiResult user tweet,
       In batch (producer ids 0) /\ lookup batch = Looked apiResult /\
       In user (results apiResult) /\ Status user = Some tweet /\
       since < created tweet /\ t = setUser tweet user).
  { intros t. split.
    - intros Ht. apply (Permutation_in _ Hperm) in Ht.
      apply in_flat_map in Ht. destruct Ht as (r & Hr & Ht).
      apply in_map_iff in Hr. destruct Hr as (batch & <- & Hb).
      apply fresh_of_result_In in Ht.
      destruct Ht as (ar & user & tweet & Hl & Hu & Hst & Hlt & ->).
      exists batch, ar, user, tweet. repeat split; assumption.
    - intros (batch & ar & user & tweet & Hb & Hl & Hu & Hst & Hlt & ->).
      apply (Permutation_in _ (Permutation_sym Hperm)).
      apply in_flat_map. exists (lookup batch).
      split; [apply in_map, Hb|].
      apply fresh_of_result_In. exists ar, user, tweet.
      repeat split; assumption. }
  split; [exact Hperm|]. split; [exact Hin|]. split; [|exact Hs].
  apply Forall_forall. intros t Ht.
  pose proof (Permutation_in _ Hp Ht) as Ht'.
  apply in_flat_map in Ht'. destruct Ht' as (r & Hr & Ht').
  rewrite Forall_forall in Hall. specialize (Hall r Hr).
  split.
  - apply Hin in Ht.
    destruct Ht as (_ & _ & user & tweet & _ & _ & _ & _ & Hlt & ->).
    rewrite created_setUser. lia.
  - exact (proj1 (Forall_forall _ _)
             (fresh_of_result_parses since r Hall) t Ht').
Qed.

(** C3 (amended): the sort before returning puts the accumulated timeline
    in ascending order of creation time and keeps its elements; it is
    [sort.Sort], so nothing fixes the order of tweets created at the same
    instant. *)
Theorem final_sort_ascending_permutation ids lookup order since :
  let accumulated :=
    fst (fst (fst (collect since (arrivals lookup (producer ids 0) order)
                           [] zero))) in
  let returned := fst (fst (followersTimeline (inr ids) lookup order since))
  in
  Permutation returned accumulated /\
  StronglySorted (fun a b => created a <= created b) returned /\
  (forall i j a b,
     nth_error returned i = Some a -> nth_error returned j = Some b ->
     created a < created b -> (i < j)%nat).
Proof.
  cbv zeta.
  unfold Fetcher.followersTimeline, Fetcher.followersTimeline_full.
  destruct (collect since (arrivals lookup (producer ids 0) order) [] zero)
    as [[[tl0 rl0] err0] unread].
  destruct (sort_deferred_spec tl0 rl0 err0) as (tl' & Hs & Hp & Hsorted).
  change (fst (fst (fst (tl0, rl0, err0, unread)))) with tl0.
  change (Permutation (fst (fst (sort_deferred (tl0, rl0, err0)))) tl0 /\
          StronglySorted (fun a b => created a <= created b)
            (fst (fst (sort_deferred (tl0, rl0, err0)))) /\
          (forall i j a b,
             nth_error (fst (fst (sort_deferred (tl0, rl0, err0)))) i
               = Some a ->
             nth_error (fst (fst (sort_deferred (tl0, rl0, err0)))) j
               = Some b ->
             created a < created b -> (i < j)%nat)).
  replace (fst (fst (sort_deferred (tl0, rl0, err0)))) with tl'
    by (now rewrite Hs).
  split; [exact Hp|]. split; [exact Hsorted|].
  clear Hs Hp. induction Hsorted as [|x l Hl IH Hx]; intros i j a b Hi Hj Hab.
  - destruct i; discriminate.
  - destruct i as [|i], j as [|j]; simpl in Hi, Hj.
    + injection Hi as <-. injection Hj as <-. lia.
    + lia.
    + injection Hj as <-. apply nth_error_In in Hi.
      rewrite Forall_forall in Hx. specialize (Hx a Hi). lia.
    + apply -> Nat.succ_lt_mono. exact (IH i j a b Hi Hj Hab).
Qed.

(** C6: the first result that carries a worker's error, or a timestamp
    that does not parse, ends the call with that error, no timeline and no
    rate limit; what was accumulated is dropped and the results behind it
    are not received. An error of [followersIDs] ends it the same way. *)
Theorem first_error_returned :
  (forall ids lookup order since pre r post e,
     arrivals lookup (producer ids 0) order = pre ++ r :: post ->
     Forall (fun r => failure r = None) pre ->
     failure r = Some e ->
     followersTimeline_full (inr ids) lookup order since
       = (([], None, Some e), post) /\
     followersTimeline (inr ids) lookup order since
       = ([], None, Some e)) /\
  (forall lookup order since e,
     followersTimeline (inl e) lookup order since = ([], None, Some e)) /\
  (forall idsResults lookup order since tl rl e,
     followersTimeline idsResults lookup order since = (tl, rl, Some e) ->
     tl = [] /\ rl = None).
Proof.
  split; [|split].
  - intros ids lookup order since pre r post e Harr Hpre Hr.
    unfold Fetcher.followersTimeline, Fetcher.followersTimeline_full.
    rewrite Harr, (collect_first_failure since pre post r e Hpre Hr).
    split; reflexivity.
  - reflexivity.
  - intros idsResults lookup order since tl rl e.
    unfold Fetcher.followersTimeline, Fetcher.followersTimeline_full.
    destruct idsResults as [e0|ids]; [intros [= <- <- _]; auto|].
    destruct (first_failure_split (arrivals lookup (producer ids 0) order))
      as [Hall | (pre & r & post & e' & -> & Hpre & Hr)].
    + rewrite (collect_all since _ Hall). cbv beta iota zeta. cbn [fst].
      intros H.
      match type of H with sort_deferred ?o = _ =>
        pose proof (proj2 (sort_deferred_keeps o)) as Hk end.
      rewrite H in Hk. discriminate.
    + rewrite (collect_first_failure since pre post r e' Hpre Hr).
      intros [= <- <- _]. auto.
Qed.

(** C10: a call that succeeds returns a rate limit that is not nil: the
    zero value, updated by each observation received, in their order, when
    its reset is later or its remaining count smaller. *)
Theorem rateLimit_never_nil :
  (forall idsResults lookup order since tl rl,
     followersTimeline idsResults lookup order since = (tl, rl, None) ->
     exists ids,
       idsResults = inr ids /\
       rl = Some (fold_left (fun acc r => observe acc (observation r))
                    (arrivals lookup (producer ids 0) order) zero) /\
       (Forall (fun r => observation r = None)
               (arrivals lookup (producer ids 0) order) ->
        rl = Some zero)) /\
  (forall acc new,
     observe acc None = acc /\
     observe acc (Some new) =
       if (Reset acc <? Reset new) || (Remaining new <? Remaining acc)
       then new else acc) /\
  (forall lookup since,
     followersTimeline (inr []) lookup [] since = ([], Some zero, None)).
Proof.
  split; [|split].
  - intros idsResults lookup order since tl rl H.
    destruct (followersTimeline_rateLimit _ _ _ _ _ _ H)
      as (ids & -> & _ & Hrl).
    exists ids. split; [reflexivity|]. split; [exact Hrl|].
    intros Hnone. rewrite Hrl. f_equal. clear Hrl H.
    generalize zero. induction Hnone as [|r out Hr _ IH]; intros acc.
    + reflexivity.
    + simpl. rewrite Hr. apply IH.
  - intros acc new. split; reflexivity.
  - intros lookup since.
    unfold Fetcher.followersTimeline, Fetcher.followersTimeline_full.
    rewrite producer_done by (simpl; lia). reflexivity.
Qed.

(** *** The loop of [Run] *)

Local Abbreviation Run_round := (Run_round time_Parse sort_Sort).
Local Abbreviation Run_loop := (Run_loop time_Parse sort_Sort).
Local Abbreviation advance := (advance time_Parse).

Lemma advance_spec (latest : Time) (tl : timeline) (t : Time) :
  advance latest tl = inr t ->
  match tl with
  | [] => t = latest
  | first :: _ => t = created (last tl first)
  end.
Proof.
  unfold Fetcher.advance, Collected.created.
  destruct tl as [|first rest]; [congruence|].
  destruct (CreatedAtTime (last (first :: rest) first)) as [t' [e|]];
    simpl; congruence.
Qed.

(** Everything a successful call returns was created after [since]. *)
Lemma followersTimeline_after idsResults lookup order since tl rl :
  followersTimeline idsResults lookup order since = (tl, rl, None) ->
  Forall (fun t => since < created t) tl.
Proof.
  intros H.
  destruct (followersTimeline_success _ _ _ _ _ _ H)
    as (ids & _ & _ & Hp & _ & _).
  apply Forall_forall. intros t Ht.
  apply (Permutation_in _ Hp), in_flat_map in Ht.
  destruct Ht as (r & _ & Ht). apply fresh_of_result_In in Ht.
  destruct Ht as (_ & user & tweet & _ & _ & _ & Hlt & ->).
  rewrite created_setUser. exact Hlt.
Qed.

Lemma StronglySorted_last (tl : timeline) (first : Tweet) :
  StronglySorted (fun a b => created a <= created b) tl ->
  Forall (fun t => created t <= created (last tl first)) tl.
Proof.
  induction 1 as [|x l Hl IH Hx]; [constructor|].
  destruct l as [|y l'].
  - constructor; [simpl; lia | constructor].
  - change (last (x :: y :: l') first) with (last (y :: l') first).
    constructor; [|exact IH].
    apply Forall_inv in Hx. apply Forall_inv in IH. lia.
Qed.

Lemma Run_round_sleeps mentioner st w st' maxWait logged :
  Run_round mentioner st w = Sleeps st' maxWait logged ->
  exists tl rl,
    followersTimeline (idsResults w) (usersLookup w) (order w)
                      (latestCreatedAt st) = (tl, Some rl, None) /\
    latestRateLimit st' = rl /\
    maxWait = Run_wait (latestRateLimit st) rl (now w) /\
    match tl with
    | [] => latestCreatedAt st' = latestCreatedAt st
    | first :: _ =>
        latestCreatedAt st' = created (last tl first) /\
        latestCreatedAt st < latestCreatedAt st' /\
        Forall (fun t => created t <= latestCreatedAt st') tl
    end.
Proof.
  unfold Fetcher.Run_round.
  destruct (followersTimeline (idsResults w) (usersLookup w) (order w)
              (latestCreatedAt st)) as [[tl rl] [err|]] eqn:Hcall;
    [discriminate|].
  destruct (mentions time_Parse mentioner tl) as [e|lg]; [discriminate|].
  destruct (advance (latestCreatedAt st) tl) as [e|t] eqn:Hadv;
    [discriminate|].
  destruct rl as [rl|]; [|discriminate].
  intros [= <- <- _]. exists tl, rl. simpl.
  repeat split.
  apply advance_spec in Hadv.
  pose proof (followersTimeline_after _ _ _ _ _ _ Hcall) as Hafter.
  destruct (followersTimeline_success _ _ _ _ _ _ Hcall)
    as (_ & _ & _ & _ & Hsorted & _).
  destruct tl as [|first rest]; [exact Hadv|].
  subst t. split; [reflexivity|]. split.
  - rewrite Forall_forall in Hafter. apply Hafter, last_In. discriminate.
  - apply StronglySorted_last, Hsorted.
Qed.

Lemma Run_round_forward mentioner st w st' maxWait logged :
  Run_round mentioner st w = Sleeps st' maxWait logged ->
  latestCreatedAt st <= latestCreatedAt st'.
Proof.
  intros H. apply Run_round_sleeps in H.
  destruct H as ([|first rest] & rl & _ & _ & _ & H); lia.
Qed.

Lemma Run_loop_head mentioner ws :
  forall st trace final,
    Run_loop mentioner st ws = (trace, final) ->
    exists rest, trace = st :: rest.
Proof.
  destruct ws as [|w ws]; intros st trace final H; simpl in H.
  - injection H as <- _. eauto.
  - destruct (Run_round mentioner st w) as [e| |st' mw lg];
      try (injection H as <- _; eauto).
    destruct (Run_loop mentioner st' ws) as [tr fin].
    injection H as <- _. eauto.
Qed.

(** C7: a round that reaches its sleep leaves [latestCreatedAt] where it
    was when the timeline is empty, and otherwise moves it to the creation
    time of the last tweet, which is the latest of the timeline and
    strictly after the old value; over the rounds of the loop it never
    goes back. *)
Theorem watermark_monotone mentioner :
  (forall st w st' maxWait logged,
     Run_round mentioner st w = Sleeps st' maxWait logged ->
     latestCreatedAt st <= latestCreatedAt st' /\
     exists tl rl,
       followersTimeline (idsResults w) (usersLookup w) (order w)
                         (latestCreatedAt st) = (tl, Some rl, None) /\
       match tl with
       | [] => latestCreatedAt st' = latestCreatedAt st
       | first :: _ =>
           latestCreatedAt st' = created (last tl first) /\
           latestCreatedAt st < latestCreatedAt st' /\
           Forall (fun t => created t <= latestCreatedAt st') tl
       end) /\
  (forall ws st trace final,
     Run_loop mentioner st ws = (trace, final) ->
     StronglySorted
       (fun a b => latestCreatedAt a <= latestCreatedAt b) trace).
Proof.
  split.
  - intros st w st' maxWait logged H.
    split; [exact (Run_round_forward _ _ _ _ _ _ H)|].
    destruct (Run_round_sleeps _ _ _ _ _ _ H) as (tl & rl & Hc & _ & _ & Hw).
    exists tl, rl. split; assumption.
  - induction ws as [|w ws IH]; intros st trace final H; simpl in H.
    + injection H as <- _. repeat constructor.
    + destruct (Run_round mentioner st w) as [e| |st' mw lg] eqn:Hr;
        try (injection H as <- _; repeat constructor).
      destruct (Run_loop mentioner st' ws) as [tr fin] eqn:Hl.
      injection H as <- _.
      pose proof (IH _ _ _ Hl) as Hs.
      destruct (Run_loop_head _ _ _ _ _ Hl) as (rest & ->).
      pose proof (Run_round_forward _ _ _ _ _ _ Hr) as Hfw.
      constructor; [exact Hs|].
      constructor; [exact Hfw|].
      apply StronglySorted_inv in Hs. destruct Hs as [_ Hall].
      revert Hall. apply Forall_impl. intros b Hb. lia.
Qed.

End FetcherProofs.

(** ** The example sorts keep the promise of [sort.Sort] *)

Lemma Sorted_snoc {A : Type} (R : A -> A -> Prop) (m : list A) (a : A) :
  Sorted R m -> (forall b m', m = m' ++ [b] -> R b a) -> Sorted R (m ++ [a]).
Proof.
  induction 1 as [|c m Hm IH Hc]; intros Hlast; simpl.
  - repeat constructor.
  - constructor.
    + apply IH. intros b m' ->. apply (Hlast b (c :: m')). reflexivity.
    + destruct Hc as [|d m Hcd]; simpl; constructor; [|exact Hcd].
      apply (Hlast c []). reflexivity.
Qed.

Lemma Sorted_rev {A : Type} (R : A -> A -> Prop) (l : list A) :
  Sorted R l -> Sorted (fun a b => R b a) (rev l).
Proof.
  induction 1 as [|a l Hl IH Ha]; simpl; [constructor|].
  apply Sorted_snoc; [exact IH|].
  intros b m' E. destruct Ha as [|c l Hac]; simpl in E.
  - destruct m'; discriminate.
  - apply app_inj_tail in E. destruct E as [_ <-]. exact Hac.
Qed.

Section ExampleSorts.

Variable A : Type.
Variable less : A -> A -> bool.
Hypothesis less_swo : StrictWeakOrder less.

Lemma less_asym (a b : A) : less a b = true -> less b a = false.
Proof.
  intros Hab. destruct (less b a) eqn:Hba; [|reflexivity].
  pose proof (swo_trans less less_swo _ _ _ Hab Hba) as H.
  rewrite (swo_irrefl less less_swo) in H. discriminate.
Qed.

Lemma sink_Permutation (x : A) (rprefix : list A) :
  Permutation (Examples.sink less x rprefix) (x :: rprefix).
Proof.
  induction rprefix as [|y r IH]; simpl; [reflexivity|].
  destruct (less x y); [|reflexivity].
  rewrite IH. apply perm_swap.
Qed.

Lemma sink_Sorted (x : A) (rprefix : list A) :
  Sorted (fun a b => less a b = false) rprefix ->
  Sorted (fun a b => less a b = false) (Examples.sink less x rprefix).
Proof.
  induction 1 as [|y r Hr IH Hy]; simpl; [repeat constructor|].
  destruct (less x y) eqn:Hxy.
  - constructor; [exact IH|].
    destruct Hy as [|z r Hyz]; simpl.
    + constructor. apply less_asym, Hxy.
    + destruct (less x z); constructor;
        [exact Hyz | apply less_asym, Hxy].
  - repeat constructor; assumption.
Qed.

Lemma insertion_loop (l : list A) :
  forall rprefix,
    Sorted (fun a b => less a b = false) rprefix ->
    let r := fold_left (fun rp x => Examples.sink less x rp) l rprefix in
    Permutation r (rev l ++ rprefix) /\
    Sorted (fun a b => less a b = false) r.
Proof.
  induction l as [|x l IH]; intros rp Hrp; simpl.
  - split; [reflexivity | exact Hrp].
  - destruct (IH (Examples.sink less x rp) (sink_Sorted x rp Hrp))
      as [Hp Hs].
    split; [|exact Hs].
    rewrite Hp, sink_Permutation, <- app_assoc. reflexivity.
Qed.

Lemma insertionSort_sorts (l : list A) :
  Permutation (Examples.insertionSort less l) l /\
  IsSorted less (Examples.insertionSort less l).
Proof.
  unfold Examples.insertionSort, IsSorted.
  destruct (insertion_loop l [] (Sorted_nil _)) as [Hp Hs]. split.
  - rewrite <- Permutation_rev, Hp, app_nil_r. symmetry.
    apply Permutation_rev.
  - apply (Sorted_rev _ _ Hs).
Qed.

Lemma gap_step_Permutation (l : list A) (i : nat) :
  Permutation (Examples.gap_step less l i) l.
Proof.
  unfold Examples.gap_step.
  destruct (nth_error l i) as [x|]; [|reflexivity].
  destruct (nth_error l (i - 6)) as [y|]; [|reflexivity].
  destruct (less x y); [apply swap_Permutation | reflexivity].
Qed.

Lemma shellPass_Permutation (l : list A) :
  Permutation (Examples.shellPass less l) l.
Proof.
  unfold Examples.shellPass. generalize (seq 6 (length l - 6)).
  intros idx. revert l.
  induction idx as [|i idx IH]; intros l; simpl; [reflexivity|].
  rewrite IH. apply gap_step_Permutation.
Qed.

Lemma shellSort_sorts (l : list A) :
  Permutation (Examples.shellSort less l) l /\
  IsSorted less (Examples.shellSort less l).
Proof.
  unfold Examples.shellSort.
  destruct (insertionSort_sorts (Examples.shellPass less l)) as [Hp Hs].
  split; [|exact Hs]. rewrite Hp. apply shellPass_Permutation.
Qed.

End ExampleSorts.

Lemma insertionSort_contract : sort_contract (@Examples.insertionSort Tweet).
Proof. intros less l Hswo. apply insertionSort_sorts, Hswo. Qed.

Lemma shellSort_contract : sort_contract (@Examples.shellSort Tweet).
Proof. intros less l Hswo. apply shellSort_sorts, Hswo. Qed.

(** ** The fetcher on the examples *)

Lemma followersTimeline_fresh_sorted_witness :
  let call :=
    followersTimeline Examples.parse_seconds (@Examples.insertionSort Tweet)
      (inr Examples.two_batches) Examples.lookup_two [1%nat; 0%nat]
      (640 * Second) in
  map Text (fst (fst call)) = ["foo"; "quux"; "baz"]%string /\
  StronglySorted
    (fun a b => created Examples.parse_seconds a
                <= created Examples.parse_seconds b) (fst (fst call)).
Proof.
  cbv zeta. split; [vm_compute; reflexivity|].
  refine (proj2 (proj2 (proj2
    (followersTimeline_fresh_sorted Examples.parse_seconds
       (@Examples.insertionSort Tweet) insertionSort_contract
       Examples.two_batches Examples.lookup_two [1%nat; 0%nat]
       (640 * Second) _ _ _ _)))).
  - vm_compute. apply perm_swap.
  - vm_compute. reflexivity.
Defined.

(** C3, as stated, fails: Go 1.6 to 1.18 sort a timeline of seven tweets by
    first swapping [g], created at second 1, with [a], created at second 2,
    six places before it; [a] then stops behind [b], created at second 2
    too, which it preceded. *)
Lemma final_sort_not_stable :
  let lookup := fun _ : list Z => Looked Examples.seven_users in
  let accumulated :=
    fst (fst (fst (collect Examples.parse_seconds 0
                     (arrivals lookup (producer [1; 2; 3; 4; 5; 6; 7] 0)
                               [0%nat]) [] zero))) in
  let returned :=
    fst (fst (followersTimeline Examples.parse_seconds
                (@Examples.shellSort Tweet) (inr [1; 2; 3; 4; 5; 6; 7])
                lookup [0%nat] 0)) in
  sort_contract (@Examples.shellSort Tweet) /\
  map Text accumulated = ["a"; "b"; "c"; "d"; "e"; "f"; "g"]%string /\
  map Text returned = ["g"; "b"; "a"; "c"; "d"; "e"; "f"]%string /\
  ~ keeps_ties (created Examples.parse_seconds) accumulated returned.
Proof.
  cbv zeta. split; [exact shellSort_contract|].
  split; [vm_compute; reflexivity|]. split; [vm_compute; reflexivity|].
  intros H. specialize (H (2 * Second)). vm_compute in H. discriminate.
Qed.

Lemma final_sort_ascending_permutation_witness :
  let returned :=
    fst (fst (followersTimeline Examples.parse_seconds
                (@Examples.insertionSort Tweet) (inr Examples.two_batches)
                Examples.lookup_two [1%nat; 0%nat] (640 * Second))) in
  StronglySorted
    (fun a b => created Examples.parse_seconds a
                <= created Examples.parse_seconds b) returned.
Proof.
  exact (proj1 (proj2
    (final_sort_ascending_permutation Examples.parse_seconds
       (@Examples.insertionSort Tweet) insertionSort_contract
       Examples.two_batches Examples.lookup_two [1%nat; 0%nat]
       (640 * Second)))).
Defined.

Lemma first_error_returned_witness :
  followersTimeline_full Examples.parse_seconds
    (@Examples.insertionSort Tweet) (inr Examples.two_batches)
    Examples.lookup_failing [0%nat; 1%nat] (640 * Second)
  = (([], None, Some "lookup failed"%string),
     [Looked Examples.second_users]) /\
  followersTimeline Examples.parse_seconds
    (@Examples.insertionSort Tweet) (inr Examples.two_batches)
    Examples.lookup_failing [1%nat; 0%nat] (640 * Second)
  = ([], None, Some "lookup failed"%string).
Proof.
  split.
  - refine (proj1 (proj1
      (first_error_returned Examples.parse_seconds
         (@Examples.insertionSort Tweet))
      Examples.two_batches Examples.lookup_failing [0%nat; 1%nat]
      (640 * Second) [] (Failed "lookup failed"%string)
      [Looked Examples.second_users] "lookup failed"%string _ _ _)).
    + vm_compute. reflexivity.
    + constructor.
    + reflexivity.
  - refine (proj2 (proj1
      (first_error_returned Examples.parse_seconds
         (@Examples.insertionSort Tweet))
      Examples.two_batches Examples.lookup_failing [1%nat; 0%nat]
      (640 * Second) [Looked Examples.second_users]
      (Failed "lookup failed"%string) [] "lookup failed"%string _ _ _)).
    + vm_compute. reflexivity.
    + repeat constructor.
    + reflexivity.
Defined.

Lemma rateLimit_never_nil_witness :
  exists rl,
    snd (fst (followersTimeline Examples.parse_seconds
                (@Examples.insertionSort Tweet) (inr Examples.two_batches)
                Examples.lookup_two [1%nat; 0%nat] (640 * Second)))
    = Some rl.
Proof.
  destruct (proj1 (rateLimit_never_nil Examples.parse_seconds
                     (@Examples.insertionSort Tweet))
              (inr Examples.two_batches) Examples.lookup_two [1%nat; 0%nat]
              (640 * Second)
              (fst (fst (followersTimeline Examples.parse_seconds
                (@Examples.insertionSort Tweet) (inr Examples.two_batches)
                Examples.lookup_two [1%nat; 0%nat] (640 * Second))))
              (snd (fst (followersTimeline Examples.parse_seconds
                (@Examples.insertionSort Tweet) (inr Examples.two_batches)
                Examples.lookup_two [1%nat; 0%nat] (640 * Second))))
              ltac:(vm_compute; reflexivity))
    as (ids & _ & Hrl & _).
  eexists. exact Hrl.
Defined.

Lemma watermark_monotone_witness :
  let st := mkBot (mkRateLimit 180 180 1900) (640 * Second) in
  let st' := mkBot (mkRateLimit 10 15 1900) (880 * Second) in
  latestCreatedAt st <= latestCreatedAt st'.
Proof.
  refine (proj1 (proj1
    (watermark_monotone Examples.parse_seconds
       (@Examples.insertionSort Tweet) insertionSort_contract None)
    (mkBot (mkRateLimit 180 180 1900) (640 * Second))
    (mkRound (inr [100; 200; 300]) (fun _ => Looked Examples.three_users)
             [0%nat] 1000)
    (mkBot (mkRateLimit 10 15 1900) (880 * Second)) 900 [] _)).
  vm_compute. reflexivity.
Defined.

(** ** The goroutines *)

Lemma count_le_length (p : Pool.worker -> bool) (ws : list Pool.worker) :
  (Pool.count p ws <= length ws)%nat.
Proof. apply filter_length_le. Qed.

Lemma count_upd (p : Pool.worker -> bool) (ws : list Pool.worker) (i : nat)
  (old new : Pool.worker) :
  nth_error ws i = Some old ->
  (Pool.count p (upd ws i new) + Nat.b2n (p old)
   = Pool.count p ws + Nat.b2n (p new))%nat.
Proof.
  unfold Pool.count. revert i.
  induction ws as [|w ws IH]; intros [|i] H; simpl in *; try discriminate.
  - injection H as ->. destruct (p old), (p new); simpl; lia.
  - specialize (IH i H). destruct (p w); simpl; lia.
Qed.

Lemma flat_map_upd {A B : Type} (f : A -> list B) (ws : list A) (i : nat)
  (old new : A) :
  nth_error ws i = Some old ->
  Permutation (flat_map f (upd ws i new) ++ f old)
              (flat_map f ws ++ f new).
Proof.
  revert i. induction ws as [|w ws IH]; intros [|i] H; simpl in *;
    try discriminate.
  - injection H as ->. rewrite <- !app_assoc.
    rewrite (Permutation_app_comm (flat_map f ws) (f old)).
    rewrite (Permutation_app_comm (flat_map f ws) (f new)).
    rewrite !app_assoc. apply Permutation_app_tail, Permutation_app_comm.
  - rewrite <- !app_assoc. apply Permutation_app_head, IH, H.
Qed.

Lemma existsb_upd {A : Type} (p : A -> bool) (ws : list A) (i : nat)
  (new : A) :
  p new = false -> existsb p (upd ws i new) = true -> existsb p ws = true.
Proof.
  intros Hnew. revert i.
  induction ws as [|w ws IH]; intros [|i] H; simpl in *; try discriminate.
  - rewrite Hnew in H. simpl in H. rewrite H. apply orb_true_r.
  - apply orb_true_iff in H. apply orb_true_iff.
    destruct H as [H|H]; [left; exact H | right; exact (IH i H)].
Qed.

Lemma forallb_nth_error {A : Type} (p : A -> bool) (ws : list A) (i : nat)
  (w : A) :
  forallb p ws = true -> nth_error ws i = Some w -> p w = true.
Proof.
  intros Hall Hw. rewrite forallb_forall in Hall.
  exact (Hall w (nth_error_In ws i Hw)).
Qed.

Lemma forallb_existsb {A : Type} (p : A -> bool) (ws : list A) :
  ws <> [] -> forallb p ws = true -> existsb p ws = true.
Proof.
  destruct ws as [|w ws]; [contradiction|]. simpl. intros _ H.
  apply andb_true_iff in H. destruct H as [-> _]. reflexivity.
Qed.

Section PoolProofs.

Variable time_Parse : string -> Time * option error.
Variable sort_Sort : (Tweet -> Tweet -> bool) -> list Tweet -> list Tweet.
Variable usersLookup : list Z -> result.
Variable since : Time.

Local Abbreviation step := (Pool.step time_Parse sort_Sort usersLookup since).
Local Abbreviation run := (Pool.run time_Parse sort_Sort usersLookup since).
Local Abbreviation reachable :=
  (Pool.reachable time_Parse sort_Sort usersLookup since).

Lemma invariant_init (ids : list Z) : Pool.invariant ids (Pool.init ids).
Proof.
  unfold Pool.invariant, Pool.init. simpl.
  repeat split; try discriminate; try reflexivity.
Qed.

Ltac idle_count H :=
  match type of H with
  | nth_error ?ws ?i = Some ?old =>
      match goal with
      | |- context [Pool.count Pool.is_idle (upd ws i ?new)] =>
          pose proof (count_upd Pool.is_idle ws i old new H);
          pose proof (count_le_length Pool.is_idle (upd ws i new));
          pose proof (upd_length ws i new)
      end
  end.

Lemma invariant_step (ids : list Z) (a : Pool.action) (s s' : Pool.state) :
  Pool.invariant ids s -> step a s = Some s' -> Pool.invariant ids s'.
Proof.
  intros (Hlen & Hq & Hcalls & Hret & Hlate & Hpot) Hstep.
  unfold Pool.invariant.
  destruct a as [i| |i|i|i|i| |]; simpl in Hstep.
  - (* Dispatch *)
    destruct (Pool.pending s) as [|batch rest] eqn:Hp; [discriminate|].
    destruct (nth_error (Pool.workers s) i) as [[| | |]|] eqn:Hw;
      try discriminate.
    injection Hstep as <-. simpl. idle_count Hw. simpl in *.
    rewrite upd_length, length_app, <- app_assoc. simpl.
    repeat split; try assumption; try lia.
    all: destruct (Pool.cancel_closed s); auto; try discriminate; lia.
  - (* CloseIn *)
    destruct (Pool.pending s) eqn:Hp; [|discriminate].
    destruct (Pool.in_closed s); [discriminate|].
    injection Hstep as <-. simpl. repeat split; assumption.
  - (* LeaveLoop *)
    destruct (nth_error (Pool.workers s) i) as [[| | |]|] eqn:Hw;
      try discriminate.
    destruct (Pool.in_closed s); [|discriminate].
    injection Hstep as <-. simpl. idle_count Hw. simpl in *.
    rewrite upd_length. repeat split; try assumption; lia.
  - (* CallReturns *)
    destruct (nth_error (Pool.workers s) i) as [[| | |]|] eqn:Hw;
      try discriminate.
    injection Hstep as <-. simpl. idle_count Hw. simpl in *.
    rewrite upd_length. repeat split; try assumption; lia.
  - (* Deliver *)
    destruct (nth_error (Pool.workers s) i) as [[| | |]|] eqn:Hw;
      try discriminate.
    destruct (Pool.main s) as [tl rl|o] eqn:Hm; [|discriminate].
    assert (Hopen : Pool.cancel_closed s = false).
    { destruct (Pool.cancel_closed s); [|reflexivity].
      destruct (Hret eq_refl) as [o Ho]. discriminate. }
    specialize (Hlate Hopen).
    destruct (receive time_Parse since tl rl r) as [e|[tl' rl']];
      injection Hstep as <-; simpl; idle_count Hw; simpl in *;
      rewrite upd_length; repeat split; try assumption; try lia;
      try discriminate; eauto; intros Hc; congruence.
  - (* Cancelled *)
    destruct (nth_error (Pool.workers s) i) as [[| | |]|] eqn:Hw;
      try discriminate.
    destruct (Pool.cancel_closed s) eqn:Hc; [|discriminate].
    injection Hstep as <-. simpl. idle_count Hw. simpl in *.
    rewrite upd_length. repeat split; try assumption; try lia;
      intros; auto; congruence.
  - (* CloseOut *)
    destruct (forallb Pool.is_exited (Pool.workers s)
              && negb (Pool.out_closed s)); [|discriminate].
    injection Hstep as <-. simpl. repeat split; assumption.
  - (* Finish *)
    destruct (Pool.main s) as [tl rl|o] eqn:Hm; [|discriminate].
    destruct (Pool.out_closed s); [|discriminate].
    assert (Hopen : Pool.cancel_closed s = false).
    { destruct (Pool.cancel_closed s); [|reflexivity].
      destruct (Hret eq_refl) as [o Ho]. discriminate. }
    injection Hstep as <-. simpl.
    repeat split; try assumption; try discriminate; eauto.
Qed.

Lemma invariant_run (ids : list Z) (sched : list Pool.action) :
  forall s s', Pool.invariant ids s -> run sched s = Some s' ->
               Pool.invariant ids s'.
Proof.
  induction sched as [|a sched IH]; intros s s' Hinv Hrun; simpl in Hrun.
  - injection Hrun as <-. exact Hinv.
  - destruct (step a s) as [s1|] eqn:Hs; [|discriminate].
    exact (IH s1 s' (invariant_step ids a s s1 Hinv Hs) Hrun).
Qed.

(** C9 (amended): there are 5 workers, so at most 5 lookups run at once;
    the batches leave one queue in order, each to a worker that is ready
    to receive; after the cancellation a worker that is waiting to receive
    still takes one batch and looks it up, so at most 5 further lookups
    are issued. *)
Theorem pool_bounds (ids : list Z) (s : Pool.state)
  (Hreach : reachable ids s) :
  length (Pool.workers s) = 5%nat /\
  (Pool.count Pool.is_calling (Pool.workers s) <= 5)%nat /\
  Pool.dispatched s ++ Pool.pending s = producer ids 0 /\
  Pool.calls s = length (Pool.dispatched s) /\
  (forall i s',
     step (Pool.Dispatch i) s = Some s' ->
     nth_error (Pool.workers s) i = Some Pool.Idle /\
     exists batch,
       Pool.pending s = batch :: Pool.pending s' /\
       nth_error (Pool.workers s') i = Some (Pool.Calling batch) /\
       Pool.calls s' = S (Pool.calls s)) /\
  (Pool.cancel_closed s = false -> Pool.late_calls s = 0%nat) /\
  (Pool.late_calls s + Pool.count Pool.is_idle (Pool.workers s) <= 5)%nat.
Proof.
  destruct Hreach as [sched Hrun].
  destruct (invariant_run ids sched _ _ (invariant_init ids) Hrun)
    as (Hlen & Hq & Hcalls & Hret & Hlate & Hpot).
  unfold Pool.numWorkers in *.
  split; [exact Hlen|].
  split; [rewrite <- Hlen; apply count_le_length|].
  split; [exact Hq|]. split; [exact Hcalls|].
  split; [|split; [exact Hlate | exact Hpot]].
  intros i s' Hstep. simpl in Hstep.
  destruct (Pool.pending s) as [|batch rest]; [discriminate|].
  destruct (nth_error (Pool.workers s) i) as [[| | |]|] eqn:Hw;
    try discriminate.
  injection Hstep as <-. split; [reflexivity|]. exists batch. simpl.
  repeat split. apply upd_nth_error_same.
  apply nth_error_Some. congruence.
Qed.

(** *** What the caller returns *)

Local Abbreviation collect := (collect time_Parse).
Local Abbreviation sort_deferred := (sort_deferred time_Parse sort_Sort).
Local Abbreviation in_flight := (Pool.in_flight usersLookup).
Local Abbreviation history :=
  (Pool.history time_Parse sort_Sort usersLookup since).

Lemma collect_snoc (out : list result) (r : result) :
  forall tl0 rl0 tl rl,
    collect since out tl0 rl0 = ((tl, Some rl, None), []) ->
    collect since (out ++ [r]) tl0 rl0 =
      match receive time_Parse since tl rl r with
      | inl e => (([], None, Some e), [])
      | inr (tl', rl') => ((tl', Some rl', None), [])
      end.
Proof.
  induction out as [|x out IH]; intros tl0 rl0 tl rl H; simpl in *.
  - injection H as -> ->.
    destruct (receive time_Parse since tl rl r) as [e|[tl' rl']];
      reflexivity.
  - destruct (receive time_Parse since tl0 rl0 x) as [e|[tl1 rl1]];
      [discriminate|]. exact (IH _ _ _ _ H).
Qed.

Lemma exited_not_in_flight (ws : list Pool.worker) :
  forallb Pool.is_exited ws = true -> flat_map in_flight ws = [].
Proof.
  induction ws as [|w ws IH]; [reflexivity|]. simpl. intros H.
  apply andb_true_iff in H. destruct H as [Hw Hws].
  rewrite (IH Hws). destruct w; try discriminate. reflexivity.
Qed.

Lemma history_init (ids : list Z) : history ids (Pool.init ids).
Proof.
  unfold Pool.history, Pool.init. simpl.
  repeat split; try discriminate. constructor.
Qed.

(** The worker [i] is not [Exited], so [out] is still open. *)
Lemma out_open (s : Pool.state) (i : nat) (w : Pool.worker) :
  (Pool.out_closed s = true ->
   forallb Pool.is_exited (Pool.workers s) = true) ->
  nth_error (Pool.workers s) i = Some w -> Pool.is_exited w = false ->
  Pool.out_closed s = false.
Proof.
  intros Hout Hw Hne. destruct (Pool.out_closed s); [|reflexivity].
  rewrite (forallb_nth_error _ _ _ _ (Hout eq_refl) Hw) in Hne.
  discriminate.
Qed.

Lemma history_step (ids : list Z) (a : Pool.action) (s s' : Pool.state) :
  Pool.invariant ids s -> history ids s -> step a s = Some s' ->
  history ids s'.
Proof.
  intros (Hlen & Hq & _ & Hret & _ & _) (Hin & Hex & Hout & Hperm & Hmain)
         Hstep.
  unfold Pool.history.
  destruct a as [i| |i|i|i|i| |]; simpl in Hstep.
  - (* Dispatch *)
    destruct (Pool.pending s) as [|batch rest] eqn:Hp; [discriminate|].
    destruct (nth_error (Pool.workers s) i) as [[| | |]|] eqn:Hw;
      try discriminate.
    injection Hstep as <-. simpl.
    pose proof (out_open s i _ Hout Hw eq_refl) as Hopen.
    assert (Hinc : Pool.in_closed s = false).
    { destruct (Pool.in_closed s); [|reflexivity].
      specialize (Hin eq_refl). discriminate. }
    repeat split.
    + rewrite Hinc. discriminate.
    + intros Hc He. rewrite Hinc in *. apply (Hex Hc).
      exact (existsb_upd _ _ _ _ eq_refl He).
    + rewrite Hopen. discriminate.
    + intros Hc. specialize (Hperm Hc).
      pose proof (flat_map_upd in_flight _ _ _ (Pool.Calling batch) Hw)
        as Hf. simpl in Hf. rewrite app_nil_r in Hf.
      rewrite Hf, app_assoc, Hperm, map_app. reflexivity.
    + exact Hmain.
  - (* CloseIn *)
    destruct (Pool.pending s) eqn:Hp; [|discriminate].
    destruct (Pool.in_closed s); [discriminate|].
    injection Hstep as <-. simpl. repeat split; auto.
  - (* LeaveLoop *)
    destruct (nth_error (Pool.workers s) i) as [[| | |]|] eqn:Hw;
      try discriminate.
    destruct (Pool.in_closed s) eqn:Hinc; [|discriminate].
    injection Hstep as <-. simpl.
    pose proof (out_open s i _ Hout Hw eq_refl) as Hopen.
    repeat split; auto.
    + rewrite Hopen. discriminate.
    + intros Hc. specialize (Hperm Hc).
      pose proof (flat_map_upd in_flight _ _ _ Pool.Exited Hw) as Hf.
      simpl in Hf. rewrite !app_nil_r in Hf. rewrite Hf. exact Hperm.
  - (* CallReturns *)
    destruct (nth_error (Pool.workers s) i) as [[| | |]|] eqn:Hw;
      try discriminate.
    injection Hstep as <-. simpl.
    pose proof (out_open s i _ Hout Hw eq_refl) as Hopen.
    repeat split; auto.
    + intros Hc He. apply (Hex Hc). exact (existsb_upd _ _ _ _ eq_refl He).
    + rewrite Hopen. discriminate.
    + intros Hc. specialize (Hperm Hc).
      pose proof (flat_map_upd in_flight _ _ _
                    (Pool.Sending (usersLookup batch)) Hw) as Hf.
      simpl in Hf. apply Permutation_app_inv_r in Hf.
      rewrite Hf. exact Hperm.
  - (* Deliver *)
    destruct (nth_error (Pool.workers s) i) as [[| | |]|] eqn:Hw;
      try discriminate.
    destruct (Pool.main s) as [tl rl|o] eqn:Hm; [|discriminate].
    assert (Hc : Pool.cancel_closed s = false).
    { destruct (Pool.cancel_closed s); [|reflexivity].
      destruct (Hret eq_refl) as [o Ho]. discriminate. }
    pose proof (out_open s i _ Hout Hw eq_refl) as Hopen.
    pose proof (collect_snoc _ r _ _ _ _ Hmain) as Hsnoc.
    pose proof (flat_map_upd in_flight _ _ _ Pool.Idle Hw) as Hf.
    simpl in Hf. rewrite app_nil_r in Hf.
    destruct (receive time_Parse since tl rl r) as [e|[tl' rl']];
      injection Hstep as <-; simpl; repeat split; auto;
      try discriminate;
      try (rewrite Hopen; discriminate);
      try (rewrite Hsnoc; reflexivity);
      try (intros _ He; apply (Hex Hc);
           exact (existsb_upd _ _ _ _ eq_refl He));
      intros _; rewrite <- (Hperm Hc), <- Hf, <- app_assoc;
      apply Permutation_app_head, Permutation_app_comm.
  - (* Cancelled *)
    destruct (nth_error (Pool.workers s) i) as [[| | |]|] eqn:Hw;
      try discriminate.
    destruct (Pool.cancel_closed s) eqn:Hc; [|discriminate].
    injection Hstep as <-. simpl.
    pose proof (out_open s i _ Hout Hw eq_refl) as Hopen.
    repeat split; auto; try discriminate.
    all: try (rewrite Hopen; discriminate).
    all: intros; congruence.
  - (* CloseOut *)
    destruct (forallb Pool.is_exited (Pool.workers s)) eqn:Hall;
      [|discriminate].
    destruct (negb (Pool.out_closed s)); [|discriminate].
    injection Hstep as <-. simpl. repeat split; auto.
  - (* Finish *)
    destruct (Pool.main s) as [tl rl|o] eqn:Hm; [|discriminate].
    destruct (Pool.out_closed s) eqn:Hoc; [|discriminate].
    assert (Hc : Pool.cancel_closed s = false).
    { destruct (Pool.cancel_closed s); [|reflexivity].
      destruct (Hret eq_refl) as [o Ho]. discriminate. }
    injection Hstep as <-. simpl.
    repeat split; auto; try discriminate.
    + rewrite Hmain. reflexivity.
    + intros _. specialize (Hout eq_refl). specialize (Hperm Hc).
      rewrite (exited_not_in_flight _ Hout), app_nil_r in Hperm.
      assert (Hne : Pool.workers s <> []).
      { intros E. rewrite E in Hlen. discriminate. }
      rewrite (Hin (Hex Hc (forallb_existsb _ _ Hne Hout))) in Hq.
      rewrite app_nil_r in Hq. rewrite <- Hq. exact Hperm.
Qed.

Lemma history_run (ids : list Z) (sched : list Pool.action) :
  forall s s', Pool.invariant ids s -> history ids s ->
               run sched s = Some s' -> history ids s'.
Proof.
  induction sched as [|a sched IH]; intros s s' Hinv Hh Hrun; simpl in Hrun.
  - injection Hrun as <-. exact Hh.
  - destruct (step a s) as [s1|] eqn:Hs; [|discriminate].
    exact (IH s1 s' (invariant_step ids a s s1 Hinv Hs)
              (history_step ids a s s1 Hinv Hh Hs) Hrun).
Qed.

(** Whatever the schedule, the caller returns what its loop computes from
    the results it received; when it returns no error these are the answers
    to all the batches, in some order: the call is [followersTimeline] for
    that order of arrival. *)
Lemma pool_returns_followersTimeline (ids : list Z) (s : Pool.state)
  (o : outcome) :
  reachable ids s -> Pool.main s = Pool.Returned o ->
  o = sort_deferred (fst (collect since (Pool.received s) [] zero)) /\
  (snd o = None ->
   exists order,
     Permutation order (seq 0 (length (producer ids 0))) /\
     Pool.received s = arrivals usersLookup (producer ids 0) order /\
     o = followersTimeline time_Parse sort_Sort (inr ids) usersLookup order
           since).
Proof.
  intros [sched Hrun] Hm.
  pose proof (history_run ids sched _ _ (invariant_init ids)
                (history_init ids) Hrun) as (_ & _ & _ & _ & Hmain).
  rewrite Hm in Hmain. destruct Hmain as [Ho Hperm].
  split; [exact Ho|]. intros Hok. specialize (Hperm Hok).
  rewrite <- (map_nth_seq (producer ids 0) []) in Hperm at 1.
  rewrite map_map in Hperm.
  apply Permutation_map_inv in Hperm.
  destruct Hperm as (order & Hrec & Hord).
  exists order. split; [symmetry; exact Hord|]. split; [exact Hrec|].
  unfold Fetcher.followersTimeline, Fetcher.followersTimeline_full.
  unfold arrivals in Hrec. unfold arrivals. rewrite <- Hrec.
  rewrite Ho. destruct (collect since (Pool.received s) [] zero).
  reflexivity.
Qed.

End PoolProofs.

(** C9, as stated, fails: the first lookup fails, the caller returns and
    closes [cancel] while worker 1 still waits at [range in]; the producer's
    next send reaches it, and it issues a second lookup. *)
Lemma dispatch_after_cancel :
  exists s s',
    Pool.run Examples.parse_seconds (@Examples.insertionSort Tweet)
      Examples.lookup_failing 0
      [Pool.Dispatch 0; Pool.CallReturns 0; Pool.Deliver 0]
      (Pool.init Examples.two_batches) = Some s /\
    Pool.cancel_closed s = true /\
    Pool.main s = Pool.Returned ([], None, Some "lookup failed"%string) /\
    Pool.step Examples.parse_seconds (@Examples.insertionSort Tweet)
      Examples.lookup_failing 0 (Pool.Dispatch 1) s = Some s' /\
    Pool.calls s = 1%nat /\ Pool.calls s' = 2%nat /\
    Pool.late_calls s' = 1%nat /\
    Pool.count Pool.is_calling (Pool.workers s') = 1%nat.
Proof.
  eexists. eexists.
  split; [vm_compute; reflexivity|].
  split; [reflexivity|]. split; [reflexivity|].
  split; [vm_compute; reflexivity|].
  repeat split.
Qed.

Lemma pool_bounds_witness :
  exists s,
    Pool.run Examples.parse_seconds (@Examples.insertionSort Tweet)
      Examples.lookup_failing 0
      [Pool.Dispatch 0; Pool.CallReturns 0; Pool.Deliver 0; Pool.Dispatch 1]
      (Pool.init Examples.two_batches) = Some s /\
    (Pool.late_calls s + Pool.count Pool.is_idle (Pool.workers s) <= 5)%nat.
Proof.
  eexists. split; [vm_compute; reflexivity|].
  refine (proj2 (proj2 (proj2 (proj2 (proj2 (proj2
    (pool_bounds Examples.parse_seconds (@Examples.insertionSort Tweet)
       Examples.lookup_failing 0 Examples.two_batches _
       (ex_intro _
          [Pool.Dispatch 0; Pool.CallReturns 0; Pool.Deliver 0;
           Pool.Dispatch 1] _)))))))).
  vm_compute. reflexivity.
Defined.

(** * Further properties *)

(** ** The sort interface *)

Lemma upd_upd_same {A : Type} (a : list A) (i : nat) (v w : A) :
  upd (upd a i v) i w = upd a i w.
Proof.
  revert i. induction a as [|x a IH]; intros [|i]; simpl; try reflexivity.
  now rewrite IH.
Qed.

Lemma upd_upd_comm {A : Type} (a : list A) (i j : nat) (v w : A) :
  i <> j -> upd (upd a i v) j w = upd (upd a j w) i v.
Proof.
  revert i j. induction a as [|x a IH]; intros [|i] [|j] H; simpl;
    try reflexivity; try congruence.
  rewrite IH by congruence. reflexivity.
Qed.

Lemma upd_same {A : Type} (a : list A) (i : nat) (x : A) :
  nth_error a i = Some x -> upd a i x = a.
Proof.
  revert i. induction a as [|y a IH]; intros [|i] H; simpl in *;
    try discriminate.
  - injection H as ->. reflexivity.
  - now rewrite IH.
Qed.

Lemma swap_nth_error {A : Type} (a : list A) (i j : nat) (x y : A) :
  nth_error a i = Some x -> nth_error a j = Some y ->
  nth_error (swap a i j) i = Some y /\
  nth_error (swap a i j) j = Some x /\
  (forall k, k <> i -> k <> j ->
             nth_error (swap a i j) k = nth_error a k).
Proof.
  intros Hi Hj. unfold swap. rewrite Hi, Hj.
  assert (Hli : (i < length a)%nat) by (apply nth_error_Some; congruence).
  assert (Hlj : (j < length a)%nat) by (apply nth_error_Some; congruence).
  split; [|split].
  - destruct (Nat.eq_dec i j) as [->|Hne].
    + rewrite upd_nth_error_same by (rewrite upd_length; exact Hlj).
      congruence.
    + rewrite upd_nth_error_other by congruence.
      apply upd_nth_error_same, Hli.
  - apply upd_nth_error_same. rewrite upd_length. exact Hlj.
  - intros k Hki Hkj. rewrite !upd_nth_error_other by congruence.
    reflexivity.
Qed.

Lemma swap_swap {A : Type} (a : list A) (i j : nat) :
  swap (swap a i j) i j = a.
Proof.
  destruct (nth_error a i) as [x|] eqn:Hi;
    [|unfold swap at 2; rewrite Hi; unfold swap; rewrite Hi; reflexivity].
  destruct (nth_error a j) as [y|] eqn:Hj;
    [|unfold swap at 2; rewrite Hi, Hj; unfold swap; rewrite Hi, Hj;
      reflexivity].
  destruct (swap_nth_error a i j x y Hi Hj) as (Hi' & Hj' & _).
  unfold swap at 1. rewrite Hi', Hj'. unfold swap. rewrite Hi, Hj.
  destruct (Nat.eq_dec i j) as [->|Hne].
  - rewrite !upd_upd_same. apply upd_same. congruence.
  - rewrite (upd_upd_comm (upd a i y) j i x x) by congruence.
    rewrite !upd_upd_same, (upd_same a i x Hi). apply upd_same, Hj.
Qed.




(** ** The wait and the sleep *)

Lemma Run_wait_floor (latest cur : rateLimitStatus) (now : Z) :
  10 <= Run_wait latest cur now.
Proof.
  unfold Run_wait. destruct (0 <? _); [|lia].
  match goal with |- context [10 <? ?w] => destruct (Z.ltb_spec 10 w) end;
    lia.
Qed.

Lemma int64_wrap_range (z : Z) : is_int64 (int64_wrap z).
Proof.
  unfold is_int64, int64_wrap.
  pose proof (Z.mod_pos_bound (z + 2 ^ 63) (2 ^ 64) ltac:(lia)). lia.
Qed.

(** X3: for every value of the fields' types, also when [Reset - now]
    wraps around, neither division of the wait computation divides by zero,
    and the wait is an [int64] of at least 10 seconds. *)
Theorem Run_wait_never_panics (latest cur : rateLimitStatus) (now : Z)
  (Hl : is_uint32 (Remaining latest)) (Hc : is_uint32 (Remaining cur)) :
  Sleep.Run_wait_checked latest cur now = Some (Run_wait latest cur now) /\
  10 <= Run_wait latest cur now < 2 ^ 63.
Proof.
  unfold is_uint32 in *. split; [|split; [apply Run_wait_floor|]].
  - unfold Sleep.Run_wait_checked, Run_wait, Sleep.div_checked.
    destruct (Z.ltb_spec 0 (Remaining latest - Remaining cur)) as [Hd|Hd];
      [|reflexivity].
    destruct (Z.eqb_spec (Remaining latest - Remaining cur) 0); [lia|].
    cbv zeta.
    destruct (Z.eqb_spec (Z.quot (Remaining cur)
                            (Remaining latest - Remaining cur)) 0) as [E|E].
    + rewrite E. reflexivity.
    + destruct (Z.eqb_spec (Z.quot (Remaining cur)
                              (Remaining latest - Remaining cur)) 0);
        [contradiction | reflexivity].
  - unfold Run_wait.
    destruct (Z.ltb_spec 0 (Remaining latest - Remaining cur)) as [Hd|Hd];
      [|lia]. cbv zeta.
    set (q := Z.quot (Remaining cur) (Remaining latest - Remaining cur)).
    assert (Hq : 0 <= q) by (apply Z.quot_pos; lia).
    set (num := if q =? 0 then q + 1 else q).
    assert (Hnum : 1 <= num) by (unfold num; destruct (Z.eqb_spec q 0); lia).
    pose proof (int64_wrap_range (Reset cur - now)) as Hr.
    unfold is_int64 in Hr. fold (int64_sub (Reset cur) now) in Hr.
    set (d := int64_sub (Reset cur) now) in *.
    assert (Hw : Z.quot d num < 2 ^ 63).
    { destruct (Z.le_gt_cases 0 d).
      - assert (Z.quot d num <= d) by (apply Z.quot_le_upper_bound; nia).
        lia.
      - assert (Z.quot d num <= 0).
        { rewrite <- (Z.opp_involutive d), Z.quot_opp_l by lia.
          assert (0 <= Z.quot (- d) num) by (apply Z.quot_pos; lia). lia. }
        lia. }
    destruct (Z.ltb_spec 10 (Z.quot d num)); lia.
Qed.

Lemma Run_wait_never_panics_witness :
  Sleep.Run_wait_checked (mkRateLimit 180 180 0)
    (mkRateLimit 180 3 (2 ^ 63 - 1)) (- 5)
  = Some (Run_wait (mkRateLimit 180 180 0)
            (mkRateLimit 180 3 (2 ^ 63 - 1)) (- 5)).
Proof.
  refine (proj1 (Run_wait_never_panics (mkRateLimit 180 180 0)
                   (mkRateLimit 180 3 (2 ^ 63 - 1)) (- 5) _ _));
    unfold is_uint32; simpl; lia.
Defined.

(** X4: when the time to the reset does not overflow and is under about
    292 years, the wait is between 10 seconds and the larger of 10 seconds
    and the time to the reset, and the sleep is a tick after exactly that
    many seconds: the duration does not wrap, and [time.Tick] does not get
    the non-positive duration for which the receive would never return. *)
Theorem sleep_is_bounded (latest cur : rateLimitStatus) (now : Z)
  (Hl : is_uint32 (Remaining latest)) (Hc : is_uint32 (Remaining cur))
  (Hlo : - 2 ^ 63 <= Reset cur - now)
  (Hhi : Reset cur - now <= 9223372036) :
  let maxWait := Run_wait latest cur now in
  10 <= maxWait <= Z.max 10 (Reset cur - now) /\
  Sleep.time_Tick (Sleep.tick_duration maxWait) =
    Sleep.Ticks (maxWait * Second).
Proof.
  cbv zeta. unfold is_uint32 in *.
  assert (Hb : Run_wait latest cur now <= Z.max 10 (Reset cur - now)).
  { unfold Run_wait.
    destruct (Z.ltb_spec 0 (Remaining latest - Remaining cur)) as [Hd|Hd];
      [|lia]. cbv zeta.
    set (q := Z.quot (Remaining cur) (Remaining latest - Remaining cur)).
    assert (Hq : 0 <= q) by (apply Z.quot_pos; lia).
    set (num := if q =? 0 then q + 1 else q).
    assert (Hnum : 1 <= num) by (unfold num; destruct (Z.eqb_spec q 0); lia).
    unfold int64_sub. rewrite int64_wrap_id by (unfold is_int64; lia).
    set (d := Reset cur - now) in *.
    assert (Hw : Z.quot d num <= Z.max 0 d).
    { destruct (Z.le_gt_cases 0 d).
      - assert (Z.quot d num <= d) by (apply Z.quot_le_upper_bound; nia).
        lia.
      - assert (Z.quot d num <= 0).
        { rewrite <- (Z.opp_involutive d), Z.quot_opp_l by lia.
          assert (0 <= Z.quot (- d) num) by (apply Z.quot_pos; lia). lia. }
        lia. }
    destruct (Z.ltb_spec 10 (Z.quot d num)); lia. }
  pose proof (Run_wait_floor latest cur now) as Hf.
  split; [lia|].
  unfold Sleep.tick_duration, Sleep.time_Tick, Second in *.
  rewrite int64_wrap_id by (unfold is_int64; lia).
  destruct (Z.leb_spec (1000000000 * Run_wait latest cur now) 0); [lia|].
  f_equal. lia.
Qed.

Lemma sleep_is_bounded_witness :
  Sleep.time_Tick (Sleep.tick_duration
    (Run_wait (mkRateLimit 180 180 1900) (mkRateLimit 180 165 1900) 1000))
  = Sleep.Ticks (Run_wait (mkRateLimit 180 180 1900)
                   (mkRateLimit 180 165 1900) 1000 * Second).
Proof.
  refine (proj2 (sleep_is_bounded (mkRateLimit 180 180 1900)
                   (mkRateLimit 180 165 1900) 1000 _ _ _ _));
    unfold is_uint32; simpl; lia.
Defined.

(** ** The rounds of [Run] *)

Section SchedulerProofs.

Variable time_Parse : string -> Time * option error.
Variable sort_Sort : (Tweet -> Tweet -> bool) -> list Tweet -> list Tweet.
Hypothesis sort_ok : sort_contract sort_Sort.

Local Abbreviation CreatedAtTime := (CreatedAtTime time_Parse).
Local Abbreviation followersTimeline :=
  (followersTimeline time_Parse sort_Sort).
Local Abbreviation created := (created time_Parse).
Local Abbreviation parses := (parses time_Parse).
Local Abbreviation mentions := (mentions time_Parse).
Local Abbreviation advance := (advance time_Parse).
Local Abbreviation Run_round := (Run_round time_Parse sort_Sort).
Local Abbreviation Run_loop := (Run_loop time_Parse sort_Sort).
Local Abbreviation Run := (Scheduler.Run time_Parse sort_Sort).
Local Abbreviation first_unparsed := (Scheduler.first_unparsed time_Parse).

Lemma first_unparsed_cons (t : Tweet) (tl : timeline) :
  first_unparsed (t :: tl) =
    match snd (CreatedAtTime t) with
    | Some e => Some e
    | None => first_unparsed tl
    end.
Proof.
  unfold Scheduler.first_unparsed. simpl.
  destruct (snd (CreatedAtTime t)) eqn:Ht; [exact Ht | reflexivity].
Qed.

Lemma mentions_spec (mentioner : option (Tweet -> option string))
  (tl : timeline) :
  mentions mentioner tl =
    match first_unparsed tl with
    | Some err => inl err
    | None => inr (Scheduler.mention_log mentioner tl)
    end.
Proof.
  induction tl as [|t tl IH].
  - destruct mentioner; reflexivity.
  - rewrite first_unparsed_cons. cbn [Fetcher.mentions]. rewrite IH.
    destruct (CreatedAtTime t) as [c [e|]]; cbn [snd]; [reflexivity|].
    destruct (first_unparsed tl); [reflexivity|].
    destruct mentioner as [Mention|]; [|reflexivity]. simpl.
    destruct (Mention t); reflexivity.
Qed.

Lemma first_unparsed_None (tl : timeline) :
  first_unparsed tl = None <-> Forall parses tl.
Proof.
  induction tl as [|t tl IH].
  - split; [constructor | reflexivity].
  - rewrite first_unparsed_cons. unfold Collected.parses in *.
    destruct (snd (CreatedAtTime t)) as [e|] eqn:Ht.
    + split; [discriminate|]. intros H. apply Forall_inv in H. congruence.
    + rewrite IH. split.
      * intros H. constructor; assumption.
      * intros H. exact (Forall_inv_tail H).
Qed.


Lemma followersTimeline_parses idsResults lookup order since tl rl :
  followersTimeline idsResults lookup order since = (tl, rl, None) ->
  Forall parses tl.
Proof.
  intros H.
  destruct (followersTimeline_success time_Parse sort_Sort sort_ok
              _ _ _ _ _ _ H) as (ids & _ & Hall & Hp & _ & _).
  apply Forall_forall. intros t Ht.
  apply (Permutation_in _ Hp), in_flat_map in Ht.
  destruct Ht as (r & Hr & Ht).
  rewrite Forall_forall in Hall.
  exact (proj1 (Forall_forall _ _)
           (fresh_of_result_parses time_Parse since r (Hall r Hr)) t Ht).
Qed.

Lemma advance_parses (latest : Time) (tl : timeline) :
  Forall parses tl ->
  advance latest tl =
    inr (match tl with [] => latest | first :: _ => created (last tl first)
         end).
Proof.
  intros Hall. unfold Fetcher.advance. destruct tl as [|first rest];
    [reflexivity|].
  assert (Hlast : parses (last (first :: rest) first)).
  { rewrite Forall_forall in Hall. apply Hall, last_In. discriminate. }
  unfold Collected.parses, Collected.created in *.
  destruct (CreatedAtTime (last (first :: rest) first)) as [t e].
  simpl in *. subst e. reflexivity.
Qed.

Lemma Run_round_spec (mentioner : option (Tweet -> option string))
  (st : botState) (w : round) :
  match followersTimeline (idsResults w) (usersLookup w) (order w)
                          (latestCreatedAt st) with
  | (_, _, Some err) => Run_round mentioner st w = Stopped err
  | (tl, rl, None) =>
      exists rateLimit,
        rl = Some rateLimit /\
        Run_round mentioner st w =
          Sleeps (mkBot rateLimit
                    (match tl with
                     | [] => latestCreatedAt st
                     | first :: _ => created (last tl first)
                     end))
                 (Run_wait (latestRateLimit st) rateLimit (now w))
                 (Scheduler.mention_log mentioner tl)
  end.
Proof.
  unfold Fetcher.Run_round.
  destruct (followersTimeline (idsResults w) (usersLookup w) (order w)
              (latestCreatedAt st)) as [[tl rl] [err|]] eqn:Hcall;
    [reflexivity|].
  pose proof (followersTimeline_parses _ _ _ _ _ _ Hcall) as Hall.
  destruct (followersTimeline_rateLimit time_Parse sort_Sort
              _ _ _ _ _ _ Hcall) as (ids & _ & _ & ->).
  eexists. split; [reflexivity|].
  rewrite mentions_spec, (proj2 (first_unparsed_None tl) Hall).
  rewrite (advance_parses _ _ Hall). reflexivity.
Qed.


(** X5: a round of [Run] ends in one of two ways. When the fetch returns
    an error the round returns that same error. When the fetch succeeds the
    round always reaches its sleep: the timestamps it parses again parse,
    the rate limit it dereferences is not nil; it prints the mentions of the
    timeline, stores the rate limit of the fetch and the creation time of
    the last tweet, and waits as computed from the stored and the new rate
    limit. *)
Theorem Run_round_outcomes (mentioner : option (Tweet -> option string))
  (st : botState) (w : round) :
  match followersTimeline (idsResults w) (usersLookup w) (order w)
                          (latestCreatedAt st) with
  | (_, _, Some err) => Run_round mentioner st w = Stopped err
  | (tl, rl, None) =>
      exists rateLimit,
        rl = Some rateLimit /\
        Run_round mentioner st w =
          Sleeps (mkBot rateLimit
                    (match tl with
                     | [] => latestCreatedAt st
                     | first :: _ => created (last tl first)
                     end))
                 (Run_wait (latestRateLimit st) rateLimit (now w))
                 (Scheduler.mention_log mentioner tl)
  end.
Proof. apply Run_round_spec. Qed.

Lemma Run_loop_trace_forward mentioner ws :
  forall st trace final,
    Run_loop mentioner st ws = (trace, final) ->
    Forall (fun st' => latestCreatedAt st <= latestCreatedAt st') trace.
Proof.
  induction ws as [|w ws IH]; intros st trace final H; simpl in H.
  - injection H as <- _. repeat constructor. lia.
  - destruct (Run_round mentioner st w) as [e| |st' mw lg] eqn:Hr;
      try (injection H as <- _; repeat constructor; lia).
    destruct (Run_loop mentioner st' ws) as [tr fin] eqn:Hl.
    injection H as <- _.
    pose proof (Run_round_forward time_Parse sort_Sort sort_ok
                  _ _ _ _ _ _ Hr) as Hfw.
    constructor; [lia|].
    specialize (IH _ _ _ Hl). revert IH. apply Forall_impl.
    intros b Hb. lia.
Qed.

(** X7: no tweet comes back in a later round. When a round has slept,
    every tweet of a fetch made by a later round was created strictly after
    every tweet of that round. *)
Theorem later_rounds_are_newer mentioner st w1 st1 maxWait logged ws trace
  final st2 w2 tl1 rl1 tl2 rl2
  (Hfirst : Run_round mentioner st w1 = Sleeps st1 maxWait logged)
  (Hloop : Run_loop mentioner st1 ws = (trace, final))
  (Hlater : In st2 trace)
  (Hcall1 : followersTimeline (idsResults w1) (usersLookup w1) (order w1)
              (latestCreatedAt st) = (tl1, rl1, None))
  (Hcall2 : followersTimeline (idsResults w2) (usersLookup w2) (order w2)
              (latestCreatedAt st2) = (tl2, rl2, None)) :
  forall t1 t2, In t1 tl1 -> In t2 tl2 -> created t1 < created t2.
Proof.
  intros t1 t2 H1 H2.
  destruct (Run_round_sleeps time_Parse sort_Sort sort_ok _ _ _ _ _ _ Hfirst)
    as (tl & rl & Hc & _ & _ & Hw).
  rewrite Hcall1 in Hc. injection Hc as <- _.
  destruct tl1 as [|first rest]; [contradiction|].
  destruct Hw as (_ & _ & Hmax).
  rewrite Forall_forall in Hmax. specialize (Hmax t1 H1).
  pose proof (Run_loop_trace_forward _ _ _ _ _ Hloop) as Hfw.
  rewrite Forall_forall in Hfw. specialize (Hfw st2 Hlater).
  pose proof (followersTimeline_after time_Parse sort_Sort sort_ok
                _ _ _ _ _ _ Hcall2) as Hafter.
  rewrite Forall_forall in Hafter. specialize (Hafter t2 H2). lia.
Qed.

Lemma Run_loop_final mentioner ws :
  forall st trace final,
    Run_loop mentioner st ws = (trace, final) ->
    match final with
    | None => length trace = S (length ws)
    | Some (Stopped err) =>
        exists st' w,
          In st' trace /\ In w ws /\
          snd (followersTimeline (idsResults w) (usersLookup w) (order w)
                 (latestCreatedAt st')) = Some err
    | Some _ => False
    end.
Proof.
  induction ws as [|w ws IH]; intros st trace final H; simpl in H.
  - injection H as <- <-. reflexivity.
  - pose proof (Run_round_spec mentioner st w) as Hspec.
    destruct (followersTimeline (idsResults w) (usersLookup w) (order w)
                (latestCreatedAt st)) as [[tl rl] [err|]] eqn:Hcall.
    + rewrite Hspec in H. injection H as <- <-.
      exists st, w. rewrite Hcall. simpl. auto.
    + destruct Hspec as (rateLimit & _ & Hr). rewrite Hr in H.
      match type of H with context [Run_loop mentioner ?s ws] =>
        destruct (Run_loop mentioner s ws) as [tr fin] eqn:Hl end.
      injection H as <- <-. specialize (IH _ _ _ Hl).
      destruct fin as [[err| |]|]; simpl; try contradiction.
      * destruct IH as (st' & w' & Hs & Hw & He).
        exists st', w'. simpl. auto.
      * now f_equal.
Qed.


(** X9: when the probe has no entry for the lookup endpoint, the first
    round that sleeps waits exactly 10 seconds, whatever the fetch
    observed, and its timeline holds only tweets created less than 15
    minutes before the start. *)
Theorem first_round_without_probe_entry mentioner Users now st0 w st'
  maxWait logged
  (Hmissing : Users "/users/lookup"%string = None)
  (Hstart : Scheduler.Run_start (inr Users) now = inr st0)
  (Hround : Run_round mentioner st0 w = Sleeps st' maxWait logged)
  (Hcount : is_uint32 (Remaining (latestRateLimit st'))) :
  maxWait = 10 /\
  exists tl rl,
    followersTimeline (idsResults w) (usersLookup w) (order w)
                      (now - 900 * Second) = (tl, rl, None) /\
    Forall (fun t => now - 900 * Second < created t) tl.
Proof.
  unfold Scheduler.Run_start in Hstart. rewrite Hmissing in Hstart.
  injection Hstart as <-.
  destruct (Run_round_sleeps time_Parse sort_Sort sort_ok _ _ _ _ _ _ Hround)
    as (tl & rl & Hc & Hrl & Hw & _).
  cbn [latestCreatedAt latestRateLimit] in Hc, Hw.
  replace (Add now (-15 * Minute)) with (now - 900 * Second) in Hc
    by (unfold Add, Minute, Second; lia).
  unfold is_uint32 in Hcount. rewrite Hrl in Hcount.
  split.
  - rewrite Hw. unfold Run_wait. change (Remaining zero) with 0.
    destruct (Z.ltb_spec 0 (0 - Remaining rl)); [lia | reflexivity].
  - exists tl, (Some rl). split; [exact Hc|].
    exact (followersTimeline_after time_Parse sort_Sort sort_ok
             _ _ _ _ _ _ Hc).
Qed.

End SchedulerProofs.

Lemma Run_round_outcomes_witness :
  Run_round Examples.parse_seconds (@Examples.insertionSort Tweet) None
    (mkBot (mkRateLimit 180 180 1900) (640 * Second))
    MoreExamples.first_round
  = Sleeps (mkBot (mkRateLimit 10 15 1900) (880 * Second)) 900 [].
Proof.
  destruct (Run_round_outcomes Examples.parse_seconds
              (@Examples.insertionSort Tweet) insertionSort_contract None
              (mkBot (mkRateLimit 180 180 1900) (640 * Second))
              MoreExamples.first_round) as (rateLimit & Hrl & H).
  vm_compute in Hrl. injection Hrl as <-.
  rewrite H. vm_compute. reflexivity.
Defined.

Lemma later_rounds_are_newer_witness :
  created Examples.parse_seconds
    (setUser (Examples.tweet "880" "baz") (Examples.user 300 "880" "baz"))
  < created Examples.parse_seconds
      (setUser (Examples.tweet "945" "new") (Examples.user 400 "945" "new")).
Proof.
  refine (later_rounds_are_newer Examples.parse_seconds
    (@Examples.insertionSort Tweet) insertionSort_contract None
    (mkBot (mkRateLimit 180 180 1900) (640 * Second))
    MoreExamples.first_round
    (mkBot (mkRateLimit 10 15 1900) (880 * Second)) 900 []
    [] [mkBot (mkRateLimit 10 15 1900) (880 * Second)] None
    (mkBot (mkRateLimit 10 15 1900) (880 * Second))
    MoreExamples.second_round
    _ (Some (mkRateLimit 10 15 1900)) _ (Some (mkRateLimit 10 13 1900))
    _ _ _ _ _ _ _ _ _).
  - vm_compute. reflexivity.
  - reflexivity.
  - left. reflexivity.
  - vm_compute. reflexivity.
  - vm_compute. reflexivity.
  - right. left. reflexivity.
  - left. reflexivity.
Defined.


Lemma first_round_without_probe_entry_witness :
  exists st' logged,
    Run_round Examples.parse_seconds (@Examples.insertionSort Tweet) None
      (mkBot zero (1540 * Second - 900 * Second)) MoreExamples.first_round
    = Sleeps st' 10 logged.
Proof.
  exists (mkBot (mkRateLimit 10 15 1900) (880 * Second)), [].
  assert (Hr : Run_round Examples.parse_seconds
                 (@Examples.insertionSort Tweet) None
                 (mkBot zero (1540 * Second - 900 * Second))
                 MoreExamples.first_round
               = Sleeps (mkBot (mkRateLimit 10 15 1900) (880 * Second))
                        (Run_wait zero (mkRateLimit 10 15 1900) 1000) [])
    by (vm_compute; reflexivity).
  assert (E : Run_wait zero (mkRateLimit 10 15 1900) 1000 = 10).
  { refine (proj1 (first_round_without_probe_entry Examples.parse_seconds
      (@Examples.insertionSort Tweet) insertionSort_contract None
      (fun _ => None) (1540 * Second) _ MoreExamples.first_round _ _ _
      eq_refl eq_refl Hr _)).
    unfold is_uint32. simpl. lia. }
  rewrite Hr, E. reflexivity.
Defined.


(** ** Where the producer puts an identifier *)

Lemma producer_nth_from (ids : list Z) (k : nat) :
  forall m,
    nth_error (producer ids m) k =
      if (m + 100 * k <? length ids)%nat
      then Some (slice ids (m + 100 * k)
                   (Nat.min (m + 100 * k + 100) (length ids)))
      else None.
Proof.
  induction k as [|k IH]; intros m.
  - replace (m + 100 * 0)%nat with m by lia.
    destruct (Nat.ltb_spec m (length ids)) as [Hlt|Hle].
    + rewrite producer_more by exact Hlt. cbn [nth_error].
      unfold slice. do 2 f_equal. lia.
    + rewrite producer_done by exact Hle. reflexivity.
  - destruct (le_lt_dec (length ids) m) as [Hle|Hlt].
    + rewrite producer_done by exact Hle. cbn [nth_error].
      destruct (Nat.ltb_spec (m + 100 * S k) (length ids));
        [lia | reflexivity].
    + rewrite producer_more by exact Hlt. cbn [nth_error].
      rewrite IH.
      replace (m + 100 + 100 * k)%nat with (m + 100 * S k)%nat by lia.
      reflexivity.
Qed.

(** X10: batch number [k] (from 0) that the producer sends is the slice
    [ids[100k : min(100k+100, N)]], and there is such a batch exactly when
    [100k < N]; so the identifier at index [p] of the list travels in batch
    [p / 100], at index [p mod 100] of it, and in no other place. *)
Theorem producer_addressing (ids : list Z) :
  (forall k,
     nth_error (producer ids 0) k =
       if (100 * k <? length ids)%nat
       then Some (slice ids (100 * k)
                    (Nat.min (100 * k + 100) (length ids)))
       else None) /\
  (forall p,
     nth_error ids p =
       match nth_error (producer ids 0) (p / 100) with
       | Some batch => nth_error batch (p mod 100)
       | None => None
       end).
Proof.
  split.
  - intros k. rewrite producer_nth_from. reflexivity.
  - intros p. rewrite producer_nth_from. cbn [Nat.add].
    pose proof (Nat.div_mod_eq p 100) as Hdm.
    pose proof (Nat.mod_upper_bound p 100 ltac:(lia)) as Hub.
    destruct (Nat.ltb_spec (100 * (p / 100)) (length ids)) as [Hlt|Hle].
    + unfold slice. rewrite nth_error_firstn, nth_error_skipn.
      destruct (Nat.ltb_spec (p mod 100)
                  (Nat.min (100 * (p / 100) + 100) (length ids)
                   - 100 * (p / 100))) as [Hin|Hout].
      * f_equal. lia.
      * apply nth_error_None. lia.
    + apply nth_error_None. lia.
Qed.

(** ** Sorted lists with distinct keys *)

Lemma sorted_perm_unique {A : Type} (key : A -> Z) (l1 : list A) :
  forall l2,
    StronglySorted (fun a b => key a <= key b) l1 ->
    StronglySorted (fun a b => key a <= key b) l2 ->
    Permutation l1 l2 -> NoDup (map key l1) -> l1 = l2.
Proof.
  induction l1 as [|x l1 IH]; intros l2 H1 H2 Hp Hnd.
  - apply Permutation_nil in Hp. now subst.
  - destruct l2 as [|y l2].
    + symmetry in Hp. apply Permutation_nil in Hp. discriminate.
    + inversion H1 as [|? ? Hs1 Hx]; subst.
      inversion H2 as [|? ? Hs2 Hy]; subst.
      rewrite Forall_forall in Hx, Hy.
      cbn [map] in Hnd. apply NoDup_cons_iff in Hnd as [Hnotin Hnd].
      assert (E : x = y).
      { assert (Hyin : In y (x :: l1))
          by (eapply Permutation_in; [symmetry; exact Hp | now left]).
        assert (Hxin : In x (y :: l2))
          by (eapply Permutation_in; [exact Hp | now left]).
        destruct Hyin as [E|Hyin]; [exact E|].
        destruct Hxin as [E|Hxin]; [symmetry; exact E|].
        exfalso. apply Hnotin.
        replace (key x) with (key y)
          by (specialize (Hx y Hyin); specialize (Hy x Hxin); lia).
        apply in_map, Hyin. }
      subst y. f_equal. apply IH; auto.
      eapply Permutation_cons_inv; exact Hp.
Qed.

Lemma Permutation_filter {A : Type} (f : A -> bool) (l l' : list A) :
  Permutation l l' -> Permutation (filter f l) (filter f l').
Proof.
  induction 1 as [|x l l' _ IH|x y l|l l' l'' _ IH1 _ IH2]; cbn [filter].
  - constructor.
  - destruct (f x); [constructor|]; exact IH.
  - destruct (f x), (f y); try reflexivity. constructor.
  - etransitivity; eassumption.
Qed.

Lemma StronglySorted_filter {A : Type} (R : A -> A -> Prop) (f : A -> bool)
  (l : list A) :
  StronglySorted R l -> StronglySorted R (filter f l).
Proof.
  induction 1 as [|x l _ IH Hx]; cbn [filter]; [constructor|].
  destruct (f x); [|exact IH]. constructor; [exact IH|].
  rewrite Forall_forall in *. intros y Hy. apply filter_In in Hy.
  apply Hx, Hy.
Qed.

Lemma NoDup_map_filter {A B : Type} (key : A -> B) (f : A -> bool)
  (l : list A) :
  NoDup (map key l) -> NoDup (map key (filter f l)).
Proof.
  induction l as [|x l IH]; cbn [map filter]; [auto|].
  intros Hnd. apply NoDup_cons_iff in Hnd as [Hnotin Hnd].
  destruct (f x); [|auto]. cbn [map]. constructor; [|auto].
  intros Hin. apply Hnotin. apply in_map_iff in Hin as (y & E & Hy).
  apply filter_In in Hy. apply in_map_iff. exists y. tauto.
Qed.

(** ** The accumulator of the rate limit *)

(** What the accumulator holds after a run of results is what it held
    before, or an observation one of them carried. *)
Lemma observe_fold_origin (out : list result) :
  forall acc,
    let final := fold_left (fun acc r => observe acc (observation r))
                           out acc in
    final = acc \/ exists r, In r out /\ observation r = Some final.
Proof.
  induction out as [|a out IH]; intros acc; cbn [fold_left].
  - left. reflexivity.
  - destruct (IH (observe acc (observation a))) as [E | (r & Hin & E)].
    + cbv zeta. rewrite E.
      destruct (observation a) as [o|] eqn:Ho; cbn [observe];
        [|left; reflexivity].
      unfold merge. destruct (replaces o acc).
      * right. exists a. split; [now left | exact Ho].
      * left. reflexivity.
    + right. exists r. split; [now right | exact E].
Qed.

(** When every observation has the reset time [R] of the accumulator, the
    accumulator keeps that reset time and ends with the least remaining
    count. *)
Lemma observe_fold_window (R : Z) (out : list result) :
  (forall r o, In r out -> observation r = Some o -> Reset o = R) ->
  forall acc, Reset acc = R ->
    let final := fold_left (fun acc r => observe acc (observation r))
                           out acc in
    Reset final = R /\ Remaining final <= Remaining acc /\
    forall r o, In r out -> observation r = Some o ->
                Remaining final <= Remaining o.
Proof.
  induction out as [|a out IH]; intros Hw acc Hacc; cbn [fold_left].
  - cbv zeta. split; [exact Hacc|]. split; [lia|]. intros r o [].
  - assert (Hstep : Reset (observe acc (observation a)) = R /\
                    Remaining (observe acc (observation a))
                    <= Remaining acc /\
                    forall o, observation a = Some o ->
                      Remaining (observe acc (observation a))
                      <= Remaining o).
    { destruct (observation a) as [o|] eqn:Ho; cbn [observe].
      - pose proof (Hw a o (or_introl eq_refl) Ho) as Ro.
        unfold merge, replaces. rewrite Ro, Hacc, Z.ltb_irrefl.
        cbn [orb].
        destruct (Z.ltb_spec (Remaining o) (Remaining acc)).
        + split; [exact Ro|]. split; [lia|].
          intros o' [= <-]. lia.
        + split; [exact Hacc|]. split; [lia|].
          intros o' [= <-]. lia.
      - split; [exact Hacc|]. split; [lia|]. discriminate. }
    destruct Hstep as (HR & Hle & Ha).
    destruct (IH (fun r o Hin => Hw r o (or_intror Hin)) _ HR)
      as (HR' & Hle' & Hall).
    cbv zeta. split; [exact HR'|]. split; [lia|].
    intros r o [<-|Hin] Ho.
    + specialize (Ha o Ho). lia.
    + exact (Hall r o Hin Ho).
Qed.

(** The same from the zero value, which the first observation of a window
    that has begun replaces. *)
Lemma observe_fold_first (R : Z) (out : list result) :
  0 < R ->
  (forall r o, In r out -> observation r = Some o -> Reset o = R) ->
  (exists r o, In r out /\ observation r = Some o) ->
  let final := fold_left (fun acc r => observe acc (observation r))
                         out zero in
  Reset final = R /\
  forall r o, In r out -> observation r = Some o ->
              Remaining final <= Remaining o.
Proof.
  intros HR. induction out as [|a out IH]; intros Hw Hex.
  - destruct Hex as (r & o & [] & _).
  - cbn [fold_left]. cbv zeta.
    destruct (observation a) as [o|] eqn:Ho; cbn [observe].
    + pose proof (Hw a o (or_introl eq_refl) Ho) as Ro.
      assert (E : merge zero o = o).
      { unfold merge, replaces. rewrite Ro. cbn [Reset zero].
        destruct (Z.ltb_spec 0 R); [reflexivity | lia]. }
      rewrite E.
      destruct (observe_fold_window R out
                  (fun r o Hin => Hw r o (or_intror Hin)) o Ro)
        as (HR' & Hle & Hall).
      split; [exact HR'|].
      intros r o' [<-|Hin] Ho'.
      * rewrite Ho in Ho'. injection Ho' as <-. exact Hle.
      * exact (Hall r o' Hin Ho').
    + assert (Hex' : exists r o, In r out /\ observation r = Some o).
      { destruct Hex as (r & o & [<-|Hin] & Hr).
        - congruence.
        - exists r, o. auto. }
      destruct (IH (fun r o Hin => Hw r o (or_intror Hin)) Hex')
        as (HR' & Hall).
      split; [exact HR'|].
      intros r o [<-|Hin] Hr; [congruence|].
      exact (Hall r o Hin Hr).
Qed.

Lemma In_arrivals (lookup : list Z -> result) (batches : list (list Z))
  (order : list nat) (r : result) :
  In r (arrivals lookup batches order) <->
  exists k, In k order /\ r = lookup (nth k batches []).
Proof.
  unfold arrivals. rewrite in_map_iff. split.
  - intros (k & <- & Hk). exists k. auto.
  - intros (k & Hk & ->). exists k. auto.
Qed.

(** ** More on [followersTimeline] *)

Section FetcherMore.

Variable time_Parse : string -> Time * option error.
Variable sort_Sort : (Tweet -> Tweet -> bool) -> list Tweet -> list Tweet.
Hypothesis sort_ok : sort_contract sort_Sort.

Local Abbreviation CreatedAtTime := (CreatedAtTime time_Parse).
Local Abbreviation followersTimeline :=
  (followersTimeline time_Parse sort_Sort).
Local Abbreviation created := (created time_Parse).
Local Abbreviation parses := (parses time_Parse).
Local Abbreviation fresh_of_user := (fresh_of_user time_Parse).
Local Abbreviation fresh_of_result := (fresh_of_result time_Parse).
Local Abbreviation parse_failure := (parse_failure time_Parse).
Local Abbreviation failure := (failure time_Parse).

Lemma healthy_any_order ids lookup order1 order2 :
  Permutation order1 (seq 0 (length (producer ids 0))) ->
  Permutation order2 (seq 0 (length (producer ids 0))) ->
  Forall (fun r => failure r = None)
         (arrivals lookup (producer ids 0) order1) ->
  Forall (fun r => failure r = None)
         (arrivals lookup (producer ids 0) order2).
Proof.
  intros H1 H2 HF. rewrite Forall_forall in *. intros r Hin. apply HF.
  eapply Permutation_in; [|exact Hin].
  etransitivity; [apply arrivals_Permutation, H2|].
  symmetry. apply arrivals_Permutation, H1.
Qed.

(** X11: the order in which the workers' results arrive decides neither
    whether the call succeeds nor which tweets it returns: if the call
    succeeds for one arrival order it succeeds for every other, with the
    same tweets; and when the tweets returned have pairwise distinct
    creation times the two timelines are the same list. Only tweets created
    at the same instant can change places. *)
Theorem arrival_order_only_moves_ties ids lookup order1 order2 since tl1 rl1
  (Horder1 : Permutation order1 (seq 0 (length (producer ids 0))))
  (Horder2 : Permutation order2 (seq 0 (length (producer ids 0))))
  (Hcall : followersTimeline (inr ids) lookup order1 since
             = (tl1, rl1, None)) :
  exists tl2 rl2,
    followersTimeline (inr ids) lookup order2 since
      = (tl2, Some rl2, None) /\
    Permutation tl1 tl2 /\
    (NoDup (map created tl1) -> tl1 = tl2).
Proof.
  destruct (followersTimeline_success time_Parse sort_Sort sort_ok
              _ _ _ _ _ _ Hcall) as (ids' & [= <-] & H1).
  cbv zeta in H1. destruct H1 as (Hall1 & Hp1 & Hs1 & _).
  pose proof (healthy_any_order ids lookup order1 order2 Horder1 Horder2
                Hall1) as Hall2.
  destruct (followersTimeline_succeeds time_Parse sort_Sort sort_ok
              ids lookup order2 since Hall2) as (tl2 & rl2 & Hcall2).
  exists tl2, rl2. split; [exact Hcall2|].
  destruct (followersTimeline_success time_Parse sort_Sort sort_ok
              _ _ _ _ _ _ Hcall2) as (ids' & [= <-] & H2).
  cbv zeta in H2. destruct H2 as (_ & Hp2 & Hs2 & _).
  assert (Hp : Permutation tl1 tl2).
  { rewrite Hp1, Hp2. apply Permutation_flat_map.
    etransitivity; [apply arrivals_Permutation, Horder1|].
    symmetry. apply arrivals_Permutation, Horder2. }
  split; [exact Hp|].
  intros Hnd. exact (sorted_perm_unique created tl1 tl2 Hs1 Hs2 Hp Hnd).
Qed.

(** X12: the rate limit a successful call returns is never a mixture of
    several observations: it is the zero value, or it is, field for field,
    the observation carried by one of the results received. *)
Theorem rateLimit_is_one_observation idsResults lookup order since tl rl
  (Hcall : followersTimeline idsResults lookup order since
             = (tl, rl, None)) :
  exists ids r0,
    idsResults = inr ids /\ rl = Some r0 /\
    (r0 = zero \/
     exists k, In k order /\
       observation (lookup (nth k (producer ids 0) [])) = Some r0).
Proof.
  destruct (followersTimeline_rateLimit time_Parse sort_Sort
              _ _ _ _ _ _ Hcall) as (ids & -> & _ & ->).
  eexists ids, _. split; [reflexivity|]. split; [reflexivity|].
  destruct (observe_fold_origin
              (arrivals lookup (producer ids 0) order) zero)
    as [E | (r & Hin & E)].
  - left. exact E.
  - right. apply In_arrivals in Hin as (k & Hk & ->). exists k. auto.
Qed.

(** X13: when all the observations received belong to one rate-limit
    window that has begun (they have the same reset time, after the epoch)
    and there is at least one, the rate limit returned is one of them, with
    that reset time and the least remaining count of all; these two fields
    do not depend on the arrival order. *)
Theorem rateLimit_within_one_window ids lookup order since tl rl R
  (HR : 0 < R)
  (Hwindow : forall k o, In k order ->
     observation (lookup (nth k (producer ids 0) [])) = Some o ->
     Reset o = R)
  (Hsome : exists k o, In k order /\
     observation (lookup (nth k (producer ids 0) [])) = Some o)
  (Hcall : followersTimeline (inr ids) lookup order since
             = (tl, Some rl, None)) :
  Reset rl = R /\
  (exists k, In k order /\
     observation (lookup (nth k (producer ids 0) [])) = Some rl) /\
  (forall k o, In k order ->
     observation (lookup (nth k (producer ids 0) [])) = Some o ->
     Remaining rl <= Remaining o).
Proof.
  destruct (followersTimeline_rateLimit time_Parse sort_Sort
              _ _ _ _ _ _ Hcall) as (ids' & [= <-] & _ & [= ->]).
  destruct (observe_fold_first R (arrivals lookup (producer ids 0) order) HR)
    as (HR' & Hmin).
  { intros r o Hin Ho. apply In_arrivals in Hin as (k & Hk & ->).
    exact (Hwindow k o Hk Ho). }
  { destruct Hsome as (k & o & Hk & Ho).
    exists (lookup (nth k (producer ids 0) [])), o.
    split; [|exact Ho]. apply In_arrivals. exists k. auto. }
  split; [exact HR'|]. split.
  - destruct (observe_fold_origin
                (arrivals lookup (producer ids 0) order) zero)
      as [E | (r & Hin & E)].
    + rewrite E in HR'. cbn [Reset zero] in HR'. lia.
    + apply In_arrivals in Hin as (k & Hk & ->). exists k. auto.
  - intros k o Hk Ho. apply (Hmin (lookup (nth k (producer ids 0) [])) o).
    + apply In_arrivals. exists k. auto.
    + exact Ho.
Qed.

Lemma fresh_of_user_later (since1 since2 : Time) (user : User) :
  since1 <= since2 ->
  fresh_of_user since2 user =
    filter (fun t => since2 <? created t) (fresh_of_user since1 user).
Proof.
  intros Hle. unfold Collected.fresh_of_user.
  destruct (Status user) as [tweet|]; [|reflexivity].
  destruct (Z.ltb_spec since1 (created tweet)) as [H1|H1];
    destruct (Z.ltb_spec since2 (created tweet)) as [H2|H2];
    cbn [filter]; try rewrite created_setUser.
  - destruct (Z.ltb_spec since2 (created tweet)); [reflexivity | lia].
  - destruct (Z.ltb_spec since2 (created tweet)); [lia | reflexivity].
  - lia.
  - reflexivity.
Qed.

Lemma fresh_of_results_later (since1 since2 : Time) (out : list result) :
  since1 <= since2 ->
  flat_map (fresh_of_result since2) out =
    filter (fun t => since2 <? created t)
           (flat_map (fresh_of_result since1) out).
Proof.
  intros Hle. induction out as [|r out IH]; [reflexivity|].
  cbn [flat_map]. rewrite filter_app, IH. f_equal.
  destruct r as [e|apiResult]; [reflexivity|].
  unfold Collected.fresh_of_result.
  induction (results apiResult) as [|u us IHu]; [reflexivity|].
  cbn [flat_map]. rewrite filter_app, IHu.
  rewrite (fresh_of_user_later since1 since2 u Hle). reflexivity.
Qed.

(** X14: asking for a later [since] only removes tweets. If the call
    succeeds for [since1] then, with the same answers arriving in the same
    order, it succeeds for every later [since2], with the same rate limit
    and with the tweets of the first timeline created strictly after
    [since2]; when creation times are pairwise distinct the second timeline
    is the first one filtered. *)
Theorem later_since_filters ids lookup order since1 since2 tl1 rl
  (Hle : since1 <= since2)
  (Hcall : followersTimeline (inr ids) lookup order since1
             = (tl1, rl, None)) :
  exists tl2,
    followersTimeline (inr ids) lookup order since2 = (tl2, rl, None) /\
    Permutation tl2 (filter (fun t => since2 <? created t) tl1) /\
    (NoDup (map created tl1) ->
     tl2 = filter (fun t => since2 <? created t) tl1).
Proof.
  destruct (followersTimeline_success time_Parse sort_Sort sort_ok
              _ _ _ _ _ _ Hcall) as (ids' & [= <-] & H1).
  cbv zeta in H1. destruct H1 as (Hall & Hp1 & Hs1 & Hrl1).
  destruct (followersTimeline_succeeds time_Parse sort_Sort sort_ok
              ids lookup order since2 Hall) as (tl2 & rl2 & Hcall2).
  destruct (followersTimeline_success time_Parse sort_Sort sort_ok
              _ _ _ _ _ _ Hcall2) as (ids' & [= <-] & H2).
  cbv zeta in H2. destruct H2 as (_ & Hp2 & Hs2 & Hrl2).
  exists tl2. rewrite Hcall2, Hrl2, Hrl1.
  split; [reflexivity|].
  assert (Hp : Permutation tl2 (filter (fun t => since2 <? created t) tl1)).
  { rewrite Hp2, (fresh_of_results_later since1 since2 _ Hle).
    apply Permutation_filter. symmetry. exact Hp1. }
  split; [exact Hp|].
  intros Hnd. symmetry.
  apply (sorted_perm_unique created).
  - apply StronglySorted_filter, Hs1.
  - exact Hs2.
  - symmetry. exact Hp.
  - apply NoDup_map_filter, Hnd.
Qed.

(** X15: whether the call fails, and with which error, does not depend on
    [since]: the timestamp of every tweet received is parsed before it is
    compared with [since], so a timestamp that does not parse fails the
    call even when its tweet is older than [since] and would have been
    left out. The rate limit returned does not depend on [since] either. *)
Theorem error_independent_of_since idsResults lookup order :
  (forall since1 since2,
     snd (followersTimeline idsResults lookup order since1)
     = snd (followersTimeline idsResults lookup order since2) /\
     snd (fst (followersTimeline idsResults lookup order since1))
     = snd (fst (followersTimeline idsResults lookup order since2))) /\
  (forall ids k apiResult user tweet e since,
     idsResults = inr ids -> In k order ->
     lookup (nth k (producer ids 0) []) = Looked apiResult ->
     In user (results apiResult) -> Status user = Some tweet ->
     snd (CreatedAtTime tweet) = Some e ->
     exists e',
       followersTimeline idsResults lookup order since
       = ([], None, Some e')).
Proof.
  assert (Hcases : forall ids since,
    (Forall (fun r => failure r = None)
            (arrivals lookup (producer ids 0) order) /\
     exists tl,
       followersTimeline (inr ids) lookup order since
       = (tl, Some (fold_left (fun acc r => observe acc (observation r))
                      (arrivals lookup (producer ids 0) order) zero),
          None)) \/
    (exists pre r post e,
       arrivals lookup (producer ids 0) order = pre ++ r :: post /\
       Forall (fun r => failure r = None) pre /\ failure r = Some e /\
       followersTimeline (inr ids) lookup order since
       = ([], None, Some e))).
  { intros ids since.
    destruct (first_failure_split time_Parse
                (arrivals lookup (producer ids 0) order))
      as [Hall | (pre & r & post & e & Harr & Hpre & Hr)].
    - left. split; [exact Hall|].
      destruct (followersTimeline_succeeds time_Parse sort_Sort sort_ok
                  ids lookup order since Hall) as (tl & rl & Hcall).
      destruct (followersTimeline_rateLimit time_Parse sort_Sort
                  _ _ _ _ _ _ Hcall) as (ids' & [= <-] & _ & E).
      exists tl. rewrite Hcall, E. reflexivity.
    - right. exists pre, r, post, e. repeat split; try assumption.
      unfold Fetcher.followersTimeline, Fetcher.followersTimeline_full.
      rewrite Harr, (collect_first_failure time_Parse since pre post r e
                       Hpre Hr).
      reflexivity. }
  split.
  - intros since1 since2. destruct idsResults as [e|ids]; [auto|].
    destruct (Hcases ids since1)
      as [(Hall & tl1 & E1) | (pre & r & post & e & Harr & Hpre & Hr & E1)];
      destruct (Hcases ids since2)
        as [(Hall2 & tl2 & E2)
           | (pre2 & r2 & post2 & e2 & Harr2 & Hpre2 & Hr2 & E2)];
      rewrite E1, E2; cbn [fst snd]; auto.
    + exfalso. rewrite Harr2 in Hall.
      apply Forall_app in Hall as [_ Hall].
      apply Forall_inv in Hall. congruence.
    + exfalso. rewrite Harr in Hall2.
      apply Forall_app in Hall2 as [_ Hall2].
      apply Forall_inv in Hall2. congruence.
    + assert (Hsame : pre = pre2 /\ r = r2).
      { clear E1 E2. rewrite Harr in Harr2. clear Harr.
        revert pre2 Harr2 Hpre2.
        induction Hpre as [|x pre Hx _ IH]; intros pre2 Harr2 Hpre2.
        - destruct pre2 as [|y pre2]; cbn [app] in Harr2.
          + injection Harr2 as -> _. auto.
          + injection Harr2 as <- _. apply Forall_inv in Hpre2.
            congruence.
        - destruct pre2 as [|y pre2]; cbn [app] in Harr2.
          + injection Harr2 as <- _. congruence.
          + injection Harr2 as <- Harr2.
            apply Forall_inv_tail in Hpre2.
            destruct (IH pre2 Harr2 Hpre2) as [-> ->]. auto. }
      destruct Hsame as [_ <-]. split; [congruence | reflexivity].
  - intros ids k apiResult user tweet e since -> Hk Hlook Hin Hst He.
    destruct (Hcases ids since)
      as [(Hall & _) | (pre & r & post & e' & _ & _ & _ & E)].
    + exfalso. rewrite Forall_forall in Hall.
      assert (Hf : failure (lookup (nth k (producer ids 0) [])) = None).
      { apply Hall, In_arrivals. exists k. auto. }
      rewrite Hlook in Hf. cbn [Collected.failure] in Hf.
      pose proof (parse_failure_None time_Parse _ Hf user tweet Hin Hst)
        as Hp.
      unfold Collected.parses in Hp. congruence.
    + exists e'. exact E.
Qed.

(** X16: the expectation of [TestFollowersTimeline], for any clock, any
    timestamp format and any sort that meets the contract: when the
    followers fit one batch and the lookup answers three users whose
    latest tweets parse, the second no later than [since] and the first
    and the third after it in that order, the call returns exactly the
    first and the third tweet, in that order and each with its user
    attached, the observation of the answer when its reset time is after
    the epoch, and no error. *)
Theorem followersTimeline_test_expectation ids lookup since
  (foo bar baz : Tweet) (u1 u2 u3 : User) (obs : rateLimitStatus)
  (Hids : (0 < length ids <= 100)%nat)
  (Hlookup : lookup ids = Looked (mkApiResult (Some obs) [u1; u2; u3]))
  (H1 : Status u1 = Some foo) (H2 : Status u2 = Some bar)
  (H3 : Status u3 = Some baz)
  (Hfoo : parses foo) (Hbar : parses bar) (Hbaz : parses baz)
  (Htimes : created bar <= since /\ since < created foo /\
            created foo < created baz)
  (Hreset : 0 < Reset obs) :
  followersTimeline (inr ids) lookup [0%nat] since
  = ([setUser foo u1; setUser baz u3], Some obs, None).
Proof.
  assert (Hbatches : producer ids 0 = [ids]).
  { rewrite producer_more by lia.
    rewrite producer_done by (cbn [Nat.add]; lia).
    rewrite Nat.sub_0_r, Nat.min_r by lia.
    cbn [skipn]. rewrite firstn_all. reflexivity. }
  assert (Harr : arrivals lookup (producer ids 0) [0%nat]
                 = [Looked (mkApiResult (Some obs) [u1; u2; u3])]).
  { rewrite Hbatches. unfold arrivals. cbn [map nth]. rewrite Hlookup.
    reflexivity. }
  assert (Hall : Forall (fun r => failure r = None)
                        (arrivals lookup (producer ids 0) [0%nat])).
  { rewrite Harr. constructor; [|constructor].
    unfold Collected.parses in Hfoo, Hbar, Hbaz.
    cbn [Collected.failure Collected.parse_failure results].
    rewrite H1, Hfoo, H2, Hbar, H3, Hbaz. reflexivity. }
  destruct (followersTimeline_succeeds time_Parse sort_Sort sort_ok
              ids lookup [0%nat] since Hall) as (tl & rl & Hcall).
  destruct (followersTimeline_success time_Parse sort_Sort sort_ok
              _ _ _ _ _ _ Hcall) as (ids' & [= <-] & H).
  cbv zeta in H. destruct H as (_ & Hp & Hs & Hrl).
  rewrite Hcall. rewrite Harr in Hp, Hrl.
  assert (Hfresh : flat_map (fresh_of_result since)
                     [Looked (mkApiResult (Some obs) [u1; u2; u3])]
                   = [setUser foo u1; setUser baz u3]).
  { cbn [flat_map Collected.fresh_of_result results app].
    unfold Collected.fresh_of_user. rewrite H1, H2, H3.
    destruct (Z.ltb_spec since (created foo)); [|lia].
    destruct (Z.ltb_spec since (created bar)); [lia|].
    destruct (Z.ltb_spec since (created baz)); [|lia].
    reflexivity. }
  rewrite Hfresh in Hp.
  assert (Htl : [setUser foo u1; setUser baz u3] = tl).
  { apply (sorted_perm_unique created).
    - repeat constructor. rewrite !created_setUser. lia.
    - exact Hs.
    - symmetry. exact Hp.
    - cbn [map]. rewrite !created_setUser.
      repeat constructor; cbn [In]; [lia | tauto]. }
  injection Hrl as ->. cbn [fold_left observation rateLimit observe].
  unfold merge, replaces. cbn [Reset zero].
  destruct (Z.ltb_spec 0 (Reset obs)); [|lia].
  cbn [orb]. rewrite Htl. reflexivity.
Qed.

End FetcherMore.

Lemma arrival_order_only_moves_ties_witness :
  exists tl2 rl2,
    Fetcher.followersTimeline Examples.parse_seconds
      (@Examples.insertionSort Tweet) (inr Examples.two_batches)
      Examples.lookup_two [1%nat; 0%nat] (640 * Second)
    = (tl2, Some rl2, None).
Proof.
  destruct (arrival_order_only_moves_ties Examples.parse_seconds
              (@Examples.insertionSort Tweet) insertionSort_contract
              Examples.two_batches Examples.lookup_two
              [0%nat; 1%nat] [1%nat; 0%nat] (640 * Second)
              (fst (fst (Fetcher.followersTimeline Examples.parse_seconds
                 (@Examples.insertionSort Tweet) (inr Examples.two_batches)
                 Examples.lookup_two [0%nat; 1%nat] (640 * Second))))
              (snd (fst (Fetcher.followersTimeline Examples.parse_seconds
                 (@Examples.insertionSort Tweet) (inr Examples.two_batches)
                 Examples.lookup_two [0%nat; 1%nat] (640 * Second)))))
    as (tl2 & rl2 & H & _).
  - vm_compute. repeat constructor.
  - vm_compute. apply perm_swap.
  - vm_compute. reflexivity.
  - exists tl2, rl2. exact H.
Defined.

Lemma rateLimit_is_one_observation_witness :
  exists r0,
    snd (fst (Fetcher.followersTimeline Examples.parse_seconds
                (@Examples.insertionSort Tweet) (inr Examples.two_batches)
                Examples.lookup_two [0%nat; 1%nat] 0)) = Some r0.
Proof.
  destruct (rateLimit_is_one_observation Examples.parse_seconds
              (@Examples.insertionSort Tweet) (inr Examples.two_batches)
              Examples.lookup_two [0%nat; 1%nat] 0
              (fst (fst (Fetcher.followersTimeline Examples.parse_seconds
                 (@Examples.insertionSort Tweet) (inr Examples.two_batches)
                 Examples.lookup_two [0%nat; 1%nat] 0)))
              (snd (fst (Fetcher.followersTimeline Examples.parse_seconds
                 (@Examples.insertionSort Tweet) (inr Examples.two_batches)
                 Examples.lookup_two [0%nat; 1%nat] 0))))
    as (ids & r0 & _ & H & _).
  - vm_compute. reflexivity.
  - exists r0. exact H.
Defined.

Lemma rateLimit_within_one_window_witness :
  Reset (mkRateLimit 10 14 1900) = 1900 /\
  Remaining (mkRateLimit 10 14 1900) <= Remaining (mkRateLimit 10 15 1900).
Proof.
  destruct (rateLimit_within_one_window Examples.parse_seconds
              (@Examples.insertionSort Tweet) Examples.two_batches
              Examples.lookup_two [0%nat; 1%nat] 0
              (fst (fst (Fetcher.followersTimeline Examples.parse_seconds
                 (@Examples.insertionSort Tweet) (inr Examples.two_batches)
                 Examples.lookup_two [0%nat; 1%nat] 0)))
              (mkRateLimit 10 14 1900) 1900) as (HR & _ & Hmin).
  - lia.
  - intros k o [<-|[<-|[]]]; vm_compute; intros [= <-]; reflexivity.
  - exists 0%nat, (mkRateLimit 10 15 1900).
    split; [now left | vm_compute; reflexivity].
  - vm_compute. reflexivity.
  - split; [exact HR|].
    apply (Hmin 0%nat); [now left | vm_compute; reflexivity].
Defined.

Lemma later_since_filters_witness :
  exists tl2,
    Fetcher.followersTimeline Examples.parse_seconds
      (@Examples.insertionSort Tweet) (inr Examples.two_batches)
      Examples.lookup_two [0%nat; 1%nat] (700 * Second)
    = (tl2, Some (mkRateLimit 10 14 1900), None).
Proof.
  destruct (later_since_filters Examples.parse_seconds
              (@Examples.insertionSort Tweet) insertionSort_contract
              Examples.two_batches Examples.lookup_two [0%nat; 1%nat]
              (640 * Second) (700 * Second)
              (fst (fst (Fetcher.followersTimeline Examples.parse_seconds
                 (@Examples.insertionSort Tweet) (inr Examples.two_batches)
                 Examples.lookup_two [0%nat; 1%nat] (640 * Second))))
              (Some (mkRateLimit 10 14 1900)))
    as (tl2 & H & _).
  - unfold Second. lia.
  - vm_compute. reflexivity.
  - exists tl2. exact H.
Defined.

Lemma error_independent_of_since_witness :
  snd (Fetcher.followersTimeline Examples.parse_seconds
         (@Examples.insertionSort Tweet) (inr Examples.two_batches)
         Examples.lookup_failing [1%nat; 0%nat] 0)
  = snd (Fetcher.followersTimeline Examples.parse_seconds
           (@Examples.insertionSort Tweet) (inr Examples.two_batches)
           Examples.lookup_failing [1%nat; 0%nat] (900 * Second)).
Proof.
  exact (proj1 (proj1 (error_independent_of_since Examples.parse_seconds
                         (@Examples.insertionSort Tweet)
                         insertionSort_contract (inr Examples.two_batches)
                         Examples.lookup_failing [1%nat; 0%nat])
                 0 (900 * Second))).
Defined.

Lemma followersTimeline_test_expectation_witness :
  Fetcher.followersTimeline Examples.parse_seconds
    (@Examples.insertionSort Tweet) (inr [100; 200; 300])
    (fun _ => Looked Examples.three_users) [0%nat] (640 * Second)
  = ([setUser (Examples.tweet "700" "foo") (Examples.user 100 "700" "foo");
      setUser (Examples.tweet "880" "baz") (Examples.user 300 "880" "baz")],
     Some (mkRateLimit 10 15 1900), None).
Proof.
  refine (followersTimeline_test_expectation Examples.parse_seconds
            (@Examples.insertionSort Tweet) insertionSort_contract
            [100; 200; 300] (fun _ => Looked Examples.three_users)
            (640 * Second)
            (Examples.tweet "700" "foo") (Examples.tweet "520" "bar")
            (Examples.tweet "880" "baz")
            (Examples.user 100 "700" "foo") (Examples.user 200 "520" "bar")
            (Examples.user 300 "880" "baz") (mkRateLimit 10 15 1900)
            _ eq_refl eq_refl eq_refl eq_refl _ _ _ _ _).
  - cbn [length]. lia.
  - vm_compute. reflexivity.
  - vm_compute. reflexivity.
  - vm_compute. reflexivity.
  - repeat split; vm_compute; (reflexivity || discriminate).
  - cbn [Reset]. lia.
Defined.


(** ** More on the identifier store *)

Lemma swap_nth_error_full {A : Type} (a : list A) (i j k : nat) :
  (i < length a)%nat -> (j < length a)%nat ->
  nth_error (swap a i j) k =
    if (k =? i)%nat then nth_error a j
    else if (k =? j)%nat then nth_error a i
    else nth_error a k.
Proof.
  intros Hi Hj.
  destruct (nth_error a i) as [x|] eqn:Ex;
    [|apply nth_error_None in Ex; lia].
  destruct (nth_error a j) as [y|] eqn:Ey;
    [|apply nth_error_None in Ey; lia].
  destruct (swap_nth_error a i j x y Ex Ey) as (H1 & H2 & H3).
  destruct (Nat.eqb_spec k i) as [->|Hki]; [exact H1|].
  destruct (Nat.eqb_spec k j) as [->|Hkj]; [exact H2|].
  apply H3; assumption.
Qed.

Lemma swap_skipn {A : Type} (a : list A) (i j : nat) :
  (j <= i < length a)%nat -> skipn (S i) (swap a i j) = skipn (S i) a.
Proof.
  intros H. apply nth_error_ext. intros k.
  rewrite !nth_error_skipn, swap_nth_error_full by lia.
  destruct (Nat.eqb_spec (S i + k) i); [lia|].
  destruct (Nat.eqb_spec (S i + k) j); [lia|]. reflexivity.
Qed.

Lemma swap_firstn {A : Type} (a : list A) (i j : nat) :
  (j <= i < length a)%nat ->
  firstn (S i) (swap a i j) = swap (firstn (S i) a) i j.
Proof.
  intros H. apply nth_error_ext. intros k.
  rewrite nth_error_firstn.
  rewrite (swap_nth_error_full (firstn (S i) a))
    by (rewrite length_firstn; lia).
  rewrite swap_nth_error_full by lia.
  rewrite !nth_error_firstn.
  destruct (Nat.ltb_spec k (S i)); destruct (Nat.eqb_spec k i);
    destruct (Nat.eqb_spec k j); try lia;
    destruct (Nat.ltb_spec j (S i)); destruct (Nat.ltb_spec i (S i));
    try lia; reflexivity.
Qed.

Lemma firstn_snoc {A : Type} (l : list A) :
  forall i x, nth_error l i = Some x -> firstn (S i) l = firstn i l ++ [x].
Proof.
  induction l as [|y l IH]; intros [|i] x H; cbn [nth_error] in H;
    try discriminate.
  - injection H as ->. reflexivity.
  - cbn [firstn app]. f_equal. apply IH, H.
Qed.

Lemma skipn_cons {A : Type} (l : list A) :
  forall i x, nth_error l i = Some x -> skipn i l = x :: skipn (S i) l.
Proof.
  induction l as [|y l IH]; intros [|i] x H; cbn [nth_error] in H;
    try discriminate.
  - injection H as ->. reflexivity.
  - cbn [skipn]. apply IH, H.
Qed.

Lemma NoDup_firstn {A : Type} (n : nat) (l : list A) :
  NoDup l -> NoDup (firstn n l).
Proof.
  intros H. rewrite <- (firstn_skipn n l) in H.
  apply NoDup_app_remove_r in H. exact H.
Qed.

Lemma incl_firstn {A : Type} (n : nat) (l : list A) : incl (firstn n l) l.
Proof.
  intros x Hx. rewrite <- (firstn_skipn n l). apply in_or_app. now left.
Qed.

Lemma scripted_Intn_in_range :
  IdsStore.Intn_in_range (list nat) Picks.scripted_Intn.
Proof.
  intros [|j r] n Hn; cbn [Picks.scripted_Intn fst]; [exact Hn|].
  apply Nat.mod_upper_bound. lia.
Qed.

Section StoreProofs.

Variable rng : Type.
Variable Intn : rng -> nat -> nat * rng.

Local Abbreviation shuffle := (IdsStore.shuffle rng Intn).
Local Abbreviation pickIds := (IdsStore.pickIds rng Intn).
Local Abbreviation draws := (Picks.draws rng Intn).

(** Whatever is drawn, a shuffle that does not panic permutes the array. *)
Lemma shuffle_Permutation (k : nat) :
  forall g a a' g', shuffle k g a = Some (a', g') -> Permutation a' a.
Proof.
  induction k as [|i IH]; intros g a a' g' H; cbn [IdsStore.shuffle] in H.
  - injection H as <- _. reflexivity.
  - destruct (Intn g (i + 1)) as [j g1].
    destruct ((i <? length a) && (j <? length a))%nat; [|discriminate].
    rewrite (IH _ _ _ _ H). apply swap_Permutation.
Qed.

(** The array after the shuffle depends on the source only through the
    numbers drawn. *)
Lemma shuffle_by_draws (k : nat) :
  forall g1 g2 a,
    draws k g1 = draws k g2 ->
    option_map fst (shuffle k g1 a) = option_map fst (shuffle k g2 a).
Proof.
  induction k as [|i IH]; intros g1 g2 a H;
    cbn [IdsStore.shuffle Picks.draws] in *; [reflexivity|].
  destruct (Intn g1 (i + 1)) as [j1 g1'].
  destruct (Intn g2 (i + 1)) as [j2 g2'].
  injection H as -> H.
  destruct ((i <? length a) && (j2 <? length a))%nat; [|reflexivity].
  apply IH, H.
Qed.

Hypothesis Intn_ok : IdsStore.Intn_in_range rng Intn.

(** The loop at [i] leaves the positions after [i] alone. *)
Lemma shuffle_tail (k : nat) :
  forall g a b g', shuffle k g a = Some (b, g') ->
  forall p, (k <= p)%nat -> nth_error b p = nth_error a p.
Proof.
  induction k as [|i IH]; intros g a b g' H p Hp;
    cbn [IdsStore.shuffle] in H.
  - injection H as <- _. reflexivity.
  - pose proof (Intn_ok g (i + 1)%nat ltac:(lia)) as Hj.
    destruct (Intn g (i + 1)) as [j g1]. cbn [fst] in Hj.
    destruct (Nat.ltb_spec i (length a)); [|discriminate].
    destruct (Nat.ltb_spec j (length a)); [|discriminate].
    cbn [andb] in H.
    rewrite (IH _ _ _ _ H p) by lia.
    rewrite swap_nth_error_full by assumption.
    destruct (Nat.eqb_spec p i); [lia|].
    destruct (Nat.eqb_spec p j); [lia|]. reflexivity.
Qed.

Lemma shuffle_draws_injective (k : nat) :
  forall g1 g2 a b g1' g2',
    NoDup a ->
    shuffle k g1 a = Some (b, g1') -> shuffle k g2 a = Some (b, g2') ->
    draws k g1 = draws k g2.
Proof.
  induction k as [|i IH]; intros g1 g2 a b g1' g2' Hnd H1 H2;
    [reflexivity|].
  cbn [IdsStore.shuffle Picks.draws] in *.
  pose proof (Intn_ok g1 (i + 1)%nat ltac:(lia)) as Hj1.
  pose proof (Intn_ok g2 (i + 1)%nat ltac:(lia)) as Hj2.
  destruct (Intn g1 (i + 1)) as [j1 g1a].
  destruct (Intn g2 (i + 1)) as [j2 g2a]. cbn [fst] in Hj1, Hj2.
  destruct (Nat.ltb_spec i (length a)) as [Hi|]; [|discriminate].
  destruct (Nat.ltb_spec j1 (length a)) as [Hl1|]; [|discriminate].
  destruct (Nat.ltb_spec j2 (length a)) as [Hl2|]; [|discriminate].
  cbn [andb] in H1, H2.
  assert (Hi1 : nth_error b i = nth_error a j1).
  { rewrite (shuffle_tail _ _ _ _ _ H1 i (le_n _)).
    rewrite swap_nth_error_full by assumption.
    rewrite Nat.eqb_refl. reflexivity. }
  assert (Hi2 : nth_error b i = nth_error a j2).
  { rewrite (shuffle_tail _ _ _ _ _ H2 i (le_n _)).
    rewrite swap_nth_error_full by assumption.
    rewrite Nat.eqb_refl. reflexivity. }
  assert (E : j1 = j2).
  { apply (proj1 (NoDup_nth_error a) Hnd); [exact Hl1 | congruence]. }
  subst j2. f_equal.
  apply (IH g1a g2a (swap a i j1) b g1' g2'); try assumption.
  apply (Permutation_NoDup (l := a)); [|exact Hnd].
  symmetry. apply swap_Permutation.
Qed.

(** X17: storing identifiers and picking them again. [setIds] forgets what
    the store held and sets the expiry [d] after now, 15 minutes after it
    when [d] is 0. A pick after the expiry returns nothing and draws no
    number; a pick up to and at the expiry returns the first 1000
    identifiers of a rearrangement of those stored: only stored
    identifiers, none twice if none was stored twice, and all of them when
    at most 1000 were stored. A negative [d] stores identifiers that have
    expired already. *)
Theorem setIds_then_pickIds (now t : Time) (g : rng)
  (store0 : IdsStore.idsStore) (new_ids : list Z) (d : Duration) :
  let ttl := if d =? 0 then 15 * Minute else d in
  let store := IdsStore.setIds now store0 new_ids d in
  store = IdsStore.mkStore (now + ttl) new_ids /\
  (now + ttl < t -> pickIds t g store = Some ([], g, store)) /\
  (t <= now + ttl ->
   exists picked g' store',
     pickIds t g store = Some (picked, g', store') /\
     IdsStore.expires store' = now + ttl /\
     Permutation (IdsStore.ids store') new_ids /\
     picked = firstn 1000 (IdsStore.ids store') /\
     incl picked new_ids /\
     (NoDup new_ids -> NoDup picked) /\
     ((length new_ids <= 1000)%nat -> Permutation picked new_ids)) /\
  (d < 0 -> now <= t -> pickIds t g store = Some ([], g, store)).
Proof.
  cbv zeta.
  assert (Hset : IdsStore.setIds now store0 new_ids d
                 = IdsStore.mkStore
                     (now + if d =? 0 then 15 * Minute else d) new_ids)
    by reflexivity.
  rewrite Hset. set (ttl := if d =? 0 then 15 * Minute else d).
  assert (Hexpired : now + ttl < t ->
            pickIds t g (IdsStore.mkStore (now + ttl) new_ids)
            = Some ([], g, IdsStore.mkStore (now + ttl) new_ids)).
  { intros Hlt. unfold IdsStore.pickIds, After. cbn [IdsStore.expires].
    destruct (Z.ltb_spec (now + ttl) t); [reflexivity | lia]. }
  split; [reflexivity|]. split; [exact Hexpired|]. split.
  - intros Hle. unfold IdsStore.pickIds, After.
    cbn [IdsStore.expires IdsStore.ids].
    destruct (Z.ltb_spec (now + ttl) t); [lia|].
    destruct (shuffle_ok rng Intn Intn_ok (length new_ids) g new_ids
                (le_n _)) as (a & g' & He & Hp).
    rewrite He.
    assert (Hpick : slice a 0
                      (if (length a <? 1000)%nat then length a
                       else 1000%nat)
                    = firstn 1000 a).
    { unfold slice. rewrite Nat.sub_0_r. cbn [skipn].
      destruct (Nat.ltb_spec (length a) 1000); [|reflexivity].
      rewrite firstn_all, firstn_all2 by lia. reflexivity. }
    do 3 eexists. split; [reflexivity|].
    cbn [IdsStore.expires IdsStore.ids]. rewrite Hpick.
    split; [reflexivity|]. split; [exact Hp|]. split; [reflexivity|].
    split; [|split].
    + intros x Hx. apply (Permutation_in x Hp).
      apply (incl_firstn 1000 a x Hx).
    + intros Hnd. apply NoDup_firstn.
      apply (Permutation_NoDup (l := new_ids)); [symmetry; exact Hp|].
      exact Hnd.
    + intros Hlen. rewrite firstn_all2; [exact Hp|].
      rewrite (Permutation_length Hp). exact Hlen.
  - intros Hneg Hnow. apply Hexpired. unfold ttl.
    destruct (Z.eqb_spec d 0); lia.
Qed.


(** X20: the shuffle of [pickIds] takes different sequences of draws to
    different arrangements. Over identifiers that are pairwise distinct,
    two runs of the loop with draws in range end with the same array
    exactly when they drew the same numbers. *)
Theorem shuffle_draws_decide_arrangement (a : list Z) g1 g2 b1 b2 g1' g2'
  (Hnd : NoDup a)
  (H1 : shuffle (length a) g1 a = Some (b1, g1'))
  (H2 : shuffle (length a) g2 a = Some (b2, g2')) :
  b1 = b2 <-> draws (length a) g1 = draws (length a) g2.
Proof.
  split.
  - intros <-. exact (shuffle_draws_injective _ _ _ _ _ _ _ Hnd H1 H2).
  - intros Hd.
    pose proof (shuffle_by_draws (length a) g1 g2 a Hd) as E.
    rewrite H1, H2 in E. cbn [option_map fst] in E. congruence.
Qed.

End StoreProofs.

(** A script of draws for every arrangement of the part of the array the
    loop still has to visit. *)
Lemma shuffle_complete (k : nat) :
  forall a b : list Z,
    (k <= length a)%nat -> length a = length b ->
    Permutation (firstn k a) (firstn k b) -> skipn k a = skipn k b ->
    exists script,
      length script = k /\
      Picks.draws (list nat) Picks.scripted_Intn k script = script /\
      IdsStore.shuffle (list nat) Picks.scripted_Intn k script a
      = Some (b, []).
Proof.
  induction k as [|i IH]; intros a b Hk Hlen Hp Hs.
  - exists []. cbn [skipn] in Hs. subst b. repeat split.
  - destruct (nth_error b i) as [x|] eqn:Hx;
      [|apply nth_error_None in Hx; lia].
    assert (Hin : In x (firstn (S i) a)).
    { apply (Permutation_in x (Permutation_sym Hp)).
      rewrite (firstn_snoc b i x Hx). apply in_or_app. right. now left. }
    apply In_nth_error in Hin as (j & Hj).
    rewrite nth_error_firstn in Hj.
    destruct (Nat.ltb_spec j (S i)) as [Hji|]; [|discriminate].
    assert (Hja : (j < length a)%nat)
      by (apply nth_error_Some; congruence).
    assert (Hx' : nth_error (swap a i j) i = Some x).
    { rewrite swap_nth_error_full, Nat.eqb_refl by lia. exact Hj. }
    destruct (IH (swap a i j) b) as (script & Hl & Hd & Hrun).
    + rewrite swap_length. lia.
    + rewrite swap_length. exact Hlen.
    + apply (Permutation_app_inv_r [x]).
      rewrite <- (firstn_snoc _ i x Hx'), <- (firstn_snoc b i x Hx).
      rewrite swap_firstn by lia.
      rewrite swap_Permutation. exact Hp.
    + rewrite (skipn_cons _ i x Hx'), (skipn_cons b i x Hx).
      rewrite swap_skipn by lia. rewrite Hs. reflexivity.
    + exists (j :: script).
      assert (Hmod : (j mod (i + 1))%nat = j)
        by (apply Nat.mod_small; lia).
      split; [cbn [length]; lia|]. split.
      * cbn [Picks.draws Picks.scripted_Intn]. rewrite Hmod, Hd.
        reflexivity.
      * cbn [IdsStore.shuffle Picks.scripted_Intn]. rewrite Hmod.
        destruct (Nat.ltb_spec i (length a)); [|lia].
        destruct (Nat.ltb_spec j (length a)); [|lia].
        cbn [andb]. exact Hrun.
Qed.

(** X19: every arrangement of the stored identifiers can come out of
    [pickIds]: for each one there is a sequence of draws, each within the
    range asked of [rand.Intn], with which the shuffle ends in that
    arrangement, and the pick then returns its first 1000 identifiers. *)
Theorem pickIds_reaches_every_arrangement (now : Time)
  (store : IdsStore.idsStore) (b : list Z)
  (Hlive : now <= IdsStore.expires store)
  (Hp : Permutation (IdsStore.ids store) b) :
  exists script,
    length script = length (IdsStore.ids store) /\
    Picks.draws (list nat) Picks.scripted_Intn
      (length (IdsStore.ids store)) script = script /\
    IdsStore.pickIds (list nat) Picks.scripted_Intn now script store
    = Some (firstn 1000 b, [],
            IdsStore.mkStore (IdsStore.expires store) b).
Proof.
  destruct (shuffle_complete (length (IdsStore.ids store))
              (IdsStore.ids store) b (le_n _) (Permutation_length Hp))
    as (script & Hl & Hd & Hrun).
  - rewrite firstn_all, (Permutation_length Hp), firstn_all. exact Hp.
  - pose proof (Permutation_length Hp) as L.
    rewrite (skipn_all2 (IdsStore.ids store)) by lia.
    rewrite (skipn_all2 b) by lia. reflexivity.
  - exists script. split; [exact Hl|]. split; [exact Hd|].
    unfold IdsStore.pickIds, After.
    destruct (Z.ltb_spec (IdsStore.expires store) now); [lia|].
    rewrite Hrun. do 2 f_equal. unfold slice.
    rewrite Nat.sub_0_r. cbn [skipn].
    destruct (Nat.ltb_spec (length b) 1000); [|reflexivity].
    rewrite firstn_all, firstn_all2 by lia. reflexivity.
Qed.

Lemma setIds_then_pickIds_witness :
  IdsStore.pickIds N Examples.lcg_Intn (16 * Minute) 4242%N
    (IdsStore.setIds 0 (IdsStore.mkStore 0 []) [1; 2; 3] 0)
  = Some ([], 4242%N,
          IdsStore.setIds 0 (IdsStore.mkStore 0 []) [1; 2; 3] 0).
Proof.
  apply (proj1 (proj2 (setIds_then_pickIds N Examples.lcg_Intn
                         lcg_Intn_in_range 0 (16 * Minute) 4242%N
                         (IdsStore.mkStore 0 []) [1; 2; 3] 0))).
  vm_compute. reflexivity.
Defined.


Lemma pickIds_reaches_every_arrangement_witness :
  exists script,
    IdsStore.pickIds (list nat) Picks.scripted_Intn 5 script
      (IdsStore.mkStore 10 [1; 2; 3])
    = Some ([3; 1; 2], [], IdsStore.mkStore 10 [3; 1; 2]).
Proof.
  destruct (pickIds_reaches_every_arrangement 5
              (IdsStore.mkStore 10 [1; 2; 3]) [3; 1; 2])
    as (script & _ & _ & H).
  - cbn [IdsStore.expires]. lia.
  - cbn [IdsStore.ids]. symmetry.
    exact (Permutation_cons_append [1; 2] 3).
  - exists script. exact H.
Defined.

Lemma shuffle_draws_decide_arrangement_witness :
  [2; 5; 6; 3; 4; 1] = [4; 5; 2; 6; 3; 1] <->
  Picks.draws N Examples.lcg_Intn 6 4242%N
  = Picks.draws N Examples.lcg_Intn 6 77%N.
Proof.
  refine (shuffle_draws_decide_arrangement N Examples.lcg_Intn
            lcg_Intn_in_range [1; 2; 3; 4; 5; 6] 4242%N 77%N
            [2; 5; 6; 3; 4; 1] [4; 5; 2; 6; 3; 1]
            1531500684%N 2070254191%N _ _ _).
  - repeat (constructor; [cbn [In]; intuition lia|]). constructor.
  - vm_compute. reflexivity.
  - vm_compute. reflexivity.
Defined.


(** ** The goroutines: progress, termination and what is left behind *)

Lemma existsb_nth_error {A : Type} (p : A -> bool) (ws : list A) :
  existsb p ws = true ->
  exists i w, nth_error ws i = Some w /\ p w = true.
Proof.
  intros H. apply existsb_exists in H as (w & Hin & Hp).
  apply In_nth_error in Hin as (i & Hi). exists i, w. auto.
Qed.

Lemma workers_all_exited (ws : list Pool.worker) :
  existsb Progress.is_sending ws = false ->
  existsb Pool.is_calling ws = false ->
  existsb Pool.is_idle ws = false ->
  forallb Pool.is_exited ws = true.
Proof.
  induction ws as [|w ws IH]; [reflexivity|].
  cbn [existsb forallb]. intros H1 H2 H3.
  apply orb_false_iff in H1 as [H1 H1'].
  apply orb_false_iff in H2 as [H2 H2'].
  apply orb_false_iff in H3 as [H3 H3'].
  rewrite (IH H1' H2' H3'). destruct w; try discriminate. reflexivity.
Qed.

Lemma weight_upd (ws : list Pool.worker) (i : nat) (old new : Pool.worker) :
  nth_error ws i = Some old ->
  (list_sum (map Progress.weight (upd ws i new)) + Progress.weight old
   = list_sum (map Progress.weight ws) + Progress.weight new)%nat.
Proof.
  revert i. induction ws as [|w ws IH]; intros [|i] H;
    cbn [nth_error] in H; try discriminate.
  - injection H as ->. unfold list_sum. simpl. lia.
  - specialize (IH i H). unfold list_sum in *. simpl. lia.
Qed.

Section PoolMore.

Variable time_Parse : string -> Time * option error.
Variable sort_Sort : (Tweet -> Tweet -> bool) -> list Tweet -> list Tweet.
Variable usersLookup : list Z -> result.
Variable since : Time.

Local Abbreviation step := (Pool.step time_Parse sort_Sort usersLookup since).
Local Abbreviation run := (Pool.run time_Parse sort_Sort usersLookup since).
Local Abbreviation reachable :=
  (Pool.reachable time_Parse sort_Sort usersLookup since).
Local Abbreviation history :=
  (Pool.history time_Parse sort_Sort usersLookup since).
Local Abbreviation failure := (failure time_Parse).
Local Abbreviation returned_well := (Progress.returned_well time_Parse).

(** X21: the caller is never left waiting. In every state in which the
    caller is still in its loop some goroutine can take a step: a worker
    hands over its result, or its lookup returns, or it receives a batch or
    sees [in] closed, or [in] or [out] is closed, or the caller sees [out]
    closed. So when no goroutine can move the caller has returned. *)
Theorem pool_no_deadlock_while_draining (s : Pool.state) :
  (forall tl rl, Pool.main s = Pool.Draining tl rl ->
   exists a s', step a s = Some s') /\
  ((forall a, step a s = None) -> exists o, Pool.main s = Pool.Returned o).
Proof.
  assert (Hmove : forall tl rl, Pool.main s = Pool.Draining tl rl ->
            exists a s', step a s = Some s').
  { intros tl rl Hmain.
    destruct (existsb Progress.is_sending (Pool.workers s)) eqn:Hsend.
    { apply existsb_nth_error in Hsend as (i & w & Hw & Hp).
      destruct w; try discriminate.
      exists (Pool.Deliver i). cbn [Pool.step]. rewrite Hw, Hmain.
      destruct (receive time_Parse since tl rl r) as [e|[tl' rl']]; eexists; reflexivity. }
    destruct (existsb Pool.is_calling (Pool.workers s)) eqn:Hcall.
    { apply existsb_nth_error in Hcall as (i & w & Hw & Hp).
      destruct w; try discriminate.
      exists (Pool.CallReturns i). cbn [Pool.step]. rewrite Hw. eexists; reflexivity. }
    destruct (existsb Pool.is_idle (Pool.workers s)) eqn:Hidle.
    { apply existsb_nth_error in Hidle as (i & w & Hw & Hp).
      destruct w; try discriminate.
      destruct (Pool.pending s) as [|batch rest] eqn:Hpend.
      - destruct (Pool.in_closed s) eqn:Hin.
        + exists (Pool.LeaveLoop i). cbn [Pool.step]. rewrite Hw, Hin. eexists; reflexivity.
        + exists Pool.CloseIn. cbn [Pool.step]. rewrite Hpend, Hin. eexists; reflexivity.
      - exists (Pool.Dispatch i). cbn [Pool.step]. rewrite Hpend, Hw.
        eexists; reflexivity. }
    pose proof (workers_all_exited _ Hsend Hcall Hidle) as Hall.
    destruct (Pool.out_closed s) eqn:Hout.
    - exists Pool.Finish. cbn [Pool.step]. rewrite Hmain, Hout. eexists; reflexivity.
    - exists Pool.CloseOut. cbn [Pool.step]. rewrite Hall, Hout. eexists; reflexivity. }
  split; [exact Hmove|].
  intros Hstuck. destruct (Pool.main s) as [tl rl|o] eqn:Hmain; [|eauto].
  destruct (Hmove tl rl eq_refl) as (a & s' & Hs).
  rewrite Hstuck in Hs. discriminate.
Qed.

Lemma fuel_step (a : Pool.action) (s s' : Pool.state) :
  step a s = Some s' -> (Progress.fuel s' < Progress.fuel s)%nat.
Proof.
  intros Hstep. unfold Progress.fuel.
  destruct a as [i| |i|i|i|i| |]; cbn [Pool.step] in Hstep.
  - destruct (Pool.pending s) as [|batch rest] eqn:Hp; [discriminate|].
    destruct (nth_error (Pool.workers s) i) as [[| | |]|] eqn:Hw;
      try discriminate.
    injection Hstep as <-. cbn [Pool.pending Pool.in_closed Pool.workers
      Pool.out_closed Pool.main length].
    pose proof (weight_upd _ i _ (Pool.Calling batch) Hw) as Hu.
    cbn [Progress.weight] in Hu. lia.
  - destruct (Pool.pending s) eqn:Hp; [|discriminate].
    destruct (Pool.in_closed s) eqn:Hin; [discriminate|].
    injection Hstep as <-. cbn [Pool.pending Pool.in_closed Pool.workers
      Pool.out_closed Pool.main length]. lia.
  - destruct (nth_error (Pool.workers s) i) as [[| | |]|] eqn:Hw;
      try discriminate.
    destruct (Pool.in_closed s) eqn:Hin; [|discriminate].
    injection Hstep as <-. unfold Pool.set_worker.
    cbn [Pool.pending Pool.in_closed Pool.workers Pool.out_closed
         Pool.main]. rewrite Hin.
    pose proof (weight_upd _ i _ Pool.Exited Hw) as Hu.
    cbn [Progress.weight] in Hu. lia.
  - destruct (nth_error (Pool.workers s) i) as [[| | |]|] eqn:Hw;
      try discriminate.
    injection Hstep as <-. unfold Pool.set_worker.
    cbn [Pool.pending Pool.in_closed Pool.workers Pool.out_closed
         Pool.main].
    pose proof (weight_upd _ i _ (Pool.Sending (usersLookup batch)) Hw)
      as Hu.
    cbn [Progress.weight] in Hu. lia.
  - destruct (nth_error (Pool.workers s) i) as [[| | |]|] eqn:Hw;
      try discriminate.
    destruct (Pool.main s) as [tl rl|o] eqn:Hm; [|discriminate].
    pose proof (weight_upd _ i _ Pool.Idle Hw) as Hu.
    cbn [Progress.weight] in Hu.
    destruct (receive time_Parse since tl rl r) as [e|[tl' rl']];
      injection Hstep as <-;
      cbn [Pool.pending Pool.in_closed Pool.workers Pool.out_closed
           Pool.main]; lia.
  - destruct (nth_error (Pool.workers s) i) as [[| | |]|] eqn:Hw;
      try discriminate.
    destruct (Pool.cancel_closed s) eqn:Hc; [|discriminate].
    injection Hstep as <-. unfold Pool.set_worker.
    cbn [Pool.pending Pool.in_closed Pool.workers Pool.out_closed
         Pool.main].
    pose proof (weight_upd _ i _ Pool.Exited Hw) as Hu.
    cbn [Progress.weight] in Hu. lia.
  - destruct (forallb Pool.is_exited (Pool.workers s)); [|discriminate].
    destruct (Pool.out_closed s) eqn:Hout; [discriminate|].
    cbn [negb andb] in Hstep. injection Hstep as <-.
    cbn [Pool.pending Pool.in_closed Pool.workers Pool.out_closed
         Pool.main]. lia.
  - destruct (Pool.main s) as [tl rl|o] eqn:Hm; [|discriminate].
    destruct (Pool.out_closed s) eqn:Hout; [|discriminate].
    injection Hstep as <-.
    cbn [Pool.pending Pool.in_closed Pool.workers Pool.out_closed
         Pool.main]. lia.
Qed.

Lemma fuel_run (sched : list Pool.action) :
  forall s s', run sched s = Some s' ->
               (length sched + Progress.fuel s' <= Progress.fuel s)%nat.
Proof.
  induction sched as [|a sched IH]; intros s s' Hrun; cbn [Pool.run] in Hrun.
  - injection Hrun as <-. cbn [length]. lia.
  - destruct (step a s) as [s1|] eqn:Hs; [|discriminate].
    pose proof (fuel_step a s s1 Hs). specialize (IH s1 s' Hrun).
    cbn [length]. lia.
Qed.

(** X22: the goroutines of one call take a bounded number of steps,
    whatever the scheduler does and whether or not a lookup fails: for [N]
    identifiers no more than [3 * ceil(N/100) + 8], three for each batch
    and eight for the five workers leaving, the two channels closing and
    the caller returning. *)
Theorem pool_schedules_are_bounded (ids : list Z)
  (sched : list Pool.action) (s : Pool.state)
  (Hrun : run sched (Pool.init ids) = Some s) :
  (length sched <= 3 * ((length ids + 99) / 100) + 8)%nat.
Proof.
  pose proof (fuel_run sched _ _ Hrun) as H.
  assert (Hinit : Progress.fuel (Pool.init ids)
                  = (3 * ((length ids + 99) / 100) + 8)%nat).
  { unfold Progress.fuel, Pool.init.
    cbn [Pool.pending Pool.in_closed Pool.workers Pool.out_closed
         Pool.main].
    rewrite producer_length, Nat.sub_0_r. cbn. lia. }
  lia.
Qed.

(** Once the caller has returned, no step changes what it returned, what
    it received or the cancellation. *)
Lemma step_after_return (a : Pool.action) (s s' : Pool.state) (o : outcome) :
  step a s = Some s' -> Pool.main s = Pool.Returned o ->
  Pool.main s' = Pool.Returned o /\ Pool.received s' = Pool.received s /\
  Pool.cancel_closed s' = Pool.cancel_closed s.
Proof.
  intros Hstep Hm.
  destruct a as [i| |i|i|i|i| |]; cbn [Pool.step] in Hstep.
  - destruct (Pool.pending s) as [|batch rest]; [discriminate|].
    destruct (nth_error (Pool.workers s) i) as [[| | |]|];
      try discriminate.
    injection Hstep as <-. cbn. repeat split; auto.
  - destruct (Pool.pending s); [|discriminate].
    destruct (Pool.in_closed s); [discriminate|].
    injection Hstep as <-. cbn. repeat split; auto.
  - destruct (nth_error (Pool.workers s) i) as [[| | |]|];
      try discriminate.
    destruct (Pool.in_closed s); [|discriminate].
    injection Hstep as <-. cbn. repeat split; auto.
  - destruct (nth_error (Pool.workers s) i) as [[| | |]|];
      try discriminate.
    injection Hstep as <-. cbn. repeat split; auto.
  - destruct (nth_error (Pool.workers s) i) as [[| | |]|];
      try discriminate.
    rewrite Hm in Hstep. discriminate.
  - destruct (nth_error (Pool.workers s) i) as [[| | |]|];
      try discriminate.
    destruct (Pool.cancel_closed s) eqn:Hc; [|discriminate].
    injection Hstep as <-. cbn. repeat split; auto.
  - destruct (forallb Pool.is_exited (Pool.workers s)
              && negb (Pool.out_closed s)); [|discriminate].
    injection Hstep as <-. cbn. repeat split; auto.
  - rewrite Hm in Hstep. discriminate.
Qed.

(** When all the workers have gone and both channels are closed, nothing
    can move any more. *)
Lemma settled_terminal (s : Pool.state) (o : outcome) :
  Pool.main s = Pool.Returned o ->
  forallb Pool.is_exited (Pool.workers s) = true ->
  Pool.in_closed s = true -> Pool.out_closed s = true ->
  Pool.pending s = [] ->
  forall a, step a s = None.
Proof.
  intros Hm Hall Hin Hout Hp a.
  assert (Hw : forall i, match nth_error (Pool.workers s) i with
                         | Some Pool.Exited | None => True
                         | _ => False
                         end).
  { intros i. destruct (nth_error (Pool.workers s) i) as [w|] eqn:Hw;
      [|exact I].
    pose proof (forallb_nth_error _ _ _ _ Hall Hw) as He.
    destruct w; try discriminate. exact I. }
  destruct a as [i| |i|i|i|i| |]; cbn [Pool.step];
    try (specialize (Hw i);
         destruct (nth_error (Pool.workers s) i) as [[| | |]|];
         try contradiction).
  all: rewrite ?Hp, ?Hin, ?Hout, ?Hm, ?Hall; try reflexivity.
Qed.

Lemma returned_well_init (ids : list Z) : returned_well (Pool.init ids).
Proof. intros o H. discriminate. Qed.

Lemma returned_well_step (ids : list Z) (a : Pool.action)
  (s s' : Pool.state) :
  Pool.invariant ids s -> history ids s -> returned_well s ->
  step a s = Some s' -> returned_well s'.
Proof.
  intros Hinv Hh Hwell Hstep o Hm'.
  destruct (Pool.main s) as [tl rl|o0] eqn:Hm.
  - (* the caller was in its loop *)
    destruct Hinv as (Hlen & Hq & Hcalls & Hret & Hlate & Hpot).
    destruct Hh as (Hin & Hex & Hout & Hperm & Hmain).
    rewrite Hm in Hmain.
    assert (Hopen : Pool.cancel_closed s = false).
    { destruct (Pool.cancel_closed s); [|reflexivity].
      destruct (Hret eq_refl) as [o1 Ho1]. congruence. }
    destruct a as [i| |i|i|i|i| |]; cbn [Pool.step] in Hstep.
    + destruct (Pool.pending s) as [|batch rest]; [discriminate|].
      destruct (nth_error (Pool.workers s) i) as [[| | |]|];
        try discriminate.
      injection Hstep as <-. cbn [Pool.main Pool.set_worker] in Hm'. congruence.
    + destruct (Pool.pending s); [|discriminate].
      destruct (Pool.in_closed s); [discriminate|].
      injection Hstep as <-. cbn [Pool.main Pool.set_worker] in Hm'. congruence.
    + destruct (nth_error (Pool.workers s) i) as [[| | |]|];
        try discriminate.
      destruct (Pool.in_closed s); [|discriminate].
      injection Hstep as <-. cbn [Pool.main Pool.set_worker] in Hm'. congruence.
    + destruct (nth_error (Pool.workers s) i) as [[| | |]|];
        try discriminate.
      injection Hstep as <-. cbn [Pool.main Pool.set_worker] in Hm'. congruence.
    + destruct (nth_error (Pool.workers s) i) as [[| | |]|];
        try discriminate.
      rewrite Hm in Hstep.
      pose proof (receive_spec time_Parse since tl rl r) as Hr.
      destruct (receive time_Parse since tl rl r) as [e|[tl' rl']];
        injection Hstep as <-; cbn [Pool.main Pool.set_worker] in Hm'; [|discriminate].
      injection Hm' as <-. cbn [snd Pool.cancel_closed Pool.received].
      split; [reflexivity|]. split; [reflexivity|].
      exists (Pool.received s), r. split; [reflexivity|]. split.
      * exact (collect_success time_Parse since _ _ _ _ _ _ Hmain).
      * destruct (failure r) as [e'|]; [congruence | discriminate].
    + destruct (nth_error (Pool.workers s) i) as [[| | |]|];
        try discriminate.
      rewrite Hopen in Hstep. discriminate.
    + destruct (forallb Pool.is_exited (Pool.workers s)
                && negb (Pool.out_closed s)); [|discriminate].
      injection Hstep as <-. cbn [Pool.main Pool.set_worker] in Hm'. congruence.
    + rewrite Hm in Hstep.
      destruct (Pool.out_closed s) eqn:Ho; [|discriminate].
      injection Hstep as <-. cbn [Pool.main Pool.set_worker] in Hm'. injection Hm' as <-.
      cbn [Pool.cancel_closed Pool.workers Pool.in_closed Pool.out_closed
           Pool.pending Pool.late_calls].
      split; [reflexivity|].
      pose proof (Hout eq_refl) as Hall.
      assert (Hne : Pool.workers s <> []).
      { intros E. rewrite E in Hlen. discriminate. }
      pose proof (Hex Hopen (forallb_existsb _ _ Hne Hall)) as Hclosed.
      clear Hmain. destruct tl as [|t tl0]; cbn [snd]; repeat split; auto.
  - (* the caller had returned *)
    destruct (step_after_return a s s' o0 Hstep Hm) as (Hm1 & Hrec & Hc).
    assert (o = o0) by congruence. subst o0.
    destruct (Hwell o Hm) as (Hcancel & Hrest).
    split; [congruence|].
    destruct (snd o) as [e|] eqn:Herr.
    + rewrite Hrec. exact Hrest.
    + destruct Hrest as (Hall & Hin & Hout & Hp & _).
      rewrite (settled_terminal s o Hm Hall Hin Hout Hp a) in Hstep.
      discriminate.
Qed.

Lemma reachable_facts (ids : list Z) (s : Pool.state) :
  reachable ids s ->
  Pool.invariant ids s /\ history ids s /\ returned_well s.
Proof.
  intros [sched Hrun].
  assert (H : forall sched s0,
            Pool.invariant ids s0 -> history ids s0 -> returned_well s0 ->
            run sched s0 = Some s ->
            Pool.invariant ids s /\ history ids s /\ returned_well s).
  { clear sched Hrun.
    induction sched as [|a sched IH]; intros s0 Hi Hh Hw Hrun;
      cbn [Pool.run] in Hrun.
    - injection Hrun as <-. auto.
    - destruct (step a s0) as [s1|] eqn:Hs; [|discriminate].
      apply (IH s1); try assumption.
      + exact (invariant_step time_Parse sort_Sort usersLookup since
                 ids a s0 s1 Hi Hs).
      + exact (history_step time_Parse sort_Sort usersLookup since
                 ids a s0 s1 Hi Hh Hs).
      + exact (returned_well_step ids a s0 s1 Hi Hh Hw Hs). }
  apply (H sched (Pool.init ids)).
  - apply invariant_init.
  - apply history_init.
  - apply returned_well_init.
  - exact Hrun.
Qed.

(** X23: a call that returns without an error leaves nothing running.
    The caller has then received the answer to every batch, each lookup
    was made once and none after the cancellation, all five workers have
    returned, [in] and [out] are closed, and no goroutine can take another
    step; what it returns is [followersTimeline] for the order in which
    the results arrived. *)
Theorem pool_success_leaves_nothing_running (ids : list Z)
  (s : Pool.state) (o : outcome)
  (Hreach : reachable ids s)
  (Hmain : Pool.main s = Pool.Returned o)
  (Hok : snd o = None) :
  forallb Pool.is_exited (Pool.workers s) = true /\
  Pool.in_closed s = true /\ Pool.out_closed s = true /\
  Pool.cancel_closed s = true /\
  Pool.calls s = length (producer ids 0) /\ Pool.late_calls s = 0%nat /\
  (forall a, step a s = None) /\
  exists order,
    Permutation order (seq 0 (length (producer ids 0))) /\
    Pool.received s = arrivals usersLookup (producer ids 0) order /\
    o = followersTimeline time_Parse sort_Sort (inr ids) usersLookup order
          since.
Proof.
  destruct (reachable_facts ids s Hreach) as (Hinv & _ & Hwell).
  destruct (Hwell o Hmain) as (Hcancel & Hrest). rewrite Hok in Hrest.
  destruct Hrest as (Hall & Hin & Hout & Hp & Hlate).
  destruct Hinv as (_ & Hq & Hcalls & _).
  rewrite Hp, app_nil_r in Hq.
  repeat split; try assumption.
  - rewrite Hcalls, Hq. reflexivity.
  - exact (settled_terminal s o Hmain Hall Hin Hout Hp).
  - exact (proj2 (pool_returns_followersTimeline time_Parse sort_Sort
                    usersLookup since ids s o Hreach Hmain) Hok).
Qed.

(** X25: a call that returns an error returns no timeline and no rate
    limit, has closed [cancel], and the error is that of the last result
    the caller received, a worker's or that of a timestamp in it; every
    result received before it was sound, and nothing is received after
    it. *)
Theorem pool_error_is_the_last_received (ids : list Z)
  (s : Pool.state) (o : outcome) (e : error)
  (Hreach : reachable ids s)
  (Hmain : Pool.main s = Pool.Returned o)
  (Herr : snd o = Some e) :
  o = ([], None, Some e) /\ Pool.cancel_closed s = true /\
  (exists pre r,
     Pool.received s = pre ++ [r] /\
     Forall (fun r => failure r = None) pre /\ failure r = Some e) /\
  (forall a s', step a s = Some s' ->
     Pool.main s' = Pool.Returned o /\
     Pool.received s' = Pool.received s).
Proof.
  destruct (reachable_facts ids s Hreach) as (_ & _ & Hwell).
  destruct (Hwell o Hmain) as (Hcancel & Hrest). rewrite Herr in Hrest.
  destruct Hrest as (Ho & Hrec).
  split; [exact Ho|]. split; [exact Hcancel|]. split; [exact Hrec|].
  intros a s' Hstep.
  destruct (step_after_return a s s' o Hstep Hmain) as (H1 & H2 & _).
  auto.
Qed.

Lemma leak_step (a : Pool.action) (s s' : Pool.state) :
  forallb Pool.is_exited (Pool.workers s) = true ->
  Pool.pending s <> [] ->
  step a s = Some s' ->
  Pool.workers s' = Pool.workers s /\ Pool.pending s' = Pool.pending s /\
  Pool.in_closed s' = Pool.in_closed s.
Proof.
  intros Hall Hp Hstep.
  assert (Hw : forall i, match nth_error (Pool.workers s) i with
                         | Some Pool.Exited | None => True
                         | _ => False
                         end).
  { intros i. destruct (nth_error (Pool.workers s) i) as [w|] eqn:Hw;
      [|exact I].
    pose proof (forallb_nth_error _ _ _ _ Hall Hw) as He.
    destruct w; try discriminate. exact I. }
  destruct a as [i| |i|i|i|i| |]; cbn [Pool.step] in Hstep;
    try (specialize (Hw i);
         destruct (nth_error (Pool.workers s) i) as [[| | |]|];
         try contradiction).
  all: try (destruct (Pool.pending s); discriminate).
  all: try discriminate.
  - destruct (Pool.pending s); [contradiction | discriminate].
  - destruct (forallb Pool.is_exited (Pool.workers s)
              && negb (Pool.out_closed s)); [|discriminate].
    injection Hstep as <-. cbn. repeat split; auto.
  - destruct (Pool.main s); [|discriminate].
    destruct (Pool.out_closed s); [|discriminate].
    injection Hstep as <-. cbn. repeat split; auto.
Qed.

Lemma leak_run (sched : list Pool.action) :
  forall s s',
    forallb Pool.is_exited (Pool.workers s) = true ->
    Pool.pending s <> [] ->
    run sched s = Some s' ->
    Pool.workers s' = Pool.workers s /\ Pool.pending s' = Pool.pending s /\
    Pool.in_closed s' = Pool.in_closed s.
Proof.
  induction sched as [|a sched IH]; intros s s' Hall Hp Hrun;
    cbn [Pool.run] in Hrun.
  - injection Hrun as <-. auto.
  - destruct (step a s) as [s1|] eqn:Hs; [|discriminate].
    destruct (leak_step a s s1 Hall Hp Hs) as (Ew & Ep & Ei).
    destruct (IH s1 s') as (R1 & R2 & R3).
    + rewrite Ew. exact Hall.
    + rewrite Ep. exact Hp.
    + exact Hrun.
    + rewrite R1, R2, R3. auto.
Qed.

(** X24: the producer can be left behind, and only by an error. If all
    the workers have returned while batches are still to be sent, the
    caller has returned an error; and from then on, whatever else happens,
    the producer stays blocked in its send: the batches are never sent and
    [in] is never closed. *)
Theorem producer_left_blocked (ids : list Z) (s : Pool.state)
  (Hreach : reachable ids s)
  (Hall : forallb Pool.is_exited (Pool.workers s) = true)
  (Hpending : Pool.pending s <> []) :
  (exists e, Pool.main s = Pool.Returned ([], None, Some e)) /\
  forall sched s',
    run sched s = Some s' ->
    Pool.pending s' = Pool.pending s /\ Pool.in_closed s' = false /\
    forallb Pool.is_exited (Pool.workers s') = true.
Proof.
  destruct (reachable_facts ids s Hreach) as (Hinv & Hh & Hwell).
  destruct Hinv as (Hlen & _ & _ & Hret & _).
  destruct Hh as (Hin & Hex & _).
  assert (Hne : Pool.workers s <> []).
  { intros E. rewrite E in Hlen. discriminate. }
  assert (Hinopen : Pool.in_closed s = false).
  { destruct (Pool.in_closed s); [|reflexivity].
    exfalso. apply Hpending, Hin. reflexivity. }
  assert (Hcancel : Pool.cancel_closed s = true).
  { destruct (Pool.cancel_closed s) eqn:Hc; [reflexivity|].
    rewrite (Hex eq_refl (forallb_existsb _ _ Hne Hall)) in Hinopen.
    discriminate. }
  split.
  - destruct (Hret Hcancel) as [o Ho].
    destruct (Hwell o Ho) as (_ & Hrest).
    destruct (snd o) as [e|] eqn:Herr.
    + destruct Hrest as (-> & _). exists e. exact Ho.
    + destruct Hrest as (_ & _ & _ & Hp & _). contradiction.
  - intros sched s' Hrun.
    destruct (leak_run sched s s' Hall Hpending Hrun) as (Ew & Ep & Ei).
    rewrite Ew, Ep, Ei. auto.
Qed.

End PoolMore.

Lemma pool_schedules_are_bounded_witness :
  (length [Pool.Dispatch 0; Pool.CallReturns 0; Pool.Deliver 0;
           Pool.Dispatch 1]
   <= 3 * ((length Examples.two_batches + 99) / 100) + 8)%nat.
Proof.
  refine (pool_schedules_are_bounded Examples.parse_seconds
            (@Examples.insertionSort Tweet) Examples.lookup_failing 0
            Examples.two_batches
            [Pool.Dispatch 0; Pool.CallReturns 0; Pool.Deliver 0;
             Pool.Dispatch 1] _ _).
  vm_compute. reflexivity.
Defined.

Lemma pool_success_leaves_nothing_running_witness :
  exists s,
    Pool.run Examples.parse_seconds (@Examples.insertionSort Tweet)
      (fun _ => Looked Examples.three_users) (640 * Second)
      Schedules.one_batch_to_the_end (Pool.init [100; 200; 300]) = Some s /\
    Pool.calls s = length (producer [100; 200; 300] 0) /\
    Pool.late_calls s = 0%nat.
Proof.
  eexists. split; [vm_compute; reflexivity|].
  refine ((fun H => conj (proj1 (proj2 (proj2 (proj2 (proj2 H))))) 
                         (proj1 (proj2 (proj2 (proj2 (proj2 (proj2 H)))))))
    (pool_success_leaves_nothing_running Examples.parse_seconds
       (@Examples.insertionSort Tweet)
       (fun _ => Looked Examples.three_users) (640 * Second)
       [100; 200; 300] _ _
       (ex_intro _ Schedules.one_batch_to_the_end _) _ _)).
  - vm_compute. reflexivity.
  - reflexivity.
  - reflexivity.
Defined.

Lemma pool_error_is_the_last_received_witness :
  exists s,
    Pool.run Examples.parse_seconds (@Examples.insertionSort Tweet)
      Examples.lookup_failing 0
      [Pool.Dispatch 0; Pool.CallReturns 0; Pool.Deliver 0]
      (Pool.init Examples.two_batches) = Some s /\
    Pool.cancel_closed s = true.
Proof.
  eexists. split; [vm_compute; reflexivity|].
  refine (proj1 (proj2
    (pool_error_is_the_last_received Examples.parse_seconds
       (@Examples.insertionSort Tweet) Examples.lookup_failing 0
       Examples.two_batches _ _ "lookup failed"%string
       (ex_intro _ [Pool.Dispatch 0; Pool.CallReturns 0; Pool.Deliver 0] _)
       _ _))).
  - vm_compute. reflexivity.
  - reflexivity.
  - reflexivity.
Defined.

Lemma producer_left_blocked_witness :
  exists s e,
    Pool.run Examples.parse_seconds (@Examples.insertionSort Tweet)
      Examples.lookup_failing 0 Schedules.fail_then_drain
      (Pool.init Schedules.seven_batches) = Some s /\
    length (Pool.pending s) = 1%nat /\
    Pool.main s = Pool.Returned ([], None, Some e).
Proof.
  assert (Hrun : exists s,
            Pool.run Examples.parse_seconds (@Examples.insertionSort Tweet)
              Examples.lookup_failing 0 Schedules.fail_then_drain
              (Pool.init Schedules.seven_batches) = Some s /\
            forallb Pool.is_exited (Pool.workers s) = true /\
            length (Pool.pending s) = 1%nat).
  { eexists. split; [vm_compute; reflexivity|]. split; reflexivity. }
  destruct Hrun as (s & Hrun & Hall & Hlen).
  destruct (proj1 (producer_left_blocked Examples.parse_seconds
                     (@Examples.insertionSort Tweet) Examples.lookup_failing
                     0 Schedules.seven_batches s
                     (ex_intro _ Schedules.fail_then_drain Hrun) Hall
                     (fun E => O_S 0 (eq_trans (eq_sym (f_equal (@length _) E))
                                               Hlen))))
    as [e He].
  exists s, e. auto.
Defined.


(** ** The pace of [Run] *)

(** X26: what the wait of a round does with the budget. When the
    difference between the reset time and now fits [int64] and the count
    remaining is not negative, the wait is at least 10 seconds and at most
    the time left until the reset (or 10 seconds, if less is left); when
    the round used more than what remains, the bot waits for the reset;
    and when it waits longer than 10 seconds, as many rounds as the
    remaining count pays for at the rate of this round, each followed by
    this wait, end before the reset. *)
Theorem Run_wait_paces (latest cur : rateLimitStatus) (now : Z)
  (Hleft : is_int64 (Reset cur - now))
  (Hrem : 0 <= Remaining cur) :
  let left := Reset cur - now in
  let diff := Remaining latest - Remaining cur in
  10 <= Run_wait latest cur now /\
  Run_wait latest cur now <= Z.max 10 left /\
  (0 < diff -> Remaining cur < diff ->
   Run_wait latest cur now = Z.max 10 left) /\
  (0 < diff -> 10 < Run_wait latest cur now ->
   Run_wait latest cur now * (Remaining cur / diff) <= left).
Proof.
  cbv zeta. unfold Run_wait, int64_sub.
  rewrite (int64_wrap_id _ Hleft).
  set (left := Reset cur - now). set (diff := Remaining latest - Remaining cur).
  destruct (Z.ltb_spec 0 diff) as [Hd|Hd].
  2: { split; [lia|]. split; [lia|]. split; intros; lia. }
  rewrite (Z.quot_div_nonneg (Remaining cur) diff Hrem Hd).
  pose proof (Z.div_pos (Remaining cur) diff Hrem Hd) as Hnum.
  set (num := Remaining cur / diff) in *.
  set (num' := if num =? 0 then num + 1 else num).
  assert (Hnum' : 1 <= num' /\ num <= num').
  { unfold num'. destruct (Z.eqb_spec num 0); lia. }
  assert (Hwait : (0 <= left ->
                   0 <= Z.quot left num' <= left /\
                   Z.quot left num' * num' <= left) /\
                  (left < 0 -> Z.quot left num' <= 0)).
  { split.
    - intros Hl. rewrite (Z.quot_div_nonneg left num') by lia.
      pose proof (Z.div_pos left num' Hl ltac:(lia)).
      pose proof (Z.mul_div_le left num' ltac:(lia)).
      split; [|lia]. split; [lia|]. nia.
    - intros Hl. replace left with (- (- left)) by lia.
      rewrite Z.quot_opp_l by lia.
      pose proof (Z.quot_pos (- left) num' ltac:(lia) ltac:(lia)). lia. }
  destruct Hwait as [Hpos Hneg].
  destruct (Z.ltb_spec 10 (Z.quot left num')) as [Hw|Hw].
  - assert (Hl : 0 <= left) by (destruct (Z_lt_le_dec left 0); [|lia];
      specialize (Hneg ltac:(lia)); lia).
    destruct (Hpos Hl) as ((H0 & Hle) & Hmul).
    split; [lia|]. split; [lia|]. split.
    + intros _ Hsmall.
      assert (E : num = 0) by (apply Z.div_small; lia).
      unfold num'. rewrite E. cbn [Z.eqb Z.add].
      rewrite Z.quot_1_r. unfold num' in Hw. rewrite E in Hw.
      cbn [Z.eqb Z.add] in Hw. rewrite Z.quot_1_r in Hw. lia.
    + intros _ _. nia.
  - split; [lia|]. split; [lia|]. split.
    + intros _ Hsmall.
      assert (E : num = 0) by (apply Z.div_small; lia).
      unfold num' in Hw. rewrite E in Hw.
      cbn [Z.eqb Z.add] in Hw. rewrite Z.quot_1_r in Hw. lia.
    + intros _ Hlt. lia.
Qed.

Lemma Run_wait_paces_witness :
  Run_wait (mkRateLimit 180 180 1900) (mkRateLimit 180 165 1900) 1000
  * (165 / (180 - 165)) <= 1900 - 1000.
Proof.
  refine (proj2 (proj2 (proj2
    (Run_wait_paces (mkRateLimit 180 180 1900) (mkRateLimit 180 165 1900)
       1000 _ _))) _ _).
  - unfold is_int64. cbn [Reset]. lia.
  - cbn [Remaining]. lia.
  - cbn [Remaining]. lia.
  - vm_compute. reflexivity.
Defined.
